(** * Metaball contour extraction: a shallow embedding of metaball-contour.c

    The two exported functions, [add_bridge_field] and [marching_squares],
    and their helpers are transcribed over

    - an interface [FloatOps] for the [float] operations the C code uses,
      with two instances: IEEE-754 binary32 (module [Binary32], built on the
      executable [SpecFloat] operations at precision 24 and maximal exponent
      128) and exact real arithmetic (module [Exact]); the C library's
      [expf] is a parameter of the functions that call it;
    - a memory of three separate buffers ([grid_values], [mst_edges],
      [segments_out]) accessed by bounds-checked loads and stores inside a
      state-and-failure monad: an access outside a buffer, a float-to-int
      cast outside the range of [int], and the read of a variable the code
      left unset are undefined in C and make the run fail ([None]).

    [int] values are modelled by [Z] without wrap-around.  Signed overflow
    is undefined in C, and in a run that succeeds every [int] the code
    computes is a loop counter bounded by [cols], [rows] or
    [num_mst_edges], the result of a range-checked cast, a case index, or
    an index at which a buffer is accessed (or a partial sum of one); for
    buffers of fewer than [2^31] floats none of them overflows.  The loop
    bounds [rows - 1] and [cols - 1] overflow for no [int] but [INT_MIN],
    which no grid has; a statement that admits negative sizes says
    [-2^31 < rows] and [-2^31 < cols]. *)

From Stdlib Require Import ZArith List Bool Lia Reals Lra Psatz.
From Stdlib Require Import Floats.SpecFloat.
From stdpp Require Import base list.

Open Scope Z_scope.

(** ** Floating-point interface *)

Class FloatOps (F : Type) := {
  fadd : F → F → F;
  fsub : F → F → F;
  fmul : F → F → F;
  fdiv : F → F → F;
  fneg : F → F;
  flt : F → F → bool;            (* a < b *)
  fle : F → F → bool;            (* a <= b *)
  fabsf : F → F;
  sqrtf : F → F;
  floorf : F → F;
  ceilf : F → F;
  fminf : F → F → F;
  fmaxf : F → F → F;
  flit : Z → positive → F;       (* the literal n/d, rounded to the format *)
  of_int : Z → F;                (* conversion int -> float *)
  to_int : F → option Z          (* the cast (int)x, undefined out of range *)
}.

Declare Scope flt_scope.
Delimit Scope flt_scope with flt.
Infix "+" := fadd : flt_scope.
Infix "-" := fsub : flt_scope.
Infix "*" := fmul : flt_scope.
Infix "/" := fdiv : flt_scope.
Notation "- x" := (fneg x) : flt_scope.
Infix "<?" := flt : flt_scope.
Infix "<=?" := fle : flt_scope.
Notation "a >? b" := (flt b a) : flt_scope.
Notation "a >=? b" := (fle b a) : flt_scope.

(** ** Memory and the monad of the program *)

Section Memory.
Context {F : Type}.

Record memory := Memory {
  grid_values : list F;
  mst_edges : list F;
  segments_out : list F
}.

Definition M (A : Type) : Type := memory → option (A * memory).

Definition ret {A} (a : A) : M A := λ m, Some (a, m).

Definition bind {A B} (k : A → M B) (x : M A) : M B :=
  λ m, match x m with
       | Some (a, m') => k a m'
       | None => None
       end.

Global Instance M_ret : MRet M := @ret.
Global Instance M_bind : MBind M := @bind.

Definition fail {A} : M A := λ _, None.

Definition lift {A} (o : option A) : M A :=
  λ m, match o with Some a => Some (a, m) | None => None end.

(** [buf[i]] for a buffer of [length buf] floats. *)
Definition read (buf : list F) (i : Z) : option F :=
  if 0 <=? i then buf !! Z.to_nat i else None.

(** [buf[i] = v]. *)
Definition write (buf : list F) (i : Z) (v : F) : option (list F) :=
  if (0 <=? i) && (i <? Z.of_nat (length buf))
  then Some (<[Z.to_nat i := v]> buf) else None.

Definition load_grid (i : Z) : M F := λ m, lift (read (grid_values m) i) m.
Definition load_edge (i : Z) : M F := λ m, lift (read (mst_edges m) i) m.

Definition store_grid (i : Z) (v : F) : M unit :=
  λ m, match write (grid_values m) i v with
       | Some g => Some (tt, Memory g (mst_edges m) (segments_out m))
       | None => None
       end.

Definition store_seg (i : Z) (v : F) : M unit :=
  λ m, match write (segments_out m) i v with
       | Some s => Some (tt, Memory (grid_values m) (mst_edges m) s)
       | None => None
       end.

(** [for (int i = lo; i < hi; i++) acc = body(i, acc);] *)
Fixpoint for_loop {A} (n : nat) (i : Z) (body : Z → A → M A) (acc : A) : M A :=
  match n with
  | O => mret acc
  | S n' => body i acc ≫= for_loop n' (i + 1) body
  end.

Definition for_range {A} (lo hi : Z) (body : Z → A → M A) (acc : A) : M A :=
  for_loop (Z.to_nat (hi - lo)) lo body acc.
End Memory.

Arguments memory : clear implicits.
Arguments M : clear implicits.

(** ** The program *)

Section Program.
Context {F : Type} `{FloatOps F}.
(** [expf] is the C library's; the functions that call it take it as
    their first argument. *)
Variable expf : F → F.
Local Open Scope flt_scope.

Notation "0.0" := (flit 0 1).
Notation "1.0" := (flit 1 1).

(* ── Helpers ── *)

Definition dist_to_segment_sq (px py ax ay bx by_ : F) : F :=
  let dx := bx - ax in
  let dy := by_ - ay in
  let lenSq := dx * dx + dy * dy in
  if lenSq <? flit 1 1000000000000 then
    let ex := px - ax in
    let ey := py - ay in
    ex * ex + ey * ey
  else
    let t := ((px - ax) * dx + (py - ay) * dy) / lenSq in
    let t := if t <? 0.0 then 0.0 else t in
    let t := if t >? 1.0 then 1.0 else t in
    let nearX := ax + t * dx in
    let nearY := ay + t * dy in
    let ex := px - nearX in
    let ey := py - nearY in
    ex * ex + ey * ey.

Definition lerp1d (v0 v1 threshold : F) : F :=
  let d := v1 - v0 in
  if fabsf d <? flit 1 10000000000 then flit 1 2
  else (threshold - v0) / d.

(* ── Edge table for marching squares ──
   Edges: 0=top, 1=right, 2=bottom, 3=left
   Each case maps to 0-2 edge pairs. *)
Definition EDGE_TABLE : list ((Z * Z) * (Z * Z)) :=
  [ (* 0:  0000 *) ((-1,-1),(-1,-1));
    (* 1:  0001 *) (( 3, 2),(-1,-1));
    (* 2:  0010 *) (( 2, 1),(-1,-1));
    (* 3:  0011 *) (( 3, 1),(-1,-1));
    (* 4:  0100 *) (( 1, 0),(-1,-1));
    (* 5:  0101 *) (( 3, 0),( 1, 2));
    (* 6:  0110 *) (( 2, 0),(-1,-1));
    (* 7:  0111 *) (( 3, 0),(-1,-1));
    (* 8:  1000 *) (( 0, 3),(-1,-1));
    (* 9:  1001 *) (( 0, 2),(-1,-1));
    (* 10: 1010 *) (( 0, 1),( 2, 3));
    (* 11: 1011 *) (( 0, 1),(-1,-1));
    (* 12: 1100 *) (( 1, 3),(-1,-1));
    (* 13: 1101 *) (( 1, 2),(-1,-1));
    (* 14: 1110 *) (( 2, 3),(-1,-1));
    (* 15: 1111 *) ((-1,-1),(-1,-1)) ].

Definition NUM_PAIRS : list Z :=
  [0; 1; 1; 1; 1; 2; 1; 1; 1; 1; 2; 1; 1; 1; 1; 0].

(** [tab[i]] for the two constant tables, whose index is a case index. *)
Definition table_get {A} (tab : list A) (i : Z) (d : A) : A :=
  nth (Z.to_nat i) tab d.

(** [pairs[p][0]] and [pairs[p][1]] of the local [int pairs[2][2]]. *)
Definition pair_at (pairs : (Z * Z) * (Z * Z)) (p : Z) : Z * Z :=
  if p =? 0 then fst pairs else snd pairs.

(* ── Exported functions ── *)

(** The statement guarded by the cutoff test, lines 114-119. *)
Definition accumulate_cell (cols : Z) (origin_x cell_size py : F)
    (ax ay bx by_ cutoffSq invTwoSigmaSq : F) (r c : Z) : M F unit :=
  let px := origin_x + of_int c * cell_size in
  let dSq := dist_to_segment_sq px py ax ay bx by_ in
  if dSq <? cutoffSq then
    let val := expf (- dSq * invTwoSigmaSq) in
    g ← load_grid (r * cols + c);
    store_grid (r * cols + c) (g + val)
  else mret tt.

(** The two nested loops over rows [rLo..rHi] and columns [cLo..cHi],
    both inclusive, lines 111-121. *)
Definition accumulate_box (cols : Z) (origin_x origin_y cell_size : F)
    (ax ay bx by_ cutoffSq invTwoSigmaSq : F) (rLo rHi cLo cHi : Z) : M F unit :=
  for_range rLo (rHi + 1) (λ r _,
    let py := origin_y + of_int r * cell_size in
    for_range cLo (cHi + 1) (λ c _,
      accumulate_cell cols origin_x cell_size py
        ax ay bx by_ cutoffSq invTwoSigmaSq r c) tt) tt.

(** The body of the loop over the edges, lines 85-121. *)
Definition bridge_edge (cols rows : Z) (origin_x origin_y cell_size : F)
    (baseSigma : F) (i : Z) : M F unit :=
  ax ← load_edge (i * 4 + 0);
  ay ← load_edge (i * 4 + 1);
  bx ← load_edge (i * 4 + 2);
  by_ ← load_edge (i * 4 + 3);
  let edx := bx - ax in
  let edy := by_ - ay in
  let edgeLen := sqrtf (edx * edx + edy * edy) in
  let bridgeSigma := fmaxf baseSigma (edgeLen * flit 12 100) in
  let invTwoSigmaSq := 1.0 / (flit 2 1 * bridgeSigma * bridgeSigma) in
  let cutoff := flit 3 1 * bridgeSigma in
  let cutoffSq := cutoff * cutoff in
  let segMinX := fminf ax bx - cutoff in
  let segMaxX := fmaxf ax bx + cutoff in
  let segMinY := fminf ay by_ - cutoff in
  let segMaxY := fmaxf ay by_ + cutoff in
  rMin ← lift (to_int (floorf ((segMinY - origin_y) / cell_size)));
  let rMin := if (rMin <? 0)%Z then 0%Z else rMin in
  rMax ← lift (to_int (ceilf ((segMaxY - origin_y) / cell_size)));
  let rMax := if (rMax >? rows - 1)%Z then (rows - 1)%Z else rMax in
  cMin ← lift (to_int (floorf ((segMinX - origin_x) / cell_size)));
  let cMin := if (cMin <? 0)%Z then 0%Z else cMin in
  cMax ← lift (to_int (ceilf ((segMaxX - origin_x) / cell_size)));
  let cMax := if (cMax >? cols - 1)%Z then (cols - 1)%Z else cMax in
  accumulate_box cols origin_x origin_y cell_size
    ax ay bx by_ cutoffSq invTwoSigmaSq rMin rMax cMin cMax.

Definition add_bridge_field (cols rows : Z)
    (origin_x origin_y cell_size : F)
    (num_mst_edges : Z) (base_sigma : F) : M F unit :=
  let baseSigma := fmaxf base_sigma (cell_size * flit 5 2) in
  for_range 0 num_mst_edges (λ i _,
    bridge_edge cols rows origin_x origin_y cell_size baseSigma i) tt.

Definition get_edge_point (cols : Z) (origin_x origin_y cell_size : F)
    (r c edge : Z) (threshold : F) : M F (F * F) :=
  tl ← load_grid (r * cols + c);
  tr ← load_grid (r * cols + c + 1);
  bl ← load_grid ((r + 1) * cols + c);
  br ← load_grid ((r + 1) * cols + c + 1);
  let x0 := origin_x + of_int c * cell_size in
  let y0 := origin_y + of_int r * cell_size in
  let x1 := x0 + cell_size in
  let y1 := y0 + cell_size in
  match edge with
  | 0%Z => (* top: tl -> tr *)
      let t := lerp1d tl tr threshold in
      mret (x0 + t * cell_size, y0)
  | 1%Z => (* right: tr -> br *)
      let t := lerp1d tr br threshold in
      mret (x1, y0 + t * cell_size)
  | 2%Z => (* bottom: bl -> br *)
      let t := lerp1d bl br threshold in
      mret (x0 + t * cell_size, y1)
  | 3%Z => (* left: tl -> bl *)
      let t := lerp1d tl bl threshold in
      mret (x0, y0 + t * cell_size)
  | _ => fail (* no case of the switch: the outputs stay unset *)
  end.

(** The saddle disambiguation, lines 196-212: the pairs after it. *)
Definition saddle_pairs (cols r c caseIndex : Z) (threshold : F)
    (pairs : (Z * Z) * (Z * Z)) : M F ((Z * Z) * (Z * Z)) :=
  if (caseIndex =? 5)%Z || (caseIndex =? 10)%Z then
    g0 ← load_grid (r * cols + c);
    g1 ← load_grid (r * cols + c + 1);
    g2 ← load_grid ((r + 1) * cols + c + 1);
    g3 ← load_grid ((r + 1) * cols + c);
    let center := (g0 + g1 + g2 + g3) / flit 4 1 in
    if (caseIndex =? 5)%Z then
      if center >=? threshold then mret ((3, 2), (1, 0))%Z
      else mret ((3, 0), (1, 2))%Z
    else (* case 10 *)
      if center >=? threshold then mret ((0, 3), (2, 1))%Z
      else mret ((0, 1), (2, 3))%Z
  else mret pairs.

(** The body of the loop over the pairs of one cell, lines 215-224. *)
Definition emit_pair (cols : Z) (origin_x origin_y cell_size : F)
    (threshold : F) (r c : Z) (pairs : (Z * Z) * (Z * Z))
    (p : Z) (seg_count : Z) : M F Z :=
  '(x0, y0) ← get_edge_point cols origin_x origin_y cell_size
                r c (pair_at pairs p).1 threshold;
  '(x1, y1) ← get_edge_point cols origin_x origin_y cell_size
                r c (pair_at pairs p).2 threshold;
  store_seg (seg_count * 4 + 0) x0;;
  store_seg (seg_count * 4 + 1) y0;;
  store_seg (seg_count * 4 + 2) x1;;
  store_seg (seg_count * 4 + 3) y1;;
  mret (seg_count + 1)%Z.

(** The loop over the pairs of one cell, lines 214-225. *)
Definition emit_pairs (cols : Z) (origin_x origin_y cell_size : F)
    (threshold : F) (r c : Z) (pairs : (Z * Z) * (Z * Z)) (numPairs : Z)
    (seg_count : Z) : M F Z :=
  for_range 0 numPairs
    (emit_pair cols origin_x origin_y cell_size threshold r c pairs)
    seg_count.

Definition inside (v threshold : F) : Z := if v >=? threshold then 1 else 0.

Definition case_index (tl tr br bl : Z) : Z :=
  Z.lor (Z.lor (Z.lor (Z.shiftl tl 3) (Z.shiftl tr 2)) (Z.shiftl br 1)) bl.

(** The body of the loop over the cells, lines 178-225. *)
Definition march_cell (cols : Z) (origin_x origin_y cell_size : F)
    (threshold : F) (r c : Z) (seg_count : Z) : M F Z :=
  g_tl ← load_grid (r * cols + c);
  let tl := inside g_tl threshold in
  g_tr ← load_grid (r * cols + c + 1);
  let tr := inside g_tr threshold in
  g_br ← load_grid ((r + 1) * cols + c + 1);
  let br := inside g_br threshold in
  g_bl ← load_grid ((r + 1) * cols + c);
  let bl := inside g_bl threshold in
  let caseIndex := case_index tl tr br bl in
  if (caseIndex =? 0)%Z || (caseIndex =? 15)%Z then mret seg_count (* continue *)
  else
    let numPairs := table_get NUM_PAIRS caseIndex 0%Z in
    (* Copy default edge pairs *)
    let pairs := table_get EDGE_TABLE caseIndex ((-1, -1), (-1, -1))%Z in
    (* Saddle disambiguation *)
    pairs ← saddle_pairs cols r c caseIndex threshold pairs;
    emit_pairs cols origin_x origin_y cell_size threshold r c
      pairs numPairs seg_count.

Definition marching_squares (cols rows : Z)
    (origin_x origin_y cell_size threshold : F) : M F Z :=
  for_range 0 (rows - 1) (λ r seg_count,
    for_range 0 (cols - 1) (λ c seg_count,
      march_cell cols origin_x origin_y cell_size threshold r c seg_count)
      seg_count) 0%Z.


End Program.

(** ** IEEE-754 binary32, the [float] of the C code

    The arithmetic is that of [SpecFloat] at precision 24 and maximal
    exponent 128, rounding to nearest with ties to even. *)

Module Binary32.
Definition prec : Z := 24.
Definition emax : Z := 128.

Definition float32 : Type := spec_float.

(** The value of a finite float as an integer mantissa and exponent. *)
Definition signed_mantissa (s : bool) (m : positive) : Z :=
  cond_Zopp s (Zpos m).

Definition floor32 (x : float32) : float32 :=
  match x with
  | S754_finite s m (Zneg p) =>
      binary_normalize prec emax
        (Z.shiftr (signed_mantissa s m) (Zpos p)) 0 s
  | _ => x
  end.

Definition ceil32 (x : float32) : float32 :=
  match x with
  | S754_finite s m (Zneg p) =>
      binary_normalize prec emax
        (- Z.shiftr (- signed_mantissa s m) (Zpos p)) 0 s
  | _ => x
  end.

(** [fmaxf] and [fminf] return the other argument when one is a NaN. *)
Definition max32 (x y : float32) : float32 :=
  match x, y with
  | S754_nan, _ => y
  | _, S754_nan => x
  | _, _ => if SFltb x y then y else x
  end.

Definition min32 (x y : float32) : float32 :=
  match x, y with
  | S754_nan, _ => y
  | _, S754_nan => x
  | _, _ => if SFltb y x then y else x
  end.

(** A decimal literal [n/d], correctly rounded. *)
Definition lit32 (n : Z) (d : positive) : float32 :=
  match n with
  | Z0 => S754_zero false
  | Zpos p => SFdiv prec emax (S754_finite false p 0) (S754_finite false d 0)
  | Zneg p => SFdiv prec emax (S754_finite true p 0) (S754_finite false d 0)
  end.

Definition of_int32 (z : Z) : float32 := binary_normalize prec emax z 0 false.

(** The cast to [int] truncates toward zero; it is undefined for a NaN,
    an infinity and a value outside the range of [int]. *)
Definition to_int32 (x : float32) : option Z :=
  match x with
  | S754_zero _ => Some 0
  | S754_finite s m e =>
      let z := cond_Zopp s (Z.shiftl (Zpos m) e) in
      if (- 2 ^ 31 <=? z) && (z <? 2 ^ 31) then Some z else None
  | _ => None
  end.

Definition ops : FloatOps float32 := {|
  fadd := SFadd prec emax;
  fsub := SFsub prec emax;
  fmul := SFmul prec emax;
  fdiv := SFdiv prec emax;
  fneg := SFopp;
  flt := SFltb;
  fle := SFleb;
  fabsf := SFabs;
  sqrtf := SFsqrt prec emax;
  floorf := floor32;
  ceilf := ceil32;
  fminf := min32;
  fmaxf := max32;
  flit := lit32;
  of_int := of_int32;
  to_int := to_int32
|}.

End Binary32.

(** ** Exact real arithmetic, the reading of the specification *)

Module Exact.
Definition Rltb (a b : R) : bool := if Rlt_dec a b then true else false.
Definition Rleb (a b : R) : bool := if Rle_dec a b then true else false.

Definition floorR (x : R) : R := IZR (Int_part x).
Definition ceilR (x : R) : R := IZR (- Int_part (- x)).

Definition to_intR (x : R) : option Z :=
  let z := if Rle_dec 0 x then Int_part x else (- Int_part (- x))%Z in
  if (- 2 ^ 31 <=? z) && (z <? 2 ^ 31) then Some z else None.

Definition ops : FloatOps R := {|
  fadd := Rplus;
  fsub := Rminus;
  fmul := Rmult;
  fdiv := Rdiv;
  fneg := Ropp;
  flt := Rltb;
  fle := Rleb;
  fabsf := Rabs;
  sqrtf := sqrt;
  floorf := floorR;
  ceilf := ceilR;
  fminf := Rmin;
  fmaxf := Rmax;
  flit := λ n d, (IZR n / IZR (Zpos d))%R;
  of_int := IZR;
  to_int := to_intR
|}.
End Exact.

#[global] Existing Instance Binary32.ops.
#[global] Existing Instance Exact.ops.

(** ** Functional views of the program

    What one cell of the sweep emits and what one bridge edge adds, as
    functions of the buffers' contents.  The run lemmas below prove that
    the program computes them. *)

Inductive edge := Top | Right | Bottom | Left.

(** The number of an edge in [EDGE_TABLE]: 0=top, 1=right, 2=bottom, 3=left. *)
Definition edge_code (e : edge) : Z :=
  match e with Top => 0 | Right => 1 | Bottom => 2 | Left => 3 end.

Definition edge_decode (z : Z) : option edge :=
  match z with
  | 0 => Some Top | 1 => Some Right | 2 => Some Bottom | 3 => Some Left
  | _ => None
  end.

Section Views.
Context {F : Type} `{FloatOps F}.
Local Open Scope flt_scope.

Definition set_segments (m : memory F) (s : list F) : memory F :=
  Memory (grid_values m) (mst_edges m) s.

Definition set_grid (m : memory F) (g : list F) : memory F :=
  Memory g (mst_edges m) (segments_out m).

(** A buffer after the four stores of segment number [n]. *)
Definition put_segment (buf : list F) (n : Z) (s : (F * F) * (F * F)) : list F :=
  <[Z.to_nat (n * 4 + 3) := s.2.2]>
    (<[Z.to_nat (n * 4 + 2) := s.2.1]>
      (<[Z.to_nat (n * 4 + 1) := s.1.2]>
        (<[Z.to_nat (n * 4 + 0) := s.1.1]> buf))).

Fixpoint put_segments (buf : list F) (n : Z) (segs : list ((F * F) * (F * F)))
    : list F :=
  match segs with
  | [] => buf
  | s :: rest => put_segments (put_segment buf n s) (n + 1) rest
  end.

(** The four corner values of cell [(r, c)], in the order tl, tr, br, bl. *)
Record corners := Corners { c_tl : F; c_tr : F; c_br : F; c_bl : F }.

Definition has_corners (g : list F) (cols r c : Z) (k : corners) : Prop :=
  read g (r * cols + c) = Some (c_tl k) ∧
  read g (r * cols + c + 1) = Some (c_tr k) ∧
  read g ((r + 1) * cols + c + 1) = Some (c_br k) ∧
  read g ((r + 1) * cols + c) = Some (c_bl k).

Definition corners_of (g : list F) (cols r c : Z) : corners :=
  let at_ (i : Z) := default (flit 0 1) (read g i) in
  Corners (at_ (r * cols + c)%Z) (at_ (r * cols + c + 1)%Z)
          (at_ ((r + 1) * cols + c + 1)%Z) (at_ ((r + 1) * cols + c)%Z).

Definition cell_case (threshold : F) (k : corners) : Z :=
  case_index (inside (c_tl k) threshold) (inside (c_tr k) threshold)
             (inside (c_br k) threshold) (inside (c_bl k) threshold).

(** The value compared with the threshold at a saddle. *)
Definition cell_center (k : corners) : F :=
  (c_tl k + c_tr k + c_br k + c_bl k) / flit 4 1.

(** The two corner values an edge runs between, in the order of [lerp1d]. *)
Definition edge_ends (k : corners) (e : edge) : F * F :=
  match e with
  | Top => (c_tl k, c_tr k)
  | Right => (c_tr k, c_br k)
  | Bottom => (c_bl k, c_br k)
  | Left => (c_tl k, c_bl k)
  end.

Definition edge_t (threshold : F) (k : corners) (e : edge) : F :=
  lerp1d (edge_ends k e).1 (edge_ends k e).2 threshold.

(** The point [get_edge_point] returns on edge [e] of cell [(r, c)]. *)
Definition edge_xy (origin_x origin_y cell_size threshold : F)
    (r c : Z) (k : corners) (e : edge) : F * F :=
  let x0 := origin_x + of_int c * cell_size in
  let y0 := origin_y + of_int r * cell_size in
  let t := edge_t threshold k e in
  match e with
  | Top => (x0 + t * cell_size, y0)
  | Right => (x0 + cell_size, y0 + t * cell_size)
  | Bottom => (x0 + t * cell_size, y0 + cell_size)
  | Left => (x0, y0 + t * cell_size)
  end.

(** The pairs after the saddle disambiguation, given the case index and
    the outcome of [center >= threshold]. *)
Definition resolved_pairs (caseIndex : Z) (center_inside : bool)
    : (Z * Z) * (Z * Z) :=
  if (caseIndex =? 5)%Z || (caseIndex =? 10)%Z then
    if (caseIndex =? 5)%Z then
      if center_inside then ((3, 2), (1, 0))%Z else ((3, 0), (1, 2))%Z
    else
      if center_inside then ((0, 3), (2, 1))%Z else ((0, 1), (2, 3))%Z
  else table_get EDGE_TABLE caseIndex ((-1, -1), (-1, -1))%Z.

Definition decode_pair (p : Z * Z) : option (edge * edge) :=
  e1 ← edge_decode p.1; e2 ← edge_decode p.2; Some (e1, e2).

(** The edge pairs the loop over [p < numPairs] goes through. *)
Definition cell_edges (caseIndex : Z) (center_inside : bool)
    : list (edge * edge) :=
  let pairs := resolved_pairs caseIndex center_inside in
  omap decode_pair
    (take (Z.to_nat (table_get NUM_PAIRS caseIndex 0%Z)) [pairs.1; pairs.2]).

(** The segments cell [(r, c)] emits, in the order of the stores. *)
Definition cell_segments (origin_x origin_y cell_size threshold : F)
    (r c : Z) (k : corners) : list ((F * F) * (F * F)) :=
  map (λ p, (edge_xy origin_x origin_y cell_size threshold r c k p.1,
             edge_xy origin_x origin_y cell_size threshold r c k p.2))
      (cell_edges (cell_case threshold k) (cell_center k >=? threshold)).

(** The segments of the whole sweep, row by row. *)
Definition row_segments (g : list F) (cols : Z)
    (origin_x origin_y cell_size threshold : F) (r : Z)
    : list ((F * F) * (F * F)) :=
  c ← seqZ 0 (cols - 1);
  cell_segments origin_x origin_y cell_size threshold r c (corners_of g cols r c).

Definition sweep_segments (g : list F) (cols rows : Z)
    (origin_x origin_y cell_size threshold : F)
    : list ((F * F) * (F * F)) :=
  r ← seqZ 0 (rows - 1);
  row_segments g cols origin_x origin_y cell_size threshold r.
End Views.

Arguments corners : clear implicits.

Section BridgeViews.
Context {F : Type} `{FloatOps F}.
Variable expf : F → F.
Local Open Scope flt_scope.

(** One bridge edge of the flat buffer [ax, ay, bx, by, ...]. *)
Record bridge := Bridge { b_ax : F; b_ay : F; b_bx : F; b_by : F }.

Definition bridge_at (edges : list F) (i : Z) : option bridge :=
  ax ← read edges (i * 4 + 0);
  ay ← read edges (i * 4 + 1);
  bx ← read edges (i * 4 + 2);
  by_ ← read edges (i * 4 + 3);
  Some (Bridge ax ay bx by_).

Definition bridge_length (e : bridge) : F :=
  let edx := b_bx e - b_ax e in
  let edy := b_by e - b_ay e in
  sqrtf (edx * edx + edy * edy).

Definition bridge_sigma (baseSigma : F) (e : bridge) : F :=
  fmaxf baseSigma (bridge_length e * flit 12 100).

Definition bridge_cutoff (baseSigma : F) (e : bridge) : F :=
  flit 3 1 * bridge_sigma baseSigma e.

Definition bridge_cutoff_sq (baseSigma : F) (e : bridge) : F :=
  bridge_cutoff baseSigma e * bridge_cutoff baseSigma e.

Definition bridge_inv (baseSigma : F) (e : bridge) : F :=
  flit 1 1 / (flit 2 1 * bridge_sigma baseSigma e * bridge_sigma baseSigma e).

(** The row and column range of an edge after clamping:
    [(rMin, rMax, cMin, cMax)]. *)
Definition bridge_box (cols rows : Z) (origin_x origin_y cell_size : F)
    (baseSigma : F) (e : bridge) : option (Z * Z * Z * Z) :=
  let cutoff := bridge_cutoff baseSigma e in
  let segMinX := fminf (b_ax e) (b_bx e) - cutoff in
  let segMaxX := fmaxf (b_ax e) (b_bx e) + cutoff in
  let segMinY := fminf (b_ay e) (b_by e) - cutoff in
  let segMaxY := fmaxf (b_ay e) (b_by e) + cutoff in
  rMin ← to_int (floorf ((segMinY - origin_y) / cell_size));
  rMax ← to_int (ceilf ((segMaxY - origin_y) / cell_size));
  cMin ← to_int (floorf ((segMinX - origin_x) / cell_size));
  cMax ← to_int (ceilf ((segMaxX - origin_x) / cell_size));
  Some (if (rMin <? 0)%Z then 0%Z else rMin,
        if (rMax >? rows - 1)%Z then (rows - 1)%Z else rMax,
        if (cMin <? 0)%Z then 0%Z else cMin,
        if (cMax >? cols - 1)%Z then (cols - 1)%Z else cMax).

Definition in_box (box : Z * Z * Z * Z) (r c : Z) : bool :=
  let '(rMin, rMax, cMin, cMax) := box in
  ((rMin <=? r) && (r <=? rMax) && (cMin <=? c) && (c <=? cMax))%Z.

(** The squared distance the code computes from the sample point of cell
    [(r, c)] to the edge. *)
Definition cell_dist_sq (origin_x origin_y cell_size : F) (e : bridge)
    (r c : Z) : F :=
  dist_to_segment_sq
    (origin_x + of_int c * cell_size) (origin_y + of_int r * cell_size)
    (b_ax e) (b_ay e) (b_bx e) (b_by e).

(** The cutoff test [dSq < cutoffSq]. *)
Definition cell_hit (origin_x origin_y cell_size baseSigma : F) (e : bridge)
    (r c : Z) : bool :=
  cell_dist_sq origin_x origin_y cell_size e r c
    <? bridge_cutoff_sq baseSigma e.

(** The value [val] added to a cell that passes the test. *)
Definition cell_gain (origin_x origin_y cell_size baseSigma : F) (e : bridge)
    (r c : Z) : F :=
  expf (- cell_dist_sq origin_x origin_y cell_size e r c
        * bridge_inv baseSigma e).

(** A grid after [gain r c] has been added to every selected cell. *)
Definition grid_update (cols : Z) (sel : Z → Z → bool) (gain : Z → Z → F)
    (g : list F) : list F :=
  imap (λ i v,
    let r := (Z.of_nat i / cols)%Z in
    let c := (Z.of_nat i mod cols)%Z in
    if sel r c then v + gain r c else v) g.

(** The cells one edge adds to: those of its box that pass the test. *)
Definition bridge_touches (cols rows : Z) (origin_x origin_y cell_size : F)
    (baseSigma : F) (e : bridge) (r c : Z) : bool :=
  match bridge_box cols rows origin_x origin_y cell_size baseSigma e with
  | Some box =>
      in_box box r c && cell_hit origin_x origin_y cell_size baseSigma e r c
  | None => false
  end.

(** The contribution of one edge, added to a grid. *)
Definition bridge_update (cols rows : Z) (origin_x origin_y cell_size : F)
    (baseSigma : F) (e : bridge) (g : list F) : list F :=
  grid_update cols
    (bridge_touches cols rows origin_x origin_y cell_size baseSigma e)
    (cell_gain origin_x origin_y cell_size baseSigma e) g.


(** The box of an edge holds every cell of the grid that passes its
    cutoff test. *)
Definition box_covers (cols rows : Z) (origin_x origin_y cell_size : F)
    (baseSigma : F) (e : bridge) : Prop :=
  ∃ box,
    bridge_box cols rows origin_x origin_y cell_size baseSigma e = Some box
    ∧ ∀ r c, (0 ≤ r < rows)%Z → (0 ≤ c < cols)%Z →
        cell_hit origin_x origin_y cell_size baseSigma e r c = true →
        in_box box r c = true.
End BridgeViews.

Arguments bridge : clear implicits.

(** ** Vocabulary of the statements *)

Section Statements.
Context {F : Type} `{FloatOps F}.
Local Open Scope flt_scope.

(** The four floats of a segment, in the order of the stores. *)
Definition segment_floats (s : (F * F) * (F * F)) : list F :=
  [s.1.1; s.1.2; s.2.1; s.2.2].

(** The four floats of an edge in [mst_edges]. *)
Definition bridge_floats (e : bridge F) : list F :=
  [b_ax e; b_ay e; b_bx e; b_by e].

(** The buffer [edges] holds the edges [es] from its start. *)
Definition bridges_at (edges : list F) (es : list (bridge F)) : Prop :=
  ∀ (i : nat) e, es !! i = Some e → bridge_at edges (Z.of_nat i) = Some e.

(** An edge crosses the contour when exactly one of its two corners is
    classified inside. *)
Definition crossing (threshold : F) (k : corners F) (e : edge) : Prop :=
  inside (edge_ends k e).1 threshold ≠ inside (edge_ends k e).2 threshold.

(** Every successful run of [x] relates the memories before and after by [R]. *)
Definition preserves {A} (R : memory F → memory F → Prop) (x : M F A) : Prop :=
  ∀ m a m', x m = Some (a, m') → R m m'.

(** A run that stores only into [segments_out]. *)
Definition keeps_grid (m m' : memory F) : Prop :=
  grid_values m' = grid_values m ∧ mst_edges m' = mst_edges m.

(** A run that stores only into [grid_values]. *)
Definition keeps_edges_segments (m m' : memory F) : Prop :=
  mst_edges m' = mst_edges m ∧ segments_out m' = segments_out m.

(** The 3x3 grid of zeros with 1.0 at its centre. *)
Definition single_peak : list F :=
  [flit 0 1; flit 0 1; flit 0 1;
   flit 0 1; flit 1 1; flit 0 1;
   flit 0 1; flit 0 1; flit 0 1].

(** What that scenario needs of the arithmetic: 0 < 0.5 <= 1, and the
    crossing between 0 and 1 at threshold 0.5 has parameter 0.5. *)
Definition half_way : Prop :=
  (flit 0 1 >=? flit 1 2) = false ∧
  (flit 1 1 >=? flit 1 2) = true ∧
  lerp1d (flit 0 1) (flit 1 1) (flit 1 2) = flit 1 2 ∧
  lerp1d (flit 1 1) (flit 0 1) (flit 1 2) = flit 1 2.

(** The four segments around the centre grid point, in the order of the
    sweep; [X c] and [Y r] are the grid lines, [h] is half a cell. *)
Definition diamond (origin_x origin_y cell_size : F)
    : list ((F * F) * (F * F)) :=
  let X (c : Z) := origin_x + of_int c * cell_size in
  let Y (r : Z) := origin_y + of_int r * cell_size in
  let h := flit 1 2 * cell_size in
  [ ((X 0 + h, Y 0 + cell_size), (X 0 + cell_size, Y 0 + h));
    ((X 1, Y 0 + h), (X 1 + h, Y 0 + cell_size));
    ((X 0 + cell_size, Y 1 + h), (X 0 + h, Y 1));
    ((X 1 + h, Y 1), (X 1, Y 1 + h)) ].

(** A point of the square of cell [(r, c)] as [get_edge_point] computes
    it, on one of its sides: the grid lines are [x0], [x1 = x0 +
    cell_size], [y0] and [y1 = y0 + cell_size], and the comparisons are
    those of the arithmetic. *)
Definition on_computed_boundary (origin_x origin_y cell_size : F) (r c : Z)
    (p : F * F) : Prop :=
  let x0 := origin_x + of_int c * cell_size in
  let y0 := origin_y + of_int r * cell_size in
  let x1 := x0 + cell_size in
  let y1 := y0 + cell_size in
  (x0 <=? p.1) = true ∧ (p.1 <=? x1) = true
  ∧ (y0 <=? p.2) = true ∧ (p.2 <=? y1) = true
  ∧ (p.1 = x0 ∨ p.1 = x1 ∨ p.2 = y0 ∨ p.2 = y1).
End Statements.

Section ExactStatements.
Local Open Scope R_scope.

(** A point of the closed square of cell [(r, c)], on one of its sides. *)
Definition on_cell_boundary (origin_x origin_y cell_size : R) (r c : Z)
    (p : R * R) : Prop :=
  let x0 := origin_x + IZR c * cell_size in
  let x1 := origin_x + (IZR c + 1) * cell_size in
  let y0 := origin_y + IZR r * cell_size in
  let y1 := origin_y + (IZR r + 1) * cell_size in
  x0 <= p.1 <= x1 ∧ y0 <= p.2 <= y1 ∧
  (p.1 = x0 ∨ p.1 = x1 ∨ p.2 = y0 ∨ p.2 = y1).

(** A flat 2x2 grid, and a point-like bridge at the origin. *)
Definition flat_memory : memory R :=
  Memory [0; 0; 0; 0] [] (replicate 8 0).
Definition point_bridge : bridge R := Bridge 0 0 0 0.

(** The 3x3 grid with the single peak, and room for 8 segments. *)
Definition peak_memory : memory R := Memory single_peak [] (replicate 32 0).
End ExactStatements.

Section Binary32Inputs.
Import Binary32.

Definition zero32 : float32 := of_int32 0.
Definition one32 : float32 := of_int32 1.
Definition half32 : float32 := lit32 1 2.

(** A 2x2 grid whose only cell is a saddle: top-right and bottom-left
    inside, case index 5 at threshold 0.5. *)
Definition saddle_memory : memory float32 :=
  Memory [zero32; one32; one32; zero32] [] (replicate 8 zero32).

(** Two point-like bridges far apart on a grid of one row and 40 columns. *)
Definition left_bridge : bridge float32 :=
  Bridge (of_int32 5) zero32 (of_int32 5) zero32.
Definition right_bridge : bridge float32 :=
  Bridge (of_int32 30) zero32 (of_int32 30) zero32.

(** A grid whose origin is so far from zero that neighbouring sample
    points round to the same binary32 number: origin_x = 2^26, where
    consecutive floats are 8 apart, and cell_size = 0.5.  The one edge
    runs from (2^26, 0) to (2^26, 0.5). *)
Definition far_origin : float32 := of_int32 (2 ^ 26).
Definition far_bridge : bridge float32 :=
  Bridge far_origin (of_int32 0) far_origin (lit32 1 2).
Definition far_memory : memory float32 :=
  Memory (replicate 4 (of_int32 0)) (bridge_floats far_bridge) [].

(** An edge along the top side of the one cell of a 2x2 grid. *)
Definition unit_bridge : bridge float32 := Bridge zero32 zero32 one32 zero32.
Definition unit_memory : memory float32 :=
  Memory (replicate 4 zero32) (bridge_floats unit_bridge) [].

(** A degenerate edge on a fine grid: cell_size = 2^-21 and the edge runs
    from (0, 0) to (2^-21, 0), the sample point of cell (0, 1); its
    squared length 2^-42 is below 1e-12. *)
Definition tiny_cell : float32 := lit32 1 2097152.
Definition short_bridge : bridge float32 :=
  Bridge (of_int32 0) (of_int32 0) tiny_cell (of_int32 0).
Definition short_memory : memory float32 :=
  Memory (replicate 4 (of_int32 0)) (bridge_floats short_bridge) [].

(** A grid of 2 rows and 8 columns, zero but for the last value of the
    first row: the one cell the contour crosses is (0, 6), case 4. *)
Definition ridge_memory : memory float32 :=
  Memory (replicate 7 zero32 ++ [one32] ++ replicate 8 zero32) []
    (replicate 8 zero32).
End Binary32Inputs.

(** ** Rounding in binary32

    The vocabulary of the proofs about the rounding of [SpecFloat] at
    precision 24 and maximal exponent 128: smallest exponent -149,
    largest exponent 104 of a 24-bit mantissa. *)

Section RoundingVocabulary.

(** [n] steps of [shr_1], the shift to the right that keeps a round bit
    and a sticky bit. *)
Definition shr_n (n : nat) (mrs : shr_record) : shr_record :=
  Nat.iter n shr_1 mrs.

(** A shifted mantissa with its two bits, as one number: the order of
    the codes is the order of the values the records stand for. *)
Definition code (mrs : shr_record) : Z :=
  4 * shr_m mrs + 2 * Z.b2z (shr_r mrs) + Z.b2z (shr_s mrs).

(** Rounding to nearest, ties to even, of a shifted record. *)
Definition rne (mrs : shr_record) : Z :=
  round_nearest_even (shr_m mrs) (loc_of_shr_record mrs).

Definition fexp32 (e : Z) : Z := Z.max (e - 24) (-149).

(** The float of sign [s], mantissa [m] and exponent [e]. *)
Definition pack (s : bool) (m e : Z) : spec_float :=
  match m with
  | Z0 => S754_zero s
  | Zpos p => if e <=? 104 then S754_finite s p e else S754_infinity s
  | Zneg _ => S754_nan
  end.

(** A mantissa that rounding has carried to [2^24] is brought back to 24
    bits. *)
Definition carry (m e : Z) : Z * Z :=
  if m =? 2 ^ 24 then (2 ^ 23, e + 1) else (m, e).

(** The pair [(m, e)] has enough digits: rounding it shifts to the right,
    if at all. *)
Definition roundable (m e : Z) : Prop :=
  0 ≤ m ∧ e ≤ fexp32 (Zdigits2 m + e).

Definition shift_of (m e : Z) : Z := fexp32 (Zdigits2 m + e) - e.

(** The mantissa [binary_round_aux] rounds the located pair to. *)
Definition rounded (m e : Z) (l : location) : Z :=
  rne (shr_n (Z.to_nat (shift_of m e)) (shr_record_of_loc m l)).

(** The value of a float in units of [2^-149], the smallest positive
    binary32 number; the infinities get the first power of two out of
    range. *)
Definition fkey (f : spec_float) : Z :=
  match f with
  | S754_zero _ => 0
  | S754_finite s m e => cond_Zopp s (Z.pos m * 2 ^ (e + 149))
  | S754_infinity s => cond_Zopp s (2 ^ 277)
  | S754_nan => 0
  end.

(** A binary32 number or an infinity. *)
Definition number32 (f : spec_float) : Prop :=
  valid_binary 24 128 f = true ∧ f ≠ S754_nan.

(** Rounding to nearest, ties to even, of [X * 2^-149]. *)
Definition round32 (X : Z) : spec_float :=
  binary_round_aux 24 128 (X <? 0) (Z.abs X) (-149) loc_Exact.
End RoundingVocabulary.

Section Binary32Statements.
Import Binary32.

(** Neither a NaN nor an infinity. *)
Definition finite32 (x : float32) : bool :=
  match x with
  | S754_zero _ | S754_finite _ _ _ => true
  | _ => false
  end.

(** A finite binary32 number: its mantissa and exponent are those of
    the format. *)
Definition finite_number32 (x : float32) : Prop :=
  valid_binary prec emax x = true ∧ finite32 x = true.

(** What holds of the endpoint on edge [e] of cell [(r, c)], the edge
    running from the corner value [v0]: when [threshold - v0] does not
    overflow, the parameter lies in [0, 1] and the point on a side of the
    square the code computes; when it overflows, the parameter is a
    NaN. *)
Definition endpoint_bounded32
    (origin_x origin_y cell_size threshold : float32)
    (r c : Z) (k : corners float32) (e : edge) : Prop :=
  if finite32 (fsub threshold (edge_ends k e).1)
  then fle (flit 0 1) (edge_t threshold k e) = true
       ∧ fle (edge_t threshold k e) (flit 1 1) = true
       ∧ on_computed_boundary origin_x origin_y cell_size r c
           (edge_xy origin_x origin_y cell_size threshold r c k e)
  else edge_t threshold k e = S754_nan.
End Binary32Statements.

(** ** Vocabulary of the further properties *)

Section SweepInvariant.
Context {F : Type}.

(** What the sweep keeps true of the count, of the output buffer and of
    the grid: the count is not negative, the buffer has [room] floats,
    four for each segment counted, and the grid is [g]. *)
Definition fits (room : nat) (g : list F) (n : Z) (m : memory F) : Prop :=
  0 ≤ n ∧ 4 * n ≤ Z.of_nat room ∧ length (segments_out m) = room
  ∧ grid_values m = g.
End SweepInvariant.

Section TableVocabulary.

(** Going clockwise round a cell (top, right, bottom, left), the bit of
    the case index that belongs to the corner an edge starts at, and to
    the corner it ends at: top runs from tl (bit 3) to tr (bit 2), right
    from tr to br (bit 1), bottom from br to bl (bit 0), left from bl to
    tl. *)
Definition edge_start (e : edge) : Z :=
  match e with Top => 3 | Right => 2 | Bottom => 1 | Left => 0 end.

Definition edge_end (e : edge) : Z :=
  match e with Top => 2 | Right => 1 | Bottom => 0 | Left => 3 end.
End TableVocabulary.

Section ExactVocabulary.
Local Open Scope R_scope.

(** A segment moved by the vector [(dx, dy)]. *)
Definition shift_segment (dx dy : R) (s : (R * R) * (R * R))
    : (R * R) * (R * R) :=
  ((s.1.1 + dx, s.1.2 + dy), (s.2.1 + dx, s.2.2 + dy)).

(** The corner values of a cell, all raised by [d]. *)
Definition raise_corners (d : R) (k : corners R) : corners R :=
  Corners (c_tl k + d) (c_tr k + d) (c_br k + d) (c_bl k + d).

(** An edge moved by the vector [(dx, dy)], and an edge traversed from
    its second endpoint. *)
Definition shift_bridge (dx dy : R) (e : bridge R) : bridge R :=
  Bridge (b_ax e + dx) (b_ay e + dy) (b_bx e + dx) (b_by e + dy).

Definition reverse_bridge (e : bridge R) : bridge R :=
  Bridge (b_bx e) (b_by e) (b_ax e) (b_ay e).

(** An edge whose squared length is at least 1e-12: [dist_to_segment_sq]
    projects onto it. *)
Definition long_bridge (e : bridge R) : Prop :=
  1 / 1000000000000
  <= (b_bx e - b_ax e) * (b_bx e - b_ax e)
     + (b_by e - b_ay e) * (b_by e - b_ay e).

(** What edge [e] adds to cell [(r, c)]: its Gaussian value when the
    sample point of the cell passes the cutoff test, nothing otherwise. *)
Definition contribution (expf : R → R)
    (origin_x origin_y cell_size baseSigma : R) (e : bridge R) (r c : Z)
    : R :=
  if cell_hit origin_x origin_y cell_size baseSigma e r c
  then cell_gain expf origin_x origin_y cell_size baseSigma e r c
  else 0.

Definition total_contribution (expf : R → R)
    (origin_x origin_y cell_size baseSigma : R) (es : list (bridge R))
    (r c : Z) : R :=
  foldr Rplus 0
    ((λ e, contribution expf origin_x origin_y cell_size baseSigma e r c)
     <$> es).

(** A flat grid of 2 rows and 3 columns, and an edge of length 1 along
    its top side. *)
Definition flat_strip : memory R := Memory (replicate 6 0) [] (replicate 16 0).
Definition unit_edge : bridge R := Bridge 0 0 1 0.
End ExactVocabulary.

Section Binary32Vocabulary.
Import Binary32.

(** A grid of 2 rows and 9 columns of zeros, with cells of size 0.1f. *)
Definition tenth32 : float32 := lit32 1 10.
Definition strip_memory : memory float32 :=
  Memory (replicate 18 zero32) [] [].
End Binary32Vocabulary.

(** * Proofs *)

(** ** Running the monad *)

Section RunLemmas.
Context {F : Type} `{FloatOps F}.
Implicit Types (m : memory F) (g segs : list F).

Lemma run_bind {A B} (x : M F A) (k : A → M F B) m a m' :
  x m = Some (a, m') → (x ≫= k) m = k a m'.
Proof. intros Hx. unfold mbind, M_bind, bind. now rewrite Hx. Qed.

Lemma run_bind_inv {A B} (x : M F A) (k : A → M F B) m b m'' :
  (x ≫= k) m = Some (b, m'') →
  ∃ a m', x m = Some (a, m') ∧ k a m' = Some (b, m'').
Proof.
  unfold mbind, M_bind, bind. destruct (x m) as [[a m']|]; [|discriminate].
  intros Hk. now exists a, m'.
Qed.

Lemma run_ret {A} (a : A) m : (mret a : M F A) m = Some (a, m).
Proof. reflexivity. Qed.

Lemma run_load_grid m i v :
  read (grid_values m) i = Some v → load_grid i m = Some (v, m).
Proof. intros Hr. unfold load_grid, lift. now rewrite Hr. Qed.

Lemma run_load_edge m i v :
  read (mst_edges m) i = Some v → load_edge i m = Some (v, m).
Proof. intros Hr. unfold load_edge, lift. now rewrite Hr. Qed.

Lemma write_in_range segs i v :
  0 ≤ i < Z.of_nat (length segs) →
  write segs i v = Some (<[Z.to_nat i := v]> segs).
Proof.
  intros Hi. unfold write.
  replace (0 <=? i) with true by (symmetry; apply Z.leb_le; lia).
  replace (i <? Z.of_nat (length segs)) with true
    by (symmetry; apply Z.ltb_lt; lia).
  reflexivity.
Qed.

Lemma run_store_seg m i v :
  0 ≤ i < Z.of_nat (length (segments_out m)) →
  store_seg i v m = Some (tt, set_segments m (<[Z.to_nat i := v]> (segments_out m))).
Proof. intros Hi. unfold store_seg. now rewrite write_in_range. Qed.

Lemma run_store_grid m i v :
  0 ≤ i < Z.of_nat (length (grid_values m)) →
  store_grid i v m = Some (tt, set_grid m (<[Z.to_nat i := v]> (grid_values m))).
Proof. intros Hi. unfold store_grid. now rewrite write_in_range. Qed.

Lemma for_range_nil {A} lo hi (body : Z → A → M F A) acc :
  hi ≤ lo → for_range lo hi body acc = mret acc.
Proof.
  intros Hle. unfold for_range.
  replace (Z.to_nat (hi - lo)) with O by lia. reflexivity.
Qed.

Lemma for_range_step {A} lo hi (body : Z → A → M F A) acc :
  lo < hi →
  for_range lo hi body acc = body lo acc ≫= for_range (lo + 1) hi body.
Proof.
  intros Hlt. unfold for_range.
  replace (Z.to_nat (hi - lo)) with (S (Z.to_nat (hi - (lo + 1)))) by lia.
  reflexivity.
Qed.

(** A loop run in two parts. *)
Lemma for_range_split {A} lo mid hi (body : Z → A → M F A) acc m :
  lo ≤ mid ≤ hi →
  for_range lo hi body acc m =
  (for_range lo mid body acc ≫= for_range mid hi body) m.
Proof.
  intros [Hlo Hhi].
  remember (Z.to_nat (mid - lo)) as n eqn:Hn.
  revert lo acc m Hlo Hn. induction n as [|n IH]; intros lo acc m Hlo Hn.
  - assert (mid = lo) as -> by lia.
    rewrite (for_range_nil lo lo) by lia. reflexivity.
  - rewrite (for_range_step lo hi) by lia.
    rewrite (for_range_step lo mid) by lia.
    unfold mbind, M_bind, bind.
    destruct (body lo acc m) as [[a m']|]; [|reflexivity].
    apply IH; lia.
Qed.
End RunLemmas.

(** ** One cell of the sweep *)

Section EdgePoints.
Context {F : Type} `{FloatOps F}.
Implicit Types (m : memory F) (g segs : list F) (k : corners F).
Variables (cols : Z) (origin_x origin_y cell_size threshold : F).

Lemma get_edge_point_run m r c k e :
  has_corners (grid_values m) cols r c k →
  get_edge_point cols origin_x origin_y cell_size r c (edge_code e) threshold m
  = Some (edge_xy origin_x origin_y cell_size threshold r c k e, m).
Proof.
  intros (Htl & Htr & Hbr & Hbl). unfold get_edge_point.
  rewrite (run_bind _ _ _ _ _ (run_load_grid _ _ _ Htl)).
  rewrite (run_bind _ _ _ _ _ (run_load_grid _ _ _ Htr)).
  rewrite (run_bind _ _ _ _ _ (run_load_grid _ _ _ Hbl)).
  rewrite (run_bind _ _ _ _ _ (run_load_grid _ _ _ Hbr)).
  destruct e; reflexivity.
Qed.

Lemma get_edge_point_unset m r c z :
  edge_decode z = None →
  get_edge_point cols origin_x origin_y cell_size r c z threshold m = None.
Proof.
  intros Hz. unfold get_edge_point, mbind, M_bind, bind.
  repeat match goal with
  | |- context [load_grid ?i m] => destruct (load_grid i m) as [[? ?]|] eqn:?; [|reflexivity]
  | Hl : load_grid _ _ = Some (_, ?m') |- _ =>
      unfold load_grid, lift in Hl; destruct (read _ _); [|discriminate];
      injection Hl as <- <-
  end.
  destruct z as [|[[|[]|]|[]|]|]; try discriminate; reflexivity.
Qed.

Lemma saddle_pairs_run m r c k caseIndex :
  has_corners (grid_values m) cols r c k →
  saddle_pairs cols r c caseIndex threshold
    (table_get EDGE_TABLE caseIndex ((-1, -1), (-1, -1))) m
  = Some (resolved_pairs caseIndex (fle threshold (cell_center k)), m).
Proof.
  intros (Htl & Htr & Hbr & Hbl). unfold saddle_pairs, resolved_pairs.
  destruct ((caseIndex =? 5) || (caseIndex =? 10)); [|reflexivity].
  rewrite (run_bind _ _ _ _ _ (run_load_grid _ _ _ Htl)).
  rewrite (run_bind _ _ _ _ _ (run_load_grid _ _ _ Htr)).
  rewrite (run_bind _ _ _ _ _ (run_load_grid _ _ _ Hbr)).
  rewrite (run_bind _ _ _ _ _ (run_load_grid _ _ _ Hbl)).
  fold (cell_center k). unfold cell_center.
  destruct (caseIndex =? 5), (fle threshold _); reflexivity.
Qed.

Lemma put_segment_length segs n s :
  length (put_segment segs n s) = length segs.
Proof. unfold put_segment. now rewrite !length_insert. Qed.

Lemma put_segments_length segs n ss :
  length (put_segments segs n ss) = length segs.
Proof.
  revert segs n. induction ss as [|s ss IH]; intros segs n; simpl; [done|].
  now rewrite IH, put_segment_length.
Qed.

Lemma put_segments_app segs n ss1 ss2 :
  put_segments segs n (ss1 ++ ss2)
  = put_segments (put_segments segs n ss1) (n + Z.of_nat (length ss1)) ss2.
Proof.
  revert segs n. induction ss1 as [|s ss1 IH]; intros segs n; simpl.
  - now rewrite Z.add_0_r.
  - rewrite IH. f_equal. lia.
Qed.

(** One turn of the loop over the pairs. *)
Lemma emit_pair_run m r c k pairs p e1 e2 n :
  has_corners (grid_values m) cols r c k →
  (edge_code e1, edge_code e2) = pair_at pairs p →
  0 ≤ n → n * 4 + 4 ≤ Z.of_nat (length (segments_out m)) →
  emit_pair cols origin_x origin_y cell_size threshold r c pairs p n m
  = Some (n + 1,
          set_segments m
            (put_segment (segments_out m) n
               (edge_xy origin_x origin_y cell_size threshold r c k e1,
                edge_xy origin_x origin_y cell_size threshold r c k e2))).
Proof.
  intros Hk Hp Hn Hlen. unfold emit_pair. rewrite <- Hp. simpl fst. simpl snd.
  rewrite (run_bind _ _ _ _ _ (get_edge_point_run m r c k e1 Hk)).
  destruct (edge_xy _ _ _ _ r c k e1) as [x0 y0] eqn:E1.
  rewrite (run_bind _ _ _ _ _ (get_edge_point_run m r c k e2 Hk)).
  destruct (edge_xy _ _ _ _ r c k e2) as [x1 y1] eqn:E2.
  do 4 (erewrite run_bind;
        [|apply run_store_seg; simpl; rewrite ?length_insert; lia]).
  reflexivity.
Qed.
End EdgePoints.

(** Case analysis on a case index known to lie in [0, 15]. *)
Ltac case_split z :=
  let Hz := fresh "Hz" in
  assert (z = 0 ∨ z = 1 ∨ z = 2 ∨ z = 3 ∨ z = 4 ∨ z = 5 ∨ z = 6 ∨ z = 7 ∨
          z = 8 ∨ z = 9 ∨ z = 10 ∨ z = 11 ∨ z = 12 ∨ z = 13 ∨ z = 14 ∨ z = 15)
    as Hz by lia;
  repeat (destruct Hz as [Hz|Hz]; [subst z|]); [..|subst z].

Section MarchCell.
Context {F : Type} `{FloatOps F}.
Implicit Types (m : memory F) (g segs : list F) (k : corners F).
Variables (cols : Z) (origin_x origin_y cell_size threshold : F).

Lemma inside_cases v : inside v threshold = 0 ∨ inside v threshold = 1.
Proof. unfold inside. destruct (fle threshold v); auto. Qed.

Lemma cell_case_range k : 0 ≤ cell_case threshold k ≤ 15.
Proof.
  unfold cell_case.
  destruct (inside_cases (c_tl k)) as [-> | ->],
           (inside_cases (c_tr k)) as [-> | ->],
           (inside_cases (c_br k)) as [-> | ->],
           (inside_cases (c_bl k)) as [-> | ->]; vm_compute; split; discriminate.
Qed.

(** The pairs the loop reads are those of [cell_edges]: none holds a -1. *)
Lemma cell_edges_codes z b :
  0 ≤ z ≤ 15 →
  map (λ p, (edge_code p.1, edge_code p.2)) (cell_edges z b)
  = take (Z.to_nat (table_get NUM_PAIRS z 0))
      [(resolved_pairs z b).1; (resolved_pairs z b).2].
Proof. intros Hz. case_split z; destruct b; reflexivity. Qed.

Lemma cell_edges_length z b :
  0 ≤ z ≤ 15 →
  Z.of_nat (length (cell_edges z b)) = table_get NUM_PAIRS z 0.
Proof. intros Hz. case_split z; destruct b; reflexivity. Qed.

Lemma num_pairs_range z : 0 ≤ z ≤ 15 → 0 ≤ table_get NUM_PAIRS z 0 ≤ 2.
Proof. intros Hz. case_split z; vm_compute; split; discriminate. Qed.

Lemma emit_pairs_run m r c k pairs np es n :
  has_corners (grid_values m) cols r c k →
  map (λ p, (edge_code p.1, edge_code p.2)) es
    = take (Z.to_nat np) [pairs.1; pairs.2] →
  np = Z.of_nat (length es) →
  0 ≤ n → (n + np) * 4 ≤ Z.of_nat (length (segments_out m)) →
  emit_pairs cols origin_x origin_y cell_size threshold r c pairs np n m
  = Some (n + np,
          set_segments m
            (put_segments (segments_out m) n
               (map (λ p, (edge_xy origin_x origin_y cell_size threshold r c k p.1,
                           edge_xy origin_x origin_y cell_size threshold r c k p.2))
                    es))).
Proof.
  intros Hk Hes -> Hn Hlen. unfold emit_pairs.
  destruct es as [|[e1 e2] [|[e3 e4] [|? ?]]]; simpl in *.
  - rewrite for_range_nil by lia. rewrite Z.add_0_r. now destruct m.
  - injection Hes as Hp. rewrite for_range_step by lia.
    erewrite run_bind; [|eapply emit_pair_run; [exact Hk|exact Hp|lia..]].
    rewrite for_range_nil by lia. reflexivity.
  - injection Hes as Hp Hq. rewrite for_range_step by lia.
    erewrite run_bind; [|eapply emit_pair_run; [exact Hk|exact Hp|lia..]].
    rewrite for_range_step by lia.
    erewrite run_bind.
    2:{ eapply emit_pair_run; [exact Hk|exact Hq|lia|].
        simpl. rewrite put_segment_length. lia. }
    rewrite for_range_nil by lia. simpl.
    replace (n + 1 + 1) with (n + 2) by lia. reflexivity.
  - exfalso. apply (f_equal length) in Hes.
    rewrite length_take in Hes. simpl in Hes. lia.
Qed.

Lemma march_cell_run m r c k n :
  has_corners (grid_values m) cols r c k →
  0 ≤ n → (n + 2) * 4 ≤ Z.of_nat (length (segments_out m)) →
  let S := cell_segments origin_x origin_y cell_size threshold r c k in
  march_cell cols origin_x origin_y cell_size threshold r c n m
  = Some (n + Z.of_nat (length S),
          set_segments m (put_segments (segments_out m) n S)).
Proof.
  intros Hk Hn Hlen S. pose proof Hk as (Htl & Htr & Hbr & Hbl).
  unfold march_cell.
  rewrite (run_bind _ _ _ _ _ (run_load_grid _ _ _ Htl)).
  rewrite (run_bind _ _ _ _ _ (run_load_grid _ _ _ Htr)).
  rewrite (run_bind _ _ _ _ _ (run_load_grid _ _ _ Hbr)).
  rewrite (run_bind _ _ _ _ _ (run_load_grid _ _ _ Hbl)).
  fold (cell_case threshold k).
  pose proof (cell_case_range k) as Hz.
  pose proof (cell_edges_length _ (fle threshold (cell_center k)) Hz) as HL.
  pose proof (num_pairs_range _ Hz) as Hnp.
  subst S. unfold cell_segments. rewrite length_map.
  destruct ((cell_case threshold k =? 0) || (cell_case threshold k =? 15)) eqn:E.
  - assert (table_get NUM_PAIRS (cell_case threshold k) 0 = 0) as H0.
    { apply orb_true_iff in E as [E|E]; apply Z.eqb_eq in E; now rewrite E. }
    rewrite H0 in HL. destruct (cell_edges _ _); [|simpl in HL; lia].
    simpl. rewrite Z.add_0_r. now destruct m.
  - erewrite run_bind; [|apply saddle_pairs_run; eauto].
    rewrite HL.
    eapply emit_pairs_run; eauto using cell_edges_codes; lia.
Qed.
End MarchCell.

(** ** The whole sweep *)

Section Loops.
Context {F : Type}.

(** A loop whose accumulator and memory are known at every turn. *)
Lemma for_range_run {A} lo hi (body : Z → A → M F A)
    (acc_at : Z → A) (mem_at : Z → memory F) :
  lo ≤ hi →
  (∀ i, lo ≤ i < hi →
     body i (acc_at i) (mem_at i) = Some (acc_at (i + 1), mem_at (i + 1))) →
  for_range lo hi body (acc_at lo) (mem_at lo) = Some (acc_at hi, mem_at hi).
Proof.
  intros Hle Hbody.
  remember (Z.to_nat (hi - lo)) as n eqn:Hn.
  revert lo Hle Hbody Hn. induction n as [|n IH]; intros lo Hle Hbody Hn.
  - assert (hi = lo) as -> by lia. now rewrite for_range_nil by lia.
  - rewrite for_range_step by lia.
    erewrite run_bind; [|apply Hbody; lia].
    apply IH; [lia| |lia]. intros i Hi. apply Hbody. lia.
Qed.

Lemma seqZ_snoc (n : Z) : 0 ≤ n → seqZ 0 (n + 1) = seqZ 0 n ++ [n].
Proof.
  intros Hn. rewrite seqZ_app by lia. f_equal.
Qed.

Lemma bind_seqZ_snoc {B} (f : Z → list B) (n : Z) :
  0 ≤ n → seqZ 0 (n + 1) ≫= f = (seqZ 0 n ≫= f) ++ f n.
Proof.
  intros Hn. rewrite seqZ_snoc by lia. rewrite bind_app.
  now rewrite bind_singleton.
Qed.

Lemma bind_seqZ_length_le {B} (f : Z → list B) (n : Z) (b : Z) :
  0 ≤ n → (∀ i, 0 ≤ i < n → Z.of_nat (length (f i)) ≤ b) →
  Z.of_nat (length (seqZ 0 n ≫= f)) ≤ b * n.
Proof.
  intros Hn. pattern n. apply natlike_ind; [| |exact Hn].
  - intros _. simpl. lia.
  - intros x Hx IH Hf. unfold Z.succ. rewrite bind_seqZ_snoc by lia.
    rewrite length_app. specialize (Hf x ltac:(lia)) as Hfx.
    assert (Z.of_nat (length (seqZ 0 x ≫= f)) ≤ b * x).
    { apply IH. intros i Hi. apply Hf. lia. }
    lia.
Qed.
End Loops.

Section Sweep.
Context {F : Type} `{FloatOps F}.
Implicit Types (m : memory F) (g segs : list F) (k : corners F).
Variables (cols rows : Z) (origin_x origin_y cell_size threshold : F).

Lemma cell_segments_length r c k :
  Z.of_nat (length (cell_segments origin_x origin_y cell_size threshold r c k))
  = table_get NUM_PAIRS (cell_case threshold k) 0.
Proof.
  unfold cell_segments. rewrite length_map.
  apply cell_edges_length, cell_case_range.
Qed.

Lemma cell_segments_length_le r c k :
  Z.of_nat (length (cell_segments origin_x origin_y cell_size threshold r c k)) ≤ 2.
Proof.
  rewrite cell_segments_length.
  apply num_pairs_range, cell_case_range.
Qed.

Lemma read_Some g i :
  0 ≤ i < Z.of_nat (length g) → ∃ v, read g i = Some v.
Proof.
  intros Hi. unfold read.
  replace (0 <=? i) with true by (symmetry; apply Z.leb_le; lia).
  apply lookup_lt_is_Some. lia.
Qed.

Lemma has_corners_of g r c :
  Z.of_nat (length g) = rows * cols →
  0 ≤ r < rows - 1 → 0 ≤ c < cols - 1 →
  has_corners g cols r c (corners_of g cols r c).
Proof.
  intros Hlen Hr Hc. unfold has_corners, corners_of. simpl.
  assert (∀ i, 0 ≤ i < rows * cols →
               read g i = Some (default (flit 0 1) (read g i))) as Hread.
  { intros i Hi. destruct (read_Some g i) as [v ->]; [lia|reflexivity]. }
  repeat split; apply Hread; nia.
Qed.

Lemma row_segments_prefix_length g r c :
  0 ≤ c →
  Z.of_nat (length (seqZ 0 c ≫= λ c,
    cell_segments origin_x origin_y cell_size threshold r c (corners_of g cols r c)))
  ≤ 2 * c.
Proof. intros Hc. apply bind_seqZ_length_le; [lia|]. intros. apply cell_segments_length_le. Qed.

Lemma row_segments_length g r :
  1 ≤ cols →
  Z.of_nat (length (row_segments g cols origin_x origin_y cell_size threshold r))
  ≤ 2 * (cols - 1).
Proof. intros Hc. apply row_segments_prefix_length. lia. Qed.

Lemma sweep_prefix_length g r :
  1 ≤ cols → 0 ≤ r →
  Z.of_nat (length (seqZ 0 r ≫=
    row_segments g cols origin_x origin_y cell_size threshold))
  ≤ 2 * (cols - 1) * r.
Proof. intros Hc Hr. apply bind_seqZ_length_le; [lia|]. intros. now apply row_segments_length. Qed.

(** One row of the sweep, started with [S0] already stored. *)
Lemma march_row_run m r S0 :
  Z.of_nat (length (grid_values m)) = rows * cols →
  1 ≤ cols → 0 ≤ r < rows - 1 →
  Z.of_nat (length S0) ≤ 2 * (cols - 1) * r →
  8 * (rows - 1) * (cols - 1) ≤ Z.of_nat (length (segments_out m)) →
  let T := row_segments (grid_values m) cols origin_x origin_y cell_size threshold r in
  for_range 0 (cols - 1)
    (march_cell cols origin_x origin_y cell_size threshold r)
    (Z.of_nat (length S0))
    (set_segments m (put_segments (segments_out m) 0 S0))
  = Some (Z.of_nat (length (S0 ++ T)),
          set_segments m (put_segments (segments_out m) 0 (S0 ++ T))).
Proof.
  intros Hg Hcols Hr HS0 Hroom T.
  set (f := λ c, cell_segments origin_x origin_y cell_size threshold r c
                   (corners_of (grid_values m) cols r c)).
  pose (pre := λ c : Z, S0 ++ (seqZ 0 c ≫= f)).
  replace S0 with (pre 0) at 1 2 by (unfold pre; simpl; apply app_nil_r).
  change (S0 ++ T) with (pre (cols - 1)).
  apply (for_range_run 0 (cols - 1) _
           (λ c, Z.of_nat (length (pre c)))
           (λ c, set_segments m (put_segments (segments_out m) 0 (pre c))));
    [lia|].
  intros c Hc.
  pose proof (row_segments_prefix_length (grid_values m) r c ltac:(lia)) as Hpre.
  fold f in Hpre.
  assert (pre (c + 1) = pre c ++ f c) as ->.
  { unfold pre. rewrite bind_seqZ_snoc by lia. apply app_assoc. }
  assert (Z.of_nat (length (pre c)) ≤ 2 * (cols - 1) * r + 2 * c) as HP.
  { unfold pre. rewrite length_app. lia. }
  generalize dependent (pre c). intros P HP.
  rewrite (march_cell_run cols _ _ _ _ _ r c (corners_of (grid_values m) cols r c)).
  - fold (f c). rewrite put_segments_app, length_app, Nat2Z.inj_add. reflexivity.
  - simpl. apply has_corners_of; [done|lia|lia].
  - lia.
  - simpl. rewrite put_segments_length. nia.
Qed.

Theorem marching_squares_run m :
  Z.of_nat (length (grid_values m)) = rows * cols →
  1 ≤ cols → 1 ≤ rows →
  8 * (rows - 1) * (cols - 1) ≤ Z.of_nat (length (segments_out m)) →
  let S := sweep_segments (grid_values m) cols rows
             origin_x origin_y cell_size threshold in
  marching_squares cols rows origin_x origin_y cell_size threshold m
  = Some (Z.of_nat (length S),
          set_segments m (put_segments (segments_out m) 0 S)).
Proof.
  intros Hg Hcols Hrows Hroom S. unfold marching_squares.
  pose (pre := λ r : Z, seqZ 0 r ≫=
    row_segments (grid_values m) cols origin_x origin_y cell_size threshold).
  change S with (pre (rows - 1)).
  change 0 with (Z.of_nat (length (pre 0))) at 2.
  replace m with (set_segments m (put_segments (segments_out m) 0 (pre 0))) at 1
    by now destruct m.
  apply (for_range_run 0 (rows - 1) _
           (λ r, Z.of_nat (length (pre r)))
           (λ r, set_segments m (put_segments (segments_out m) 0 (pre r))));
    [lia|].
  intros r Hr.
  rewrite march_row_run; try done.
  - unfold pre. now rewrite (bind_seqZ_snoc _ r) by lia.
  - apply sweep_prefix_length; lia.
Qed.
End Sweep.

Section Flat.
Context {F : Type}.
Implicit Types (segs : list F).

Lemma put_segment_flat `{FloatOps F} segs n s :
  0 ≤ n → n * 4 + 4 ≤ Z.of_nat (length segs) →
  put_segment segs n s
  = take (Z.to_nat (n * 4)) segs ++ segment_floats s
    ++ drop (Z.to_nat (n * 4 + 4)) segs.
Proof.
  intros Hn Hlen.
  rewrite <- (take_drop (Z.to_nat (n * 4)) segs) at 1.
  assert (length (take (Z.to_nat (n * 4)) segs) = Z.to_nat (n * 4)) as Htake
    by (rewrite length_take; lia).
  replace (drop (Z.to_nat (n * 4 + 4)) segs)
    with (drop 4 (drop (Z.to_nat (n * 4)) segs))
    by (rewrite drop_drop; f_equal; lia).
  assert (4 ≤ length (drop (Z.to_nat (n * 4)) segs))%nat as Hd
    by (rewrite length_drop; lia).
  generalize dependent (drop (Z.to_nat (n * 4)) segs).
  generalize dependent (take (Z.to_nat (n * 4)) segs).
  intros pre Hpre post Hpost. unfold put_segment.
  destruct post as [|a [|b [|c [|d post]]]]; simpl in Hpost; try lia.
  rewrite !insert_app_r_alt by (rewrite ?length_insert, ?length_app; lia).
  replace (Z.to_nat (n * 4 + 0) - length pre)%nat with 0%nat by lia.
  replace (Z.to_nat (n * 4 + 1) - length pre)%nat with 1%nat by lia.
  replace (Z.to_nat (n * 4 + 2) - length pre)%nat with 2%nat by lia.
  replace (Z.to_nat (n * 4 + 3) - length pre)%nat with 3%nat by lia.
  reflexivity.
Qed.

Lemma put_segments_flat `{FloatOps F} segs n S :
  0 ≤ n → (n + Z.of_nat (length S)) * 4 ≤ Z.of_nat (length segs) →
  put_segments segs n S
  = take (Z.to_nat (n * 4)) segs ++ (S ≫= segment_floats)
    ++ drop (Z.to_nat ((n + Z.of_nat (length S)) * 4)) segs.
Proof.
  revert segs n. induction S as [|s S IH]; intros segs n Hn Hlen; simpl.
  - rewrite Z.add_0_r. now rewrite take_drop.
  - simpl in Hlen. rewrite IH by (rewrite ?put_segment_length; lia).
    rewrite put_segment_flat by lia.
    assert (length (take (Z.to_nat (n * 4)) segs) = Z.to_nat (n * 4)) as Htake
      by (rewrite length_take; lia).
    rewrite take_app_ge by lia. rewrite Htake.
    replace (Z.to_nat ((n + 1) * 4) - Z.to_nat (n * 4))%nat with 4%nat by lia.
    rewrite take_app_le by (simpl; lia). simpl take.
    rewrite drop_app_ge by lia. rewrite Htake.
    rewrite drop_app_ge by (simpl; lia). simpl length.
    rewrite drop_drop. rewrite <- !app_assoc. simpl.
    do 6 f_equal. f_equal. lia.
Qed.
End Flat.

(** ** The guarded accumulation over a box of cells *)

(** Case analysis on the integer comparisons of a goal between booleans. *)
Ltac cmp_cases :=
  repeat match goal with
  | |- context [(?a =? ?b)%Z] => destruct (Z.eqb_spec a b); try lia
  | |- context [(?a <=? ?b)%Z] => destruct (Z.leb_spec a b); try lia
  | |- context [(?a <? ?b)%Z] => destruct (Z.ltb_spec a b); try lia
  end;
  simpl; rewrite ?andb_false_r, ?orb_false_r, ?andb_true_r;
  try reflexivity; try lia.

Section GridUpdate.
Context {F : Type} `{FloatOps F}.
Implicit Types (m : memory F) (g : list F) (sel : Z → Z → bool) (gain : Z → Z → F).
Variable cols : Z.

Lemma grid_update_length sel gain g :
  length (grid_update cols sel gain g) = length g.
Proof. apply length_imap. Qed.

Lemma grid_update_lookup sel gain g i :
  grid_update cols sel gain g !! i
  = (λ v, if sel (Z.of_nat i / cols) (Z.of_nat i mod cols)
          then fadd v (gain (Z.of_nat i / cols) (Z.of_nat i mod cols))
          else v) <$> g !! i.
Proof. unfold grid_update. now rewrite list_lookup_imap. Qed.

Lemma grid_update_ext sel1 sel2 gain g :
  0 < cols →
  (∀ r c, 0 ≤ r → 0 ≤ c < cols → sel1 r c = sel2 r c) →
  grid_update cols sel1 gain g = grid_update cols sel2 gain g.
Proof.
  intros Hc Hsel. apply list_eq. intros i. rewrite !grid_update_lookup.
  rewrite Hsel; [done| |].
  - apply Z.div_pos; lia.
  - apply Z.mod_pos_bound; lia.
Qed.

Lemma grid_update_none sel gain g :
  0 < cols →
  (∀ r c, 0 ≤ r → 0 ≤ c < cols → sel r c = false) →
  grid_update cols sel gain g = g.
Proof.
  intros Hc Hsel. apply list_eq. intros i. rewrite grid_update_lookup.
  rewrite Hsel.
  - now destruct (g !! i).
  - apply Z.div_pos; lia.
  - apply Z.mod_pos_bound; lia.
Qed.

Lemma cell_index_div r c : 0 ≤ c < cols → (r * cols + c) / cols = r.
Proof.
  intros Hc. rewrite Z.add_comm, Z.div_add by lia.
  rewrite Z.div_small by lia. lia.
Qed.

Lemma cell_index_mod r c : 0 ≤ c < cols → (r * cols + c) mod cols = c.
Proof.
  intros Hc. rewrite Z.add_comm, Z.mod_add by lia.
  apply Z.mod_small. lia.
Qed.

Lemma cell_index_inj i r c :
  0 < cols → 0 ≤ c < cols →
  Z.of_nat i / cols = r → Z.of_nat i mod cols = c →
  i = Z.to_nat (r * cols + c).
Proof.
  intros Hcols Hc Hr Hm.
  pose proof (Z.div_mod (Z.of_nat i) cols ltac:(lia)) as Hdm.
  rewrite Hr, Hm in Hdm. lia.
Qed.

(** Adding to one more cell. *)
Lemma grid_update_step sel gain g r c v :
  0 < cols → 0 ≤ r → 0 ≤ c < cols →
  sel r c = false →
  g !! Z.to_nat (r * cols + c) = Some v →
  <[Z.to_nat (r * cols + c) := fadd v (gain r c)]> (grid_update cols sel gain g)
  = grid_update cols (λ r' c', sel r' c' || ((r' =? r) && (c' =? c))) gain g.
Proof.
  intros Hcols Hr Hc Hsel Hv. apply list_eq. intros i.
  rewrite grid_update_lookup.
  destruct (decide (i = Z.to_nat (r * cols + c))) as [->|Hne].
  - rewrite list_lookup_insert_eq
      by (rewrite grid_update_length; eapply lookup_lt_Some; eauto).
    rewrite Hv. simpl. rewrite Z2Nat.id by nia.
    rewrite cell_index_div, cell_index_mod by lia.
    now rewrite Hsel, !Z.eqb_refl.
  - rewrite list_lookup_insert_ne by done. rewrite grid_update_lookup.
    destruct (g !! i) as [w|]; [|done]. simpl. f_equal.
    destruct (Z.eqb_spec (Z.of_nat i / cols) r) as [Er|Er];
      destruct (Z.eqb_spec (Z.of_nat i mod cols) c) as [Ec|Ec];
      rewrite ?orb_false_r; try reflexivity.
    exfalso. apply Hne. now apply cell_index_inj.
Qed.
End GridUpdate.

Section Box.
Context {F : Type} `{FloatOps F}.
Implicit Types (m : memory F) (g : list F) (e : bridge F).
Variable expf : F → F.
Variables (cols rows : Z) (origin_x origin_y cell_size baseSigma : F).

Abbreviation hit := (cell_hit origin_x origin_y cell_size baseSigma).
Abbreviation gain := (cell_gain expf origin_x origin_y cell_size baseSigma).

Lemma set_grid_grid m g : grid_values (set_grid m g) = g.
Proof. reflexivity. Qed.

Lemma set_grid_set_grid m g g' : set_grid (set_grid m g) g' = set_grid m g'.
Proof. reflexivity. Qed.

Lemma set_grid_id m : set_grid m (grid_values m) = m.
Proof. now destruct m. Qed.

Lemma read_lookup g i v :
  0 ≤ i → g !! Z.to_nat i = Some v → read g i = Some v.
Proof.
  intros Hi Hv. unfold read.
  now replace (0 <=? i) with true by (symmetry; apply Z.leb_le; lia).
Qed.

(** The guarded statement at cell [(r, c)], on a grid that already holds
    the contributions of the cells selected by [sel]. *)
Lemma accumulate_cell_run m g e sel r c :
  0 < cols → 0 ≤ r → 0 ≤ c < cols →
  r * cols + c < Z.of_nat (length g) →
  sel r c = false →
  accumulate_cell expf cols origin_x cell_size
    (fadd origin_y (fmul (of_int r) cell_size))
    (b_ax e) (b_ay e) (b_bx e) (b_by e)
    (bridge_cutoff_sq baseSigma e) (bridge_inv baseSigma e) r c
    (set_grid m (grid_update cols sel (gain e) g))
  = Some (tt, set_grid m
      (grid_update cols
         (λ r' c', sel r' c' || ((r' =? r) && (c' =? c) && hit e r' c'))
         (gain e) g)).
Proof.
  intros Hcols Hr Hc Hidx Hsel. unfold accumulate_cell.
  fold (cell_dist_sq origin_x origin_y cell_size e r c).
  fold (hit e r c). fold (gain e r c).
  destruct (lookup_lt_is_Some_2 g (Z.to_nat (r * cols + c)) ltac:(nia)) as [v Hv].
  destruct (hit e r c) eqn:Hhit.
  - erewrite run_bind.
    2:{ apply run_load_grid. apply read_lookup; [nia|].
        rewrite set_grid_grid, grid_update_lookup, Hv. simpl.
        rewrite Z2Nat.id by nia.
        rewrite cell_index_div, cell_index_mod by lia. now rewrite Hsel. }
    rewrite run_store_grid
      by (rewrite set_grid_grid, grid_update_length; nia).
    rewrite set_grid_set_grid, set_grid_grid.
    rewrite grid_update_step by done.
    do 3 f_equal. apply grid_update_ext; [done|]. intros r' c' _ _.
    destruct (Z.eqb_spec r' r) as [->|]; [|now rewrite !andb_false_l].
    destruct (Z.eqb_spec c' c) as [->|]; [|now rewrite !andb_false_r].
    now rewrite Hhit.
  - rewrite run_ret. do 3 f_equal. apply grid_update_ext; [done|].
    intros r' c' _ _.
    destruct (Z.eqb_spec r' r) as [->|]; [|now rewrite !andb_false_l, orb_false_r].
    destruct (Z.eqb_spec c' c) as [->|]; [|now rewrite !andb_false_r,?orb_false_r].
    now rewrite Hhit, andb_false_r, orb_false_r.
Qed.

(** One row of the box. *)
Lemma accumulate_row_run m g e sel r cLo cHi :
  0 < cols → 0 ≤ r → (r + 1) * cols ≤ Z.of_nat (length g) →
  0 ≤ cLo → cHi ≤ cols - 1 →
  (∀ c, sel r c = false) →
  for_range cLo (cHi + 1) (λ c _,
    accumulate_cell expf cols origin_x cell_size
      (fadd origin_y (fmul (of_int r) cell_size))
      (b_ax e) (b_ay e) (b_bx e) (b_by e)
      (bridge_cutoff_sq baseSigma e) (bridge_inv baseSigma e) r c) tt
    (set_grid m (grid_update cols sel (gain e) g))
  = Some (tt, set_grid m
      (grid_update cols
         (λ r' c', sel r' c' ||
            ((r' =? r) && (cLo <=? c') && (c' <=? cHi) && hit e r' c'))
         (gain e) g)).
Proof.
  intros Hcols Hr Hrow HcLo HcHi Hsel.
  destruct (Z_lt_le_dec cHi cLo) as [Hempty|Hne].
  { rewrite for_range_nil by lia. rewrite run_ret. do 3 f_equal.
    apply grid_update_ext; [done|]. intros r' c' _ _. cmp_cases. }
  pose (S_at := λ c r' c',
    sel r' c' || ((r' =? r) && (cLo <=? c') && (c' <? c) && hit e r' c')).
  assert (grid_update cols sel (gain e) g
          = grid_update cols (S_at cLo) (gain e) g) as ->.
  { apply grid_update_ext; [done|]. intros r' c' _ _. unfold S_at. cmp_cases. }
  assert (grid_update cols
            (λ r' c', sel r' c' ||
               ((r' =? r) && (cLo <=? c') && (c' <=? cHi) && hit e r' c'))
            (gain e) g
          = grid_update cols (S_at (cHi + 1)) (gain e) g) as ->.
  { apply grid_update_ext; [done|]. intros r' c' _ _. unfold S_at. cmp_cases. }
  apply (for_range_run cLo (cHi + 1) _ (λ _, tt)
           (λ c, set_grid m (grid_update cols (S_at c) (gain e) g))); [lia|].
  intros c Hc. rewrite accumulate_cell_run; try lia.
  - do 3 f_equal. apply grid_update_ext; [done|]. intros r' c' _ _.
    unfold S_at. rewrite <- orb_assoc. f_equal. cmp_cases.
  - unfold S_at. rewrite Hsel. cmp_cases.
Qed.

(** The two nested loops. *)
Lemma accumulate_box_run m e rLo rHi cLo cHi :
  0 < cols → Z.of_nat (length (grid_values m)) = rows * cols →
  0 ≤ rLo → rHi ≤ rows - 1 → 0 ≤ cLo → cHi ≤ cols - 1 →
  accumulate_box expf cols origin_x origin_y cell_size
    (b_ax e) (b_ay e) (b_bx e) (b_by e)
    (bridge_cutoff_sq baseSigma e) (bridge_inv baseSigma e)
    rLo rHi cLo cHi m
  = Some (tt, set_grid m
      (grid_update cols
         (λ r c, in_box (rLo, rHi, cLo, cHi) r c && hit e r c)
         (gain e) (grid_values m))).
Proof.
  intros Hcols Hlen HrLo HrHi HcLo HcHi. unfold accumulate_box.
  set (g := grid_values m).
  destruct (Z_lt_le_dec rHi rLo) as [Hempty|Hne].
  { rewrite for_range_nil by lia. rewrite run_ret.
    rewrite grid_update_none; [now rewrite set_grid_id|done|].
    intros r c _ _. unfold in_box. cmp_cases. }
  pose (S_at := λ r r' c',
    (rLo <=? r') && (r' <? r) && (cLo <=? c') && (c' <=? cHi) && hit e r' c').
  assert (m = set_grid m (grid_update cols (S_at rLo) (gain e) g)) as Hm.
  { rewrite grid_update_none; [now rewrite set_grid_id|done|].
    intros r c _ _. unfold S_at. cmp_cases. }
  rewrite Hm at 1.
  assert (grid_update cols
            (λ r c, in_box (rLo, rHi, cLo, cHi) r c && hit e r c) (gain e) g
          = grid_update cols (S_at (rHi + 1)) (gain e) g) as ->.
  { apply grid_update_ext; [done|]. intros r' c' _ _. unfold S_at, in_box.
    cmp_cases. }
  apply (for_range_run rLo (rHi + 1) _ (λ _, tt)
           (λ r, set_grid m (grid_update cols (S_at r) (gain e) g))); [lia|].
  intros r Hr. rewrite accumulate_row_run; try lia.
  - do 3 f_equal. apply grid_update_ext; [done|]. intros r' c' _ _.
    unfold S_at. cmp_cases.
  - subst g. nia.
  - intros c. unfold S_at. cmp_cases.
Qed.
End Box.

(** ** Frame rules: what a run leaves unchanged *)

Section Frame.
Context {F : Type}.
Implicit Types (m : memory F).

Variable R : memory F → memory F → Prop.
Hypothesis R_refl : ∀ m, R m m.
Hypothesis R_trans : ∀ m1 m2 m3, R m1 m2 → R m2 m3 → R m1 m3.

Lemma preserves_ret {A} (a : A) : preserves R (mret a).
Proof. intros m a' m' [= _ <-]. apply R_refl. Qed.

Lemma preserves_fail {A} : preserves R (@fail F A).
Proof. intros m a m' [=]. Qed.

Lemma preserves_lift {A} (o : option A) : preserves R (lift o).
Proof. intros m a m'. unfold lift. destruct o; intros [= _ <-]. apply R_refl. Qed.

Lemma preserves_load_grid i : preserves R (load_grid i).
Proof. intros m a m'. unfold load_grid. apply preserves_lift. Qed.

Lemma preserves_load_edge i : preserves R (load_edge i).
Proof. intros m a m'. unfold load_edge. apply preserves_lift. Qed.

Lemma preserves_bind {A B} (x : M F A) (k : A → M F B) :
  preserves R x → (∀ a, preserves R (k a)) → preserves R (x ≫= k).
Proof.
  intros Hx Hk m b m'' Hrun.
  apply run_bind_inv in Hrun as (a & m' & Hxm & Hkm).
  eapply R_trans; [eapply Hx|eapply Hk]; eauto.
Qed.

Lemma preserves_for_loop {A} n i (body : Z → A → M F A) acc :
  (∀ j a, preserves R (body j a)) → preserves R (for_loop n i body acc).
Proof.
  intros Hbody. revert i acc. induction n as [|n IH]; intros i acc; simpl.
  - apply (preserves_ret acc).
  - apply preserves_bind; [apply Hbody|]. intros a. apply IH.
Qed.

Lemma preserves_for_range {A} lo hi (body : Z → A → M F A) acc :
  (∀ j a, preserves R (body j a)) → preserves R (for_range lo hi body acc).
Proof. intros Hbody. now apply preserves_for_loop. Qed.
End Frame.

Create HintDb frame.
#[global] Hint Resolve preserves_ret preserves_fail preserves_lift
  preserves_load_grid preserves_load_edge : frame.

Section FrameProgram.
Context {F : Type} `{FloatOps F}.
Implicit Types (m : memory F).
Variable expf : F → F.

Lemma keeps_grid_refl m : keeps_grid m m.
Proof. now split. Qed.

Lemma keeps_grid_trans m1 m2 m3 :
  keeps_grid m1 m2 → keeps_grid m2 m3 → keeps_grid m1 m3.
Proof. intros [? ?] [? ?]. split; congruence. Qed.

Lemma keeps_edges_segments_refl m : keeps_edges_segments m m.
Proof. now split. Qed.

Lemma keeps_edges_segments_trans m1 m2 m3 :
  keeps_edges_segments m1 m2 → keeps_edges_segments m2 m3 →
  keeps_edges_segments m1 m3.
Proof. intros [? ?] [? ?]. split; congruence. Qed.

Lemma store_seg_keeps_grid i (v : F) : preserves keeps_grid (store_seg i v).
Proof.
  intros m a m'. unfold store_seg.
  destruct (write _ _ _); intros [= _ <-]. now split.
Qed.

Lemma store_grid_keeps_edges_segments i (v : F) :
  preserves keeps_edges_segments (store_grid i v).
Proof.
  intros m a m'. unfold store_grid.
  destruct (write _ _ _); intros [= _ <-]. now split.
Qed.

Local Hint Resolve keeps_grid_refl keeps_grid_trans
  keeps_edges_segments_refl keeps_edges_segments_trans
  store_seg_keeps_grid store_grid_keeps_edges_segments : frame.

Lemma get_edge_point_keeps_grid cols ox oy cs r c e th :
  preserves keeps_grid (get_edge_point cols ox oy cs r c e th).
Proof.
  unfold get_edge_point.
  pose proof keeps_grid_refl. pose proof keeps_grid_trans.
  do 4 (apply preserves_bind; [done|auto with frame|intros ?]).
  destruct e as [|[[|[]|]|[]|]|]; auto with frame.
Qed.

Lemma marching_squares_keeps_grid cols rows ox oy cs th :
  preserves keeps_grid (marching_squares cols rows ox oy cs th).
Proof.
  pose proof keeps_grid_refl as Hr. pose proof keeps_grid_trans as Ht.
  unfold marching_squares.
  apply preserves_for_range; [done|done|]. intros r n.
  apply preserves_for_range; [done|done|]. intros c n'.
  unfold march_cell.
  do 4 (apply preserves_bind; [done|auto with frame|intros ?]).
  destruct (_ || _); [auto with frame|].
  apply preserves_bind; [done| |intros pairs].
  - unfold saddle_pairs. destruct (_ || _); [|auto with frame].
    do 4 (apply preserves_bind; [done|auto with frame|intros ?]).
    destruct (_ =? _), (fle _ _); auto with frame.
  - unfold emit_pairs. apply preserves_for_range; [done|done|]. intros p k.
    unfold emit_pair.
    apply preserves_bind; [done|apply get_edge_point_keeps_grid|intros [x0 y0]].
    apply preserves_bind; [done|apply get_edge_point_keeps_grid|intros [x1 y1]].
    do 4 (apply preserves_bind; [done|apply store_seg_keeps_grid|intros ?]).
    auto with frame.
Qed.

Lemma accumulate_box_keeps cols ox oy cs ax ay bx by_ cut inv rLo rHi cLo cHi :
  preserves keeps_edges_segments
    (accumulate_box expf cols ox oy cs ax ay bx by_ cut inv rLo rHi cLo cHi).
Proof.
  pose proof keeps_edges_segments_refl as Hr.
  pose proof keeps_edges_segments_trans as Ht.
  unfold accumulate_box.
  apply preserves_for_range; [done|done|]. intros r [].
  apply preserves_for_range; [done|done|]. intros c [].
  unfold accumulate_cell. destruct (flt _ _); [|auto with frame].
  apply preserves_bind; [done|auto with frame|intros g].
  apply store_grid_keeps_edges_segments.
Qed.

Lemma add_bridge_field_keeps cols rows ox oy cs n base_sigma :
  preserves keeps_edges_segments
    (add_bridge_field expf cols rows ox oy cs n base_sigma).
Proof.
  pose proof keeps_edges_segments_refl as Hr.
  pose proof keeps_edges_segments_trans as Ht.
  unfold add_bridge_field.
  apply preserves_for_range; [done|done|]. intros i [].
  unfold bridge_edge.
  do 4 (apply preserves_bind; [done|auto with frame|intros ?]).
  do 4 (apply preserves_bind; [done|auto with frame|intros ?]).
  apply accumulate_box_keeps.
Qed.
End FrameProgram.

(** ** One edge and the loop over the edges *)

(** Case analysis on the head of a chain of casts known to succeed. *)
Tactic Notation "destruct_casts" ident(r) :=
  match goal with
  | |- (?o ≫= _) = Some _ → _ => destruct o as [r|]; simpl; [|discriminate]
  end.

Section Bridge.
Context {F : Type} `{FloatOps F}.
Implicit Types (m : memory F) (g : list F) (e : bridge F).
Variable expf : F → F.
Variables (cols rows : Z) (origin_x origin_y cell_size baseSigma : F).

Lemma bridge_at_reads edges i e :
  bridge_at edges i = Some e →
  read edges (i * 4 + 0) = Some (b_ax e) ∧
  read edges (i * 4 + 1) = Some (b_ay e) ∧
  read edges (i * 4 + 2) = Some (b_bx e) ∧
  read edges (i * 4 + 3) = Some (b_by e).
Proof.
  unfold bridge_at. intros He.
  destruct (read edges (i * 4 + 0)) as [ax|]; [|discriminate].
  destruct (read edges (i * 4 + 1)) as [ay|]; [|discriminate].
  destruct (read edges (i * 4 + 2)) as [bx|]; [|discriminate].
  destruct (read edges (i * 4 + 3)) as [by_|]; [|discriminate].
  simpl in He. simplify_eq. auto.
Qed.

Lemma bridge_box_bounds e rMin rMax cMin cMax :
  bridge_box cols rows origin_x origin_y cell_size baseSigma e
    = Some (rMin, rMax, cMin, cMax) →
  0 ≤ rMin ∧ rMax ≤ rows - 1 ∧ 0 ≤ cMin ∧ cMax ≤ cols - 1.
Proof.
  unfold bridge_box. cbv zeta.
  destruct_casts r0. destruct_casts r1. destruct_casts c0. destruct_casts c1.
  intros Hb. simplify_eq.
  repeat split.
  - destruct (Z.ltb_spec r0 0); lia.
  - destruct (Z.gtb_spec r1 (rows - 1)); lia.
  - destruct (Z.ltb_spec c0 0); lia.
  - destruct (Z.gtb_spec c1 (cols - 1)); lia.
Qed.

(** One turn of the loop over the edges. *)
Lemma bridge_edge_run m i e box :
  0 < cols → Z.of_nat (length (grid_values m)) = rows * cols →
  bridge_at (mst_edges m) i = Some e →
  bridge_box cols rows origin_x origin_y cell_size baseSigma e = Some box →
  bridge_edge expf cols rows origin_x origin_y cell_size baseSigma i m
  = Some (tt, set_grid m
      (bridge_update expf cols rows origin_x origin_y cell_size baseSigma e
         (grid_values m))).
Proof.
  intros Hcols Hlen He Hbox.
  destruct (bridge_at_reads _ _ _ He) as (Hax & Hay & Hbx & Hby).
  destruct box as [[[rMin rMax] cMin] cMax].
  pose proof (bridge_box_bounds _ _ _ _ _ Hbox) as (HrMin & HrMax & HcMin & HcMax).
  unfold bridge_update, bridge_touches. rewrite Hbox.
  unfold bridge_edge.
  rewrite (run_bind _ _ _ _ _ (run_load_edge _ _ _ Hax)).
  rewrite (run_bind _ _ _ _ _ (run_load_edge _ _ _ Hay)).
  rewrite (run_bind _ _ _ _ _ (run_load_edge _ _ _ Hbx)).
  rewrite (run_bind _ _ _ _ _ (run_load_edge _ _ _ Hby)).
  unfold bridge_box in Hbox.
  unfold bridge_cutoff, bridge_sigma, bridge_length in Hbox.
  cbv zeta in Hbox. cbv zeta. revert Hbox.
  destruct_casts r0. destruct_casts r1. destruct_casts c0. destruct_casts c1.
  intros Hbox. simplify_eq.
  do 4 (erewrite run_bind by reflexivity).
  apply (accumulate_box_run expf cols rows); assumption.
Qed.


Lemma bridge_update_length e g :
  length (bridge_update expf cols rows origin_x origin_y cell_size baseSigma e g)
  = length g.
Proof. apply grid_update_length. Qed.


(** The loop over the edges: the contributions are added edge after edge. *)
Lemma bridge_loop_run (body : Z → unit → M F unit)
    (upd : bridge F → list F → list F) m (es : list (bridge F)) :
  (∀ e g, length (upd e g) = length g) →
  (∀ (i : nat) e g, es !! i = Some e → length g = length (grid_values m) →
     body (Z.of_nat i) tt (set_grid m g) = Some (tt, set_grid m (upd e g))) →
  for_range 0 (Z.of_nat (length es)) body tt m
  = Some (tt, set_grid m (foldl (λ g e, upd e g) (grid_values m) es)).
Proof.
  intros Hupd Hbody.
  pose (g_at := λ i : Z, foldl (λ g e, upd e g) (grid_values m) (take (Z.to_nat i) es)).
  assert (∀ i, length (g_at i) = length (grid_values m)) as Hlen.
  { intros i. unfold g_at. generalize (take (Z.to_nat i) es) as l.
    intros l. induction l as [|e l IH] using rev_ind; [done|].
    now rewrite foldl_app; simpl; rewrite Hupd. }
  rewrite <- (set_grid_id m) at 1.
  change (grid_values m) with (g_at 0) at 1.
  replace (foldl (λ g e, upd e g) (grid_values m) es)
    with (g_at (Z.of_nat (length es)))
    by (unfold g_at; now rewrite Nat2Z.id, firstn_all).
  apply (for_range_run 0 (Z.of_nat (length es)) body (λ _, tt)
           (λ i, set_grid m (g_at i))); [lia|].
  intros i Hi.
  destruct (lookup_lt_is_Some_2 es (Z.to_nat i) ltac:(lia)) as [e He].
  replace i with (Z.of_nat (Z.to_nat i)) at 1 by lia.
  rewrite (Hbody _ e) by (done || apply Hlen).
  do 3 f_equal. unfold g_at.
  replace (Z.to_nat (i + 1)) with (S (Z.to_nat i)) by lia.
  erewrite take_S_r by exact He. now rewrite foldl_app.
Qed.
End Bridge.

Section Field.
Context {F : Type} `{FloatOps F}.
Implicit Types (m : memory F) (g : list F) (e : bridge F).
Variable expf : F → F.
Variables (cols rows : Z) (origin_x origin_y cell_size base_sigma : F).

Abbreviation baseSigma := (fmaxf base_sigma (fmul cell_size (flit 5 2))).

Lemma add_bridge_field_run m (es : list (bridge F)) :
  0 < cols → Z.of_nat (length (grid_values m)) = rows * cols →
  bridges_at (mst_edges m) es →
  (∀ e, e ∈ es →
     is_Some (bridge_box cols rows origin_x origin_y cell_size baseSigma e)) →
  add_bridge_field expf cols rows origin_x origin_y cell_size
    (Z.of_nat (length es)) base_sigma m
  = Some (tt, set_grid m
      (foldl (λ g e, bridge_update expf cols rows origin_x origin_y cell_size
                       baseSigma e g) (grid_values m) es)).
Proof.
  intros Hcols Hlen Hes Hbox. unfold add_bridge_field.
  apply (bridge_loop_run _
    (bridge_update expf cols rows origin_x origin_y cell_size baseSigma)).
  - intros. apply bridge_update_length.
  - intros i e g Hi Hg.
    destruct (Hbox e) as [box Hb]; [eapply list_elem_of_lookup_2; eauto|].
    erewrite bridge_edge_run; eauto.
    simpl. lia.
Qed.

End Field.

Section Covering.
Context {F : Type} `{FloatOps F}.
Implicit Types (m : memory F) (g : list F) (e : bridge F).
Variable expf : F → F.
Variables (cols rows : Z) (origin_x origin_y cell_size baseSigma : F).


End Covering.

(** ** Edges that cross the contour *)

Section Crossing.
Context {F : Type} `{FloatOps F}.
Implicit Types (k : corners F).

Lemma selected_edges_cross threshold k b e1 e2 :
  (e1, e2) ∈ cell_edges (cell_case threshold k) b →
  crossing threshold k e1 ∧ crossing threshold k e2.
Proof.
  unfold crossing, cell_case, inside.
  destruct k as [tl tr br bl]; simpl.
  destruct (fle threshold tl) eqn:Etl, (fle threshold tr) eqn:Etr,
           (fle threshold br) eqn:Ebr, (fle threshold bl) eqn:Ebl, b;
    vm_compute cell_edges; intros Hin;
    repeat (apply elem_of_cons in Hin as [Hin|Hin];
            [injection Hin as -> ->; simpl; rewrite ?Etl, ?Etr, ?Ebr, ?Ebl;
             split; discriminate|]);
    apply elem_of_nil in Hin; contradiction.
Qed.
End Crossing.

(** ** Exact arithmetic *)

Section ExactBasics.
Local Existing Instance Exact.ops.
Local Open Scope R_scope.

Lemma Rltb_true a b : Exact.Rltb a b = true ↔ a < b.
Proof. unfold Exact.Rltb. destruct (Rlt_dec a b); split; (done || lra). Qed.

Lemma Rltb_false a b : Exact.Rltb a b = false ↔ b <= a.
Proof. unfold Exact.Rltb. destruct (Rlt_dec a b); split; (done || lra). Qed.

Lemma Rleb_true a b : Exact.Rleb a b = true ↔ a <= b.
Proof. unfold Exact.Rleb. destruct (Rle_dec a b); split; (done || lra). Qed.

Lemma Rleb_false a b : Exact.Rleb a b = false ↔ b < a.
Proof. unfold Exact.Rleb. destruct (Rle_dec a b); split; (done || lra). Qed.

Lemma inside_exact (v threshold : R) :
  inside v threshold = (if Rle_dec threshold v then 1 else 0)%Z.
Proof. unfold inside. simpl. unfold Exact.Rleb. now destruct (Rle_dec _ _). Qed.

(** Between a corner inside and a corner outside, the parameter of
    [lerp1d] lies in [0, 1]. *)
Lemma lerp1d_range (v0 v1 threshold : R) :
  inside v0 threshold ≠ inside v1 threshold →
  0 <= lerp1d v0 v1 threshold <= 1.
Proof.
  rewrite !inside_exact. unfold lerp1d. simpl. unfold Exact.Rltb.
  intros Hcross.
  destruct (Rlt_dec (Rabs (v1 - v0)) (1 / 10000000000)) as [_|Hbig]; [lra|].
  assert (v1 - v0 ≠ 0) as Hd.
  { intros Hz. apply Hbig. rewrite Hz, Rabs_R0. lra. }
  set (t := (threshold - v0) / (v1 - v0)).
  assert (t * (v1 - v0) = threshold - v0) as Ht by (unfold t; now field).
  destruct (Rle_dec threshold v0), (Rle_dec threshold v1);
    try (exfalso; apply Hcross; reflexivity); nra.
Qed.

Lemma edge_xy_on_boundary origin_x origin_y cell_size threshold r c
    (k : corners R) e :
  0 <= cell_size →
  crossing threshold k e →
  0 <= edge_t threshold k e <= 1 ∧
  on_cell_boundary origin_x origin_y cell_size r c
    (edge_xy origin_x origin_y cell_size threshold r c k e).
Proof.
  intros Hcs Hcross.
  pose proof (lerp1d_range _ _ threshold Hcross) as Ht.
  fold (edge_t threshold k e) in Ht. split; [exact Ht|].
  unfold on_cell_boundary, edge_xy.
  generalize dependent (edge_t threshold k e). intros t Ht.
  destruct e; simpl; repeat split; try nra; auto; try (right; right; left; lra);
    try (right; left; lra); try (right; right; right; lra); try (left; lra).
Qed.
End ExactBasics.

Section SweepFacts.
Context {F : Type} `{FloatOps F}.

Lemma segment_floats_length (S : list ((F * F) * (F * F))) :
  length (S ≫= segment_floats) = (4 * length S)%nat.
Proof.
  induction S as [|s S IH]; [done|].
  rewrite bind_cons, length_app, IH. simpl. lia.
Qed.

(** The sweep stores the segments of [sweep_segments] at the front of
    [segments_out] and returns their number. *)
Lemma marching_squares_flat cols rows origin_x origin_y cell_size threshold
    (m : memory F) :
  1 ≤ cols → 1 ≤ rows →
  Z.of_nat (length (grid_values m)) = rows * cols →
  8 * (rows - 1) * (cols - 1) ≤ Z.of_nat (length (segments_out m)) →
  let S := sweep_segments (grid_values m) cols rows
             origin_x origin_y cell_size threshold in
  marching_squares cols rows origin_x origin_y cell_size threshold m
  = Some (Z.of_nat (length S),
          set_segments m
            ((S ≫= segment_floats) ++ drop (4 * length S) (segments_out m)))
  ∧ Z.of_nat (length S) ≤ 2 * (rows - 1) * (cols - 1).
Proof.
  intros Hcols Hrows Hg Hroom S.
  assert (Z.of_nat (length S) ≤ 2 * (rows - 1) * (cols - 1)) as Hcount.
  { apply Z.le_trans with (2 * (cols - 1) * (rows - 1)); [|lia].
    apply sweep_prefix_length; lia. }
  split; [|exact Hcount].
  rewrite marching_squares_run; [|assumption..].
  fold S. rewrite put_segments_flat by lia.
  replace (Z.to_nat ((0 + Z.of_nat (length S)) * 4)) with (4 * length S)%nat
    by lia.
  reflexivity.
Qed.

Lemma sweep_segments_cell g cols rows origin_x origin_y cell_size threshold s :
  s ∈ sweep_segments g cols rows origin_x origin_y cell_size threshold →
  ∃ r c, 0 ≤ r < rows - 1 ∧ 0 ≤ c < cols - 1 ∧
    s ∈ cell_segments origin_x origin_y cell_size threshold r c
          (corners_of g cols r c).
Proof.
  unfold sweep_segments, row_segments. intros Hs.
  apply list_elem_of_bind in Hs as (r & Hs & Hr).
  apply list_elem_of_bind in Hs as (c & Hs & Hc).
  apply elem_of_seqZ in Hr. apply elem_of_seqZ in Hc.
  exists r, c. repeat split; (lia || done).
Qed.

Lemma cell_segments_edges origin_x origin_y cell_size threshold r c k s :
  s ∈ cell_segments origin_x origin_y cell_size threshold r c k →
  ∃ e1 e2,
    s = (edge_xy origin_x origin_y cell_size threshold r c k e1,
         edge_xy origin_x origin_y cell_size threshold r c k e2)
    ∧ crossing threshold k e1 ∧ crossing threshold k e2.
Proof.
  unfold cell_segments. intros Hs.
  apply list_elem_of_fmap in Hs as ([e1 e2] & -> & Hin).
  exists e1, e2. split; [reflexivity|].
  eapply selected_edges_cross; eauto.
Qed.

(** Every segment of the sweep joins the points of two crossing edges of
    one cell. *)
Lemma marching_squares_segments cols rows origin_x origin_y cell_size threshold
    (m : memory F) :
  1 ≤ cols → 1 ≤ rows →
  Z.of_nat (length (grid_values m)) = rows * cols →
  8 * (rows - 1) * (cols - 1) ≤ Z.of_nat (length (segments_out m)) →
  ∃ S : list ((F * F) * (F * F)),
    marching_squares cols rows origin_x origin_y cell_size threshold m
    = Some (Z.of_nat (length S),
            set_segments m
              ((S ≫= segment_floats) ++ drop (4 * length S) (segments_out m)))
    ∧ ∀ s, s ∈ S →
        ∃ r c e1 e2,
          0 ≤ r < rows - 1 ∧ 0 ≤ c < cols - 1 ∧
          let k := corners_of (grid_values m) cols r c in
          has_corners (grid_values m) cols r c k
          ∧ s = (edge_xy origin_x origin_y cell_size threshold r c k e1,
                 edge_xy origin_x origin_y cell_size threshold r c k e2)
          ∧ crossing threshold k e1 ∧ crossing threshold k e2.
Proof.
  intros Hcols Hrows Hg Hroom.
  destruct (marching_squares_flat cols rows origin_x origin_y cell_size
              threshold m) as [Hrun _]; [assumption..|].
  eexists. split; [exact Hrun|].
  intros s Hs.
  apply sweep_segments_cell in Hs as (r & c & Hr & Hc & Hs).
  apply cell_segments_edges in Hs as (e1 & e2 & -> & H1 & H2).
  exists r, c, e1, e2. cbv zeta.
  split; [lia|]. split; [lia|].
  split; [now apply (has_corners_of cols rows)|]. auto.
Qed.
End SweepFacts.

(** ** Properties of the contour extractor *)

Section MarchingProperties.
Context {F : Type} `{FloatOps F}.
Implicit Types (m : memory F) (k : corners F).

(** C1. In [marching_squares], a saddle cell (case index 5 or 10) gets its
    pairing from the average of its four corner values,
    [center = (tl + tr + br + bl) / 4]: in case 5 the two segments join
    edges (3,2) and (1,0) when [center >= threshold], and edges (3,0) and
    (1,2) otherwise; in case 10 they join edges (0,3) and (2,1) when
    [center >= threshold], and edges (0,1) and (2,3) otherwise (0=top,
    1=right, 2=bottom, 3=left).  Stated of [march_cell], the body of the
    loop over the cells, in every arithmetic: the pairs [saddle_pairs]
    leaves, and the two segments the cell stores, [P e] being the point
    of edge [e]. *)
Theorem saddle_pairing_by_center cols origin_x origin_y cell_size threshold
    m r c k n :
  has_corners (grid_values m) cols r c k →
  0 ≤ n → (n + 2) * 4 ≤ Z.of_nat (length (segments_out m)) →
  let P := edge_xy origin_x origin_y cell_size threshold r c k in
  let center :=
    fdiv (fadd (fadd (fadd (c_tl k) (c_tr k)) (c_br k)) (c_bl k)) (flit 4 1) in
  let emitted (S : list ((F * F) * (F * F))) :=
    march_cell cols origin_x origin_y cell_size threshold r c n m
    = Some (n + 2, set_segments m (put_segments (segments_out m) n S)) in
  (cell_case threshold k = 5 →
     saddle_pairs cols r c 5 threshold ((3, 0), (1, 2)) m
     = Some (if fle threshold center then ((3, 2), (1, 0))
             else ((3, 0), (1, 2)), m)
     ∧ emitted (if fle threshold center
                then [(P Left, P Bottom); (P Right, P Top)]
                else [(P Left, P Top); (P Right, P Bottom)]))
  ∧
  (cell_case threshold k = 10 →
     saddle_pairs cols r c 10 threshold ((0, 1), (2, 3)) m
     = Some (if fle threshold center then ((0, 3), (2, 1))
             else ((0, 1), (2, 3)), m)
     ∧ emitted (if fle threshold center
                then [(P Top, P Left); (P Bottom, P Right)]
                else [(P Top, P Right); (P Bottom, P Left)])).
Proof.
  intros Hk Hn Hlen P center emitted. subst emitted. cbv beta.
  pose proof (march_cell_run cols origin_x origin_y cell_size threshold
                m r c k n Hk Hn Hlen) as Hrun.
  pose proof (saddle_pairs_run cols threshold m r c k) as Hsad.
  cbv zeta in Hrun. unfold cell_segments in Hrun.
  fold (cell_center k) in center. subst center.
  split; intros Hcase; rewrite Hcase in Hrun.
  - split; [apply (Hsad 5 Hk)|]. rewrite Hrun.
    destruct (fle threshold (cell_center k)); reflexivity.
  - split; [apply (Hsad 10 Hk)|]. rewrite Hrun.
    destruct (fle threshold (cell_center k)); reflexivity.
Qed.

(** C5. For every cell the sweep visits, the case index has top-left as
    bit 3, top-right as bit 2, bottom-right as bit 1 and bottom-left as
    bit 0, a corner being inside exactly when [value >= threshold]; cases
    0 and 15 store no segment, cases 5 and 10 store two, and every other
    case stores one, between the points of the two edges its entry of
    [EDGE_TABLE] names. *)
Theorem case_index_and_segment_count cols origin_x origin_y cell_size threshold
    m r c k n :
  has_corners (grid_values m) cols r c k →
  0 ≤ n → (n + 2) * 4 ≤ Z.of_nat (length (segments_out m)) →
  let z := cell_case threshold k in
  let P := edge_xy origin_x origin_y cell_size threshold r c k in
  (0 ≤ z ≤ 15
   ∧ Z.testbit z 3 = fle threshold (c_tl k)
   ∧ Z.testbit z 2 = fle threshold (c_tr k)
   ∧ Z.testbit z 1 = fle threshold (c_br k)
   ∧ Z.testbit z 0 = fle threshold (c_bl k))
  ∧ ∃ S,
      march_cell cols origin_x origin_y cell_size threshold r c n m
      = Some (n + Z.of_nat (length S),
              set_segments m (put_segments (segments_out m) n S))
      ∧ (z = 0 ∨ z = 15 → S = [])
      ∧ (z = 5 ∨ z = 10 → length S = 2%nat)
      ∧ (z ≠ 0 → z ≠ 5 → z ≠ 10 → z ≠ 15 →
         ∃ e1 e2,
           table_get EDGE_TABLE z ((-1, -1), (-1, -1))
             = ((edge_code e1, edge_code e2), (-1, -1))
           ∧ table_get NUM_PAIRS z 0 = 1
           ∧ S = [(P e1, P e2)]).
Proof.
  intros Hk Hn Hlen z P. split.
  - subst z. unfold cell_case, inside.
    destruct (fle threshold (c_tl k)), (fle threshold (c_tr k)),
             (fle threshold (c_br k)), (fle threshold (c_bl k));
      vm_compute; intuition discriminate.
  - exists (cell_segments origin_x origin_y cell_size threshold r c k).
    split; [now apply march_cell_run|].
    unfold cell_segments. fold z. fold P.
    pose proof (cell_case_range threshold k) as Hz. fold z in Hz.
    generalize (fle threshold (cell_center k)) as b. clearbody z.
    intros b. repeat split.
    + intros [-> | ->]; reflexivity.
    + intros [-> | ->]; destruct b; reflexivity.
    + intros H0 H5 H10 H15.
      case_split z; try congruence.
      all: match goal with
           | |- context [cell_edges ?i _] =>
               let v := eval vm_compute in (cell_edges i true) in
               match v with
               | [(?e1, ?e2)] => exists e1, e2
               end
           end; repeat split; destruct b; reflexivity.
Qed.

(** C8. For a grid with [cols, rows >= 2], [marching_squares] returns a
    count of at most [2 * (rows-1) * (cols-1)] and stores only into the
    first [4 * count <= 8 * (rows-1) * (cols-1)] floats of [segments_out]:
    with a buffer of that size every store is in range (a store out of
    range would make the run fail), and the floats from [4 * count] on
    are left as they were. *)
Theorem marching_squares_output_bound cols rows origin_x origin_y cell_size
    threshold m :
  2 ≤ cols → 2 ≤ rows →
  Z.of_nat (length (grid_values m)) = rows * cols →
  8 * (rows - 1) * (cols - 1) ≤ Z.of_nat (length (segments_out m)) →
  ∃ S : list ((F * F) * (F * F)),
    marching_squares cols rows origin_x origin_y cell_size threshold m
    = Some (Z.of_nat (length S),
            set_segments m
              ((S ≫= segment_floats)
               ++ drop (4 * length S) (segments_out m)))
    ∧ Z.of_nat (length S) ≤ 2 * (rows - 1) * (cols - 1)
    ∧ Z.of_nat (length (S ≫= segment_floats)) ≤ 8 * (rows - 1) * (cols - 1).
Proof.
  intros Hcols Hrows Hg Hroom.
  destruct (marching_squares_flat cols rows origin_x origin_y cell_size
              threshold m) as [Hrun Hcount]; [lia|lia|assumption..|].
  eexists. split; [exact Hrun|]. split; [exact Hcount|].
  rewrite segment_floats_length. lia.
Qed.

(** C9. [marching_squares] leaves every value of the grid buffer (and the
    edge buffer) as it was; [add_bridge_field] stores only into the grid
    buffer: the edge buffer and the segment buffer are left as they
    were.  The three buffers are separate objects, as in the memory
    model. *)
Theorem buffers_left_unchanged :
  (∀ cols rows origin_x origin_y cell_size threshold m n m',
     marching_squares cols rows origin_x origin_y cell_size threshold m
       = Some (n, m') →
     grid_values m' = grid_values m ∧ mst_edges m' = mst_edges m)
  ∧
  (∀ expf cols rows origin_x origin_y cell_size num_mst_edges base_sigma m u m',
     add_bridge_field expf cols rows origin_x origin_y cell_size
       num_mst_edges base_sigma m = Some (u, m') →
     mst_edges m' = mst_edges m ∧ segments_out m' = segments_out m).
Proof.
  split.
  - intros * Hrun. eapply marching_squares_keeps_grid; eauto.
  - intros * Hrun. eapply add_bridge_field_keeps; eauto.
Qed.
End MarchingProperties.

(** ** Rounding in binary32 *)

Section RoundingDigits.
Lemma digits2_pos_size (p : positive) : digits2_pos p = Pos.size p.
Proof. induction p; simpl; congruence. Qed.

Lemma Zdigits2_bounds (n : Z) :
  0 < n → 2 ^ (Zdigits2 n - 1) ≤ n < 2 ^ Zdigits2 n.
Proof.
  destruct n as [|p|p]; try lia. intros _. simpl Zdigits2.
  rewrite digits2_pos_size.
  pose proof (Pos.size_gt p) as Hgt. pose proof (Pos.size_le p) as Hle.
  split.
  - assert (2 ^ Z.pos (Pos.size p) ≤ 2 * Z.pos p) as H2.
    { change 2 with (Z.pos 2) at 1. rewrite <- Pos2Z.inj_pow.
      change (2 * Z.pos p) with (Z.pos (p~0)). lia. }
    replace (Z.pos (Pos.size p)) with (Z.succ (Z.pos (Pos.size p) - 1)) in H2
      by lia.
    rewrite Z.pow_succ_r in H2 by lia. lia.
  - change 2 with (Z.pos 2). rewrite <- Pos2Z.inj_pow. lia.
Qed.

Lemma Zdigits2_nonneg n : 0 ≤ Zdigits2 n.
Proof. destruct n; simpl; lia. Qed.

Lemma Zdigits2_pos n : 0 < n → 0 < Zdigits2 n.
Proof. destruct n; simpl; lia. Qed.

Lemma Zdigits2_unique n d :
  2 ^ (d - 1) ≤ n < 2 ^ d → 0 < n → Zdigits2 n = d.
Proof.
  intros Hd Hn. pose proof (Zdigits2_bounds n Hn) as Hb.
  pose proof (Zdigits2_pos n Hn) as Hp.
  assert (0 < d) as Hd0.
  { destruct (Z_lt_le_dec 0 d); [assumption|].
    destruct (Z.eq_dec d 0) as [->|]; [simpl in Hd; lia|].
    rewrite (Z.pow_neg_r 2 d) in Hd by lia. lia. }
  destruct (Z.lt_trichotomy (Zdigits2 n) d) as [Hlt|[Heq|Hgt]];
    [|assumption|]; exfalso.
  - assert (2 ^ Zdigits2 n ≤ 2 ^ (d - 1)) by (apply Z.pow_le_mono_r; lia). lia.
  - assert (2 ^ d ≤ 2 ^ (Zdigits2 n - 1)) by (apply Z.pow_le_mono_r; lia). lia.
Qed.

Lemma Zdigits2_le n d : 0 ≤ n → 0 ≤ d → n < 2 ^ d → Zdigits2 n ≤ d.
Proof.
  intros Hn Hd Hlt. destruct (Z.eq_dec n 0) as [->|]; [simpl; lia|].
  pose proof (Zdigits2_bounds n ltac:(lia)) as Hb.
  destruct (Z_le_gt_dec (Zdigits2 n) d); [assumption|exfalso].
  assert (2 ^ d ≤ 2 ^ (Zdigits2 n - 1)) by (apply Z.pow_le_mono_r; lia). lia.
Qed.

Lemma Zdigits2_ge n d : 0 ≤ d → 2 ^ d ≤ n → d + 1 ≤ Zdigits2 n.
Proof.
  intros Hd Hle. assert (0 < 2 ^ d) by (apply Z.pow_pos_nonneg; lia).
  pose proof (Zdigits2_bounds n ltac:(lia)) as Hb.
  destruct (Z_le_gt_dec (d + 1) (Zdigits2 n)); [assumption|exfalso].
  assert (2 ^ Zdigits2 n ≤ 2 ^ d) by (apply Z.pow_le_mono_r; lia). lia.
Qed.

Lemma Zdigits2_mono a b : 0 ≤ a ≤ b → Zdigits2 a ≤ Zdigits2 b.
Proof.
  intros Hab. destruct (Z.eq_dec a 0) as [->|]; [apply Zdigits2_nonneg|].
  pose proof (Zdigits2_bounds a ltac:(lia)).
  pose proof (Zdigits2_pos a ltac:(lia)).
  pose proof (Zdigits2_ge b (Zdigits2 a - 1) ltac:(lia) ltac:(lia)). lia.
Qed.
End RoundingDigits.

Section RoundingShifts.
(** Iterating [shr_1]. *)
Lemma iter_pos_nat {A} (f : A → A) (p : positive) (x : A) :
  SpecFloat.iter_pos f p x = Nat.iter (Pos.to_nat p) f x.
Proof.
  revert x. induction p as [p IH|p IH|]; intros x; simpl SpecFloat.iter_pos.
  - rewrite !IH, Pos2Nat.inj_xI.
    replace (S (2 * Pos.to_nat p)) with (Pos.to_nat p + (Pos.to_nat p + 1))%nat
      by lia.
    rewrite !Nat.iter_add. reflexivity.
  - rewrite !IH, Pos2Nat.inj_xO.
    replace (2 * Pos.to_nat p)%nat with (Pos.to_nat p + Pos.to_nat p)%nat by lia.
    now rewrite Nat.iter_add.
  - reflexivity.
Qed.

Lemma shr_shr_n mrs e k :
  0 ≤ k → shr mrs e k = (shr_n (Z.to_nat k) mrs, e + k).
Proof.
  intros Hk. unfold shr, shr_n. destruct k as [|p|p]; try lia.
  - simpl. f_equal. lia.
  - now rewrite iter_pos_nat, Z2Nat.inj_pos.
Qed.

Lemma shr_1_m mrs : 0 ≤ shr_m mrs → shr_m (shr_1 mrs) = shr_m mrs / 2.
Proof.
  destruct mrs as [m r s]. simpl. intros Hm.
  destruct m as [|[p|p|]|]; try lia; cbn [shr_m].
  - reflexivity.
  - apply Z.div_unique with 1; lia.
  - apply Z.div_unique with 0; lia.
  - reflexivity.
Qed.

Lemma shr_1_code mrs :
  0 ≤ shr_m mrs →
  code (shr_1 mrs) = 2 * (code mrs / 4) + (if code mrs mod 4 =? 0 then 0 else 1).
Proof.
  destruct mrs as [m r s]. cbn [shr_m]. intros Hm.
  assert (code (Build_shr_record m r s) / 4 = m) as ->.
  { unfold code. cbn [shr_m shr_r shr_s]. symmetry.
    apply Z.div_unique with (2 * Z.b2z r + Z.b2z s);
      destruct r, s; simpl; lia. }
  assert (code (Build_shr_record m r s) mod 4 = 2 * Z.b2z r + Z.b2z s) as ->.
  { unfold code. cbn [shr_m shr_r shr_s]. symmetry.
    apply Z.mod_unique with m; destruct r, s; simpl; lia. }
  unfold code.
  destruct m as [|[p|p|]|]; try lia; destruct r, s; simpl; lia.
Qed.

Lemma shr_1_nonneg mrs : 0 ≤ shr_m mrs → 0 ≤ shr_m (shr_1 mrs).
Proof. intros Hm. rewrite shr_1_m by assumption. apply Z.div_pos; lia. Qed.

Lemma shr_1_mono a b :
  0 ≤ shr_m a → 0 ≤ shr_m b → code a ≤ code b →
  code (shr_1 a) ≤ code (shr_1 b).
Proof.
  intros Ha Hb Hab. rewrite !shr_1_code by assumption.
  pose proof (Z.div_mod (code a) 4 ltac:(lia)).
  pose proof (Z.div_mod (code b) 4 ltac:(lia)).
  pose proof (Z.mod_pos_bound (code a) 4 ltac:(lia)).
  pose proof (Z.mod_pos_bound (code b) 4 ltac:(lia)).
  destruct (Z.eqb_spec (code a mod 4) 0), (Z.eqb_spec (code b mod 4) 0); lia.
Qed.

Lemma shr_n_nonneg n mrs : 0 ≤ shr_m mrs → 0 ≤ shr_m (shr_n n mrs).
Proof.
  intros Hm. induction n as [|n IH]; [assumption|].
  unfold shr_n in *. simpl. now apply shr_1_nonneg.
Qed.

Lemma shr_n_mono n a b :
  0 ≤ shr_m a → 0 ≤ shr_m b → code a ≤ code b →
  code (shr_n n a) ≤ code (shr_n n b).
Proof.
  intros Ha Hb Hab. induction n as [|n IH]; [assumption|].
  change (shr_n (S n) a) with (shr_1 (shr_n n a)).
  change (shr_n (S n) b) with (shr_1 (shr_n n b)).
  apply shr_1_mono; auto using shr_n_nonneg.
Qed.

Lemma shr_n_m n mrs :
  0 ≤ shr_m mrs → shr_m (shr_n n mrs) = shr_m mrs / 2 ^ Z.of_nat n.
Proof.
  intros Hm. induction n as [|n IH].
  - simpl. now rewrite Z.div_1_r.
  - change (shr_n (S n) mrs) with (shr_1 (shr_n n mrs)).
    rewrite shr_1_m by now apply shr_n_nonneg.
    rewrite IH, Nat2Z.inj_succ, Z.pow_succ_r by lia.
    assert (0 < 2 ^ Z.of_nat n) by (apply Z.pow_pos_nonneg; lia).
    rewrite Z.div_div by lia.
    f_equal. lia.
Qed.

Lemma shr_n_add n k mrs : shr_n (n + k) mrs = shr_n n (shr_n k mrs).
Proof. unfold shr_n. apply Nat.iter_add. Qed.

(** Shifting out zeros loses nothing. *)
Lemma shr_n_exact n m :
  0 ≤ m →
  shr_n n (Build_shr_record (m * 2 ^ Z.of_nat n) false false)
  = Build_shr_record m false false.
Proof.
  intros Hm. induction n as [|n IH].
  - simpl. f_equal. lia.
  - replace (S n) with (n + 1)%nat by lia. rewrite shr_n_add.
    replace (shr_n 1 _) with (Build_shr_record (m * 2 ^ Z.of_nat n) false false);
      [exact IH|].
    unfold shr_n. simpl Nat.iter.
    replace (m * 2 ^ Z.of_nat (n + 1)) with (2 * (m * 2 ^ Z.of_nat n)).
    2: { rewrite Nat2Z.inj_add, Z.pow_add_r by lia. simpl (2 ^ Z.of_nat 1). lia. }
    assert (0 ≤ m * 2 ^ Z.of_nat n) as Hx.
    { apply Z.mul_nonneg_nonneg; [lia|]. apply Z.pow_nonneg. lia. }
    destruct (m * 2 ^ Z.of_nat n) as [|p|p]; try lia; reflexivity.
Qed.

Lemma rne_bounds mrs : shr_m mrs ≤ rne mrs ≤ shr_m mrs + 1.
Proof.
  destruct mrs as [m [|] [|]]; unfold rne; simpl; try lia.
  destruct (Z.even m); lia.
Qed.

Lemma rne_exact m : rne (Build_shr_record m false false) = m.
Proof. reflexivity. Qed.

Lemma rne_mono a b : code a ≤ code b → rne a ≤ rne b.
Proof.
  destruct a as [ma ra sa], b as [mb rb sb]. unfold code, rne. simpl.
  intros Hab.
  destruct (Z.eq_dec ma mb) as [->|Hne].
  - destruct ra, sa, rb, sb; simpl in *; try lia; destruct (Z.even mb); lia.
  - assert (ma + 1 ≤ mb) by (destruct ra, sa, rb, sb; simpl in *; lia).
    pose proof (rne_bounds (Build_shr_record ma ra sa)) as Ha.
    pose proof (rne_bounds (Build_shr_record mb rb sb)) as Hb.
    unfold rne in Ha, Hb. simpl in Ha, Hb. lia.
Qed.

Lemma code_of_loc m l :
  code (shr_record_of_loc m l)
  = 4 * m + match l with
            | loc_Exact => 0
            | loc_Inexact Lt => 1
            | loc_Inexact Eq => 2
            | loc_Inexact Gt => 3
            end.
Proof. destruct l as [|[| |]]; unfold code; simpl; lia. Qed.

Lemma shr_m_of_loc m l : shr_m (shr_record_of_loc m l) = m.
Proof. now destruct l as [|[| |]]. Qed.
End RoundingShifts.

Section RoundingForm.
Lemma fexp_32 e : fexp 24 128 e = fexp32 e.
Proof. reflexivity. Qed.

Lemma shr_fexp_n m e l :
  roundable m e →
  shr_fexp 24 128 m e l
  = (shr_n (Z.to_nat (shift_of m e)) (shr_record_of_loc m l),
     fexp32 (Zdigits2 m + e)).
Proof.
  intros [Hm He]. unfold shr_fexp. rewrite fexp_32.
  rewrite shr_shr_n by lia. unfold shift_of. f_equal. lia.
Qed.

Lemma rounded_bounds m e l :
  roundable m e →
  let E := fexp32 (Zdigits2 m + e) in
  0 ≤ rounded m e l ≤ 2 ^ 24 ∧ -149 ≤ E
  ∧ (-149 < E → 2 ^ 23 ≤ rounded m e l).
Proof.
  intros [Hm He] E. unfold rounded.
  set (k := shift_of m e). assert (0 ≤ k) as Hk by (unfold k, shift_of; lia).
  set (mrs := shr_n (Z.to_nat k) (shr_record_of_loc m l)).
  pose proof (rne_bounds mrs) as Hr.
  assert (shr_m mrs = m / 2 ^ k) as Hq.
  { unfold mrs. rewrite shr_n_m by (rewrite shr_m_of_loc; lia).
    now rewrite shr_m_of_loc, Z2Nat.id by lia. }
  assert (0 < 2 ^ k) as Hpk by (apply Z.pow_pos_nonneg; lia).
  assert (-149 ≤ E) as HE by (unfold E, fexp32; lia).
  destruct (Z.eq_dec m 0) as [->|Hm0].
  { rewrite Z.div_0_l in Hq by lia.
    assert (E = -149) as HE0.
    { unfold E, fexp32 in *. simpl Zdigits2 in *. lia. }
    split; [lia|]. split; [lia|]. intros Habs. lia. }
  pose proof (Zdigits2_bounds m ltac:(lia)) as Hd.
  pose proof (Zdigits2_pos m ltac:(lia)) as Hdp.
  set (d := Zdigits2 m) in *.
  assert (d - 24 ≤ k) as Hkd by (unfold k, shift_of, fexp32; fold d; lia).
  assert (m / 2 ^ k < 2 ^ 24) as Hup.
  { apply Z.div_lt_upper_bound; [lia|].
    rewrite <- Z.pow_add_r by lia.
    apply Z.lt_le_trans with (2 ^ d); [lia|].
    apply Z.pow_le_mono_r; lia. }
  assert (0 ≤ m / 2 ^ k) as Hlo by (apply Z.div_pos; lia).
  split; [lia|]. split; [lia|]. intros Hbig.
  assert (k = d - 24) as Hkeq by (unfold k, shift_of, E, fexp32 in *; fold d in Hbig |- *; lia).
  assert (2 ^ 23 ≤ m / 2 ^ k); [|lia].
  apply Z.div_le_lower_bound; [lia|].
  rewrite <- Z.pow_add_r by lia.
  replace (k + 23) with (d - 1) by lia. lia.
Qed.

(** What [binary_round_aux] computes on a pair with enough digits. *)
Lemma binary_round_aux_form s m e l :
  roundable m e →
  binary_round_aux 24 128 s m e l
  = pack s (carry (rounded m e l) (fexp32 (Zdigits2 m + e))).1
           (carry (rounded m e l) (fexp32 (Zdigits2 m + e))).2.
Proof.
  intros Hr. pose proof (rounded_bounds m e l Hr) as (Hm1 & HE & Hnorm).
  cbv zeta in *.
  unfold binary_round_aux. rewrite (shr_fexp_n m e l Hr).
  fold (rne (shr_n (Z.to_nat (shift_of m e)) (shr_record_of_loc m l))).
  fold (rounded m e l).
  set (m1 := rounded m e l) in *. set (E := fexp32 (Zdigits2 m + e)) in *.
  unfold carry. destruct (Z.eqb_spec m1 (2 ^ 24)) as [Heq|Hne].
  - rewrite Heq. unfold shr_fexp. rewrite fexp_32.
    change (Zdigits2 (2 ^ 24)) with 25.
    replace (fexp32 (25 + E) - E) with 1 by (unfold fexp32; lia).
    cbn [shr SpecFloat.iter_pos shr_record_of_loc fst snd].
    change (shr_1 {| shr_m := 2 ^ 24; shr_r := false; shr_s := false |})
      with {| shr_m := 2 ^ 23; shr_r := false; shr_s := false |}.
    cbn [shr_m]. reflexivity.
  - assert (m1 < 2 ^ 24) as Hlt by lia.
    unfold shr_fexp. rewrite fexp_32.
    assert (fexp32 (Zdigits2 m1 + E) - E ≤ 0) as Hk2.
    { pose proof (Zdigits2_le m1 24 ltac:(lia) ltac:(lia) Hlt).
      unfold fexp32. lia. }
    assert (shr (shr_record_of_loc m1 loc_Exact) E
              (fexp32 (Zdigits2 m1 + E) - E)
            = (shr_record_of_loc m1 loc_Exact, E)) as ->.
    { unfold shr. destruct (fexp32 (Zdigits2 m1 + E) - E); (reflexivity || lia). }
    cbn [shr_record_of_loc shr_m fst snd]. reflexivity.
Qed.
End RoundingForm.

Section RoundingKeys.
Lemma pow2_pos n : 0 ≤ n → 0 < 2 ^ n.
Proof. intros. apply Z.pow_pos_nonneg; lia. Qed.

Lemma pow2_le a b : a ≤ b → 0 ≤ a → 2 ^ a ≤ 2 ^ b.
Proof. intros. apply Z.pow_le_mono_r; lia. Qed.

Lemma valid_finite s m e :
  valid_binary 24 128 (S754_finite s m e) = true
  ↔ fexp32 (Zdigits2 (Z.pos m) + e) = e ∧ e ≤ 104.
Proof.
  simpl. unfold bounded, canonical_mantissa. rewrite fexp_32.
  rewrite andb_true_iff, Z.eqb_eq, Z.leb_le. simpl Zdigits2. lia.
Qed.

Lemma valid_finite_bounds s m e :
  valid_binary 24 128 (S754_finite s m e) = true →
  -149 ≤ e ≤ 104 ∧ Z.pos m < 2 ^ 24 ∧ (-149 < e → 2 ^ 23 ≤ Z.pos m).
Proof.
  rewrite valid_finite. intros [He Hmax].
  pose proof (Zdigits2_bounds (Z.pos m) ltac:(lia)) as Hd.
  pose proof (Zdigits2_pos (Z.pos m) ltac:(lia)) as Hdp.
  set (d := Zdigits2 (Z.pos m)) in *. unfold fexp32 in He.
  split; [lia|]. split.
  - apply Z.lt_le_trans with (2 ^ d); [lia|]. apply pow2_le; lia.
  - intros Hbig. assert (d = 24) as Hd24 by lia.
    rewrite Hd24 in Hd. simpl (24 - 1) in Hd. lia.
Qed.

Lemma fkey_finite_bounds s m e :
  valid_binary 24 128 (S754_finite s m e) = true →
  0 < Z.pos m * 2 ^ (e + 149) < 2 ^ 277.
Proof.
  intros Hv. destruct (valid_finite_bounds s m e Hv) as (He & Hm & _).
  pose proof (pow2_pos (e + 149) ltac:(lia)) as Hp.
  pose proof (pow2_le (e + 149) 253 ltac:(lia) ltac:(lia)) as Hle.
  split; [lia|].
  apply Z.lt_le_trans with (2 ^ 24 * 2 ^ (e + 149)).
  - apply Z.mul_lt_mono_pos_r; lia.
  - change (2 ^ 277) with (2 ^ 24 * 2 ^ 253).
    apply Z.mul_le_mono_nonneg_l; lia.
Qed.

Lemma mul_compare_r a b p : 0 < p → (a * p ?= b * p) = (a ?= b).
Proof.
  intros Hp. destruct (Z.compare_spec a b) as [->|Hlt|Hgt].
  - apply Z.compare_refl.
  - apply Z.compare_lt_iff. nia.
  - apply Z.compare_gt_iff. nia.
Qed.

(** Among valid floats, the order of the exponents decides. *)
Lemma valid_exponent_order s1 m1 e1 s2 m2 e2 :
  valid_binary 24 128 (S754_finite s1 m1 e1) = true →
  valid_binary 24 128 (S754_finite s2 m2 e2) = true →
  e1 < e2 →
  Z.pos m1 * 2 ^ (e1 + 149) < Z.pos m2 * 2 ^ (e2 + 149).
Proof.
  intros H1 H2 Hlt.
  destruct (valid_finite_bounds _ _ _ H1) as (He1 & Hm1 & _).
  destruct (valid_finite_bounds _ _ _ H2) as (He2 & _ & Hm2).
  specialize (Hm2 ltac:(lia)).
  pose proof (pow2_pos (e1 + 149) ltac:(lia)) as Hp1.
  apply Z.lt_le_trans with (2 ^ 24 * 2 ^ (e1 + 149)).
  { apply Z.mul_lt_mono_pos_r; lia. }
  apply Z.le_trans with (2 ^ 23 * 2 ^ (e2 + 149)).
  - replace (e2 + 149) with ((e1 + 149) + (e2 - e1)) by lia.
    rewrite (Z.pow_add_r 2 (e1 + 149) (e2 - e1)) by lia.
    pose proof (pow2_le 1 (e2 - e1) ltac:(lia) ltac:(lia)) as H2p.
    change (2 ^ 1) with 2 in H2p.
    change (2 ^ 24) with (2 ^ 23 * 2).
    rewrite <- !Z.mul_assoc. apply Z.mul_le_mono_nonneg_l; [lia|]. nia.
  - apply Z.mul_le_mono_nonneg_r; [|lia].
    pose proof (pow2_pos (e2 + 149) ltac:(lia)). lia.
Qed.

Lemma SFcompare_key a b :
  number32 a → number32 b →
  SFcompare a b = Some (fkey a ?= fkey b).
Proof.
  intros [Hva Hna] [Hvb Hnb].
  destruct a as [sa|sa| |sa ma ea], b as [sb|sb| |sb mb eb];
    try congruence; cbn [SFcompare fkey].
  - reflexivity.
  - destruct sb; reflexivity.
  - pose proof (fkey_finite_bounds _ _ _ Hvb).
    destruct sb; cbn [cond_Zopp]; f_equal; symmetry;
      [apply Z.compare_gt_iff|apply Z.compare_lt_iff]; lia.
  - destruct sa; reflexivity.
  - destruct sa, sb; reflexivity.
  - pose proof (fkey_finite_bounds _ _ _ Hvb).
    destruct sa, sb; cbn [cond_Zopp]; f_equal; symmetry;
      first [apply Z.compare_gt_iff; lia|apply Z.compare_lt_iff; lia].
  - pose proof (fkey_finite_bounds _ _ _ Hva).
    destruct sa; cbn [cond_Zopp]; f_equal; symmetry;
      [apply Z.compare_lt_iff|apply Z.compare_gt_iff]; lia.
  - pose proof (fkey_finite_bounds _ _ _ Hva).
    destruct sa, sb; cbn [cond_Zopp]; f_equal; symmetry;
      first [apply Z.compare_gt_iff; lia|apply Z.compare_lt_iff; lia].
  - pose proof (fkey_finite_bounds _ _ _ Hva) as Ha.
    pose proof (fkey_finite_bounds _ _ _ Hvb) as Hb.
    f_equal.
    destruct sa, sb; cbn [cond_Zopp];
      try (symmetry; first [apply Z.compare_gt_iff; lia
                           |apply Z.compare_lt_iff; lia]).
    + (* both negative *)
      destruct (Z.compare_spec ea eb) as [->|Hlt|Hgt].
      * change (Pos.compare_cont Eq ma mb) with (ma ?= mb)%positive.
        assert (0 < 2 ^ (eb + 149)) as Hp.
        { apply pow2_pos. destruct (valid_finite_bounds _ _ _ Hvb). lia. }
        rewrite Z.compare_opp, (mul_compare_r _ _ _ Hp).
        change (Z.pos mb ?= Z.pos ma) with (mb ?= ma)%positive.
        symmetry. apply Pos.compare_antisym.
      * symmetry. apply Z.compare_gt_iff.
        pose proof (valid_exponent_order _ _ _ _ _ _ Hva Hvb Hlt). lia.
      * symmetry. apply Z.compare_lt_iff.
        pose proof (valid_exponent_order _ _ _ _ _ _ Hvb Hva ltac:(lia)). lia.
    + (* both positive *)
      destruct (Z.compare_spec ea eb) as [->|Hlt|Hgt].
      * change (Pos.compare_cont Eq ma mb) with (ma ?= mb)%positive.
        assert (0 < 2 ^ (eb + 149)) as Hp.
        { apply pow2_pos. destruct (valid_finite_bounds _ _ _ Hvb). lia. }
        rewrite (mul_compare_r _ _ _ Hp). reflexivity.
      * symmetry. apply Z.compare_lt_iff.
        now apply (valid_exponent_order false _ _ false).
      * symmetry. apply Z.compare_gt_iff.
        apply (valid_exponent_order false _ _ false); (assumption || lia).
Qed.
End RoundingKeys.

Section RoundingOrder.
Lemma SFleb_key a b :
  number32 a → number32 b → SFleb a b = (fkey a <=? fkey b).
Proof.
  intros Ha Hb. unfold SFleb. rewrite (SFcompare_key a b Ha Hb).
  unfold Z.leb. now destruct (fkey a ?= fkey b).
Qed.

Lemma SFltb_key a b :
  number32 a → number32 b → SFltb a b = (fkey a <? fkey b).
Proof.
  intros Ha Hb. unfold SFltb. rewrite (SFcompare_key a b Ha Hb).
  unfold Z.ltb. now destruct (fkey a ?= fkey b).
Qed.

Lemma pack_opp m e : 0 ≤ m → pack true m e = SFopp (pack false m e).
Proof.
  intros Hm. destruct m as [|p|p]; try lia; simpl; [reflexivity|].
  now destruct (e <=? 104).
Qed.

Lemma fkey_opp f : fkey (SFopp f) = - fkey f.
Proof. destruct f as [s|s| |s m e]; simpl; try destruct s; simpl; lia. Qed.

Lemma number32_opp f : number32 f → number32 (SFopp f).
Proof.
  intros [Hv Hn]. split; [|now destruct f]. now destruct f.
Qed.

(** The float that [binary_round_aux] assembles: a number whose value is
    the rounded mantissa at its exponent, or an infinity past the
    range. *)
Lemma pack_carry s m e :
  0 ≤ m ≤ 2 ^ 24 → -149 ≤ e → (-149 < e → 2 ^ 23 ≤ m) →
  let f := pack s (carry m e).1 (carry m e).2 in
  number32 f
  ∧ fkey f = cond_Zopp s (Z.min (m * 2 ^ (e + 149)) (2 ^ 277)).
Proof.
  intros Hm He Hnorm. cbv zeta.
  pose proof (pow2_pos (e + 149) ltac:(lia)) as Hp.
  unfold carry. destruct (Z.eqb_spec m (2 ^ 24)) as [->|Hne]; cbn [fst snd].
  - change (2 ^ 23) with (Z.pos 8388608). cbn [pack].
    destruct (Z.leb_spec (e + 1) 104) as [Hle|Hgt].
    + split.
      * split; [|discriminate]. apply valid_finite. simpl Zdigits2.
        unfold fexp32. lia.
      * cbn [fkey]. f_equal.
        replace (e + 1 + 149) with (1 + (e + 149)) by lia.
        rewrite Z.pow_add_r by lia.
        pose proof (pow2_le (e + 149) 252 ltac:(lia) ltac:(lia)).
        change (2 ^ 277) with (2 ^ 24 * 2 ^ 253).
        change (2 ^ 253) with (2 * 2 ^ 252).
        change (Z.pos 8388608 * (2 ^ 1 * 2 ^ (e + 149)))
          with (8388608 * (2 * 2 ^ (e + 149))).
        change (2 ^ 24) with 16777216. lia.
    + split; [split; [reflexivity|discriminate]|].
      cbn [fkey]. f_equal.
      pose proof (pow2_le 253 (e + 149) ltac:(lia) ltac:(lia)).
      change (2 ^ 277) with (2 ^ 24 * 2 ^ 253).
      change (2 ^ 24) with 16777216. lia.
  - destruct m as [|p|p]; try lia; cbn [pack].
    + split; [split; [reflexivity|discriminate]|].
      cbn [fkey]. destruct s; simpl; lia.
    + assert (Z.pos p < 2 ^ 24) as Hlt by lia.
      destruct (Z.leb_spec e 104) as [Hle|Hgt].
      * split.
        -- split; [|discriminate]. apply valid_finite.
           pose proof (Zdigits2_le (Z.pos p) 24 ltac:(lia) ltac:(lia) Hlt).
           destruct (Z.eq_dec e (-149)) as [->|Hne'].
           ++ unfold fexp32. lia.
           ++ pose proof (Zdigits2_ge (Z.pos p) 23 ltac:(lia) ltac:(lia)).
              unfold fexp32. lia.
        -- cbn [fkey]. f_equal.
           pose proof (pow2_le (e + 149) 253 ltac:(lia) ltac:(lia)).
           assert (Z.pos p * 2 ^ (e + 149) < 2 ^ 24 * 2 ^ 253).
           { apply Z.lt_le_trans with (2 ^ 24 * 2 ^ (e + 149)).
             - apply Z.mul_lt_mono_pos_r; lia.
             - apply Z.mul_le_mono_nonneg_l; lia. }
           change (2 ^ 277) with (2 ^ 24 * 2 ^ 253). lia.
      * split; [split; [reflexivity|discriminate]|].
        cbn [fkey]. f_equal.
        pose proof (pow2_le 254 (e + 149) ltac:(lia) ltac:(lia)).
        specialize (Hnorm ltac:(lia)).
        assert (2 ^ 23 * 2 ^ 254 ≤ Z.pos p * 2 ^ (e + 149)).
        { apply Z.le_trans with (2 ^ 23 * 2 ^ (e + 149)).
          - apply Z.mul_le_mono_nonneg_l; lia.
          - apply Z.mul_le_mono_nonneg_r; lia. }
        change (2 ^ 277) with (2 ^ 23 * 2 ^ 254). lia.
Qed.

(** The value [binary_round_aux] rounds a pair with enough digits to:
    the rounded mantissa at the exponent of the format, capped at the
    infinity. *)
Lemma binary_round_aux_key s m e l :
  roundable m e →
  number32 (binary_round_aux 24 128 s m e l)
  ∧ fkey (binary_round_aux 24 128 s m e l)
    = cond_Zopp s
        (Z.min (rounded m e l * 2 ^ (fexp32 (Zdigits2 m + e) + 149))
               (2 ^ 277)).
Proof.
  intros Hr. rewrite (binary_round_aux_form s m e l Hr).
  destruct (rounded_bounds m e l Hr) as (Hm & HE & Hn).
  now apply pack_carry.
Qed.

Lemma binary_round_aux_opp m e l :
  roundable m e →
  binary_round_aux 24 128 true m e l
  = SFopp (binary_round_aux 24 128 false m e l).
Proof.
  intros Hr. rewrite !(binary_round_aux_form _ m e l Hr).
  destruct (rounded_bounds m e l Hr) as (Hm & HE & Hn).
  apply pack_opp. unfold carry.
  destruct (_ =? _); cbn [fst]; lia.
Qed.

(** Rounding keeps the order of two located values at one exponent. *)
Lemma binary_round_aux_mono m1 l1 m2 l2 e :
  roundable m1 e → roundable m2 e →
  code (shr_record_of_loc m1 l1) ≤ code (shr_record_of_loc m2 l2) →
  fkey (binary_round_aux 24 128 false m1 e l1)
  ≤ fkey (binary_round_aux 24 128 false m2 e l2).
Proof.
  intros Hr1 Hr2 Hcode.
  rewrite (proj2 (binary_round_aux_key false m1 e l1 Hr1)).
  rewrite (proj2 (binary_round_aux_key false m2 e l2 Hr2)).
  cbn [cond_Zopp].
  destruct (rounded_bounds m1 e l1 Hr1) as (Hm1 & HE1 & Hn1).
  destruct (rounded_bounds m2 e l2 Hr2) as (Hm2 & HE2 & Hn2).
  cbv zeta in *.
  assert (m1 ≤ m2) as Hle.
  { rewrite !code_of_loc in Hcode.
    destruct l1 as [|[| |]], l2 as [|[| |]]; lia. }
  destruct Hr1 as [H01 He1]. destruct Hr2 as [H02 He2].
  pose proof (Zdigits2_mono m1 m2 ltac:(lia)) as Hd.
  set (E1 := fexp32 (Zdigits2 m1 + e)) in *.
  set (E2 := fexp32 (Zdigits2 m2 + e)) in *.
  assert (E1 ≤ E2) as HE by (unfold E1, E2, fexp32; lia).
  apply Z.min_le_compat_r.
  destruct (Z.eq_dec E1 E2) as [Heq|Hne].
  - rewrite <- Heq. apply Z.mul_le_mono_nonneg_r.
    { pose proof (pow2_pos (E1 + 149) ltac:(lia)). lia. }
    unfold rounded, shift_of. fold E1 E2. rewrite <- Heq.
    apply rne_mono, shr_n_mono; rewrite ?shr_m_of_loc; assumption.
  - specialize (Hn2 ltac:(lia)).
    pose proof (pow2_pos (E1 + 149) ltac:(lia)) as Hp1.
    apply Z.le_trans with (2 ^ 24 * 2 ^ (E1 + 149)).
    { apply Z.mul_le_mono_nonneg_r; lia. }
    apply Z.le_trans with (2 ^ 23 * 2 ^ (E2 + 149)).
    + replace (E2 + 149) with ((E1 + 149) + (E2 - E1)) by lia.
      rewrite (Z.pow_add_r 2 (E1 + 149) (E2 - E1)) by lia.
      pose proof (pow2_le 1 (E2 - E1) ltac:(lia) ltac:(lia)) as H2p.
      change (2 ^ 1) with 2 in H2p.
      change (2 ^ 24) with (2 ^ 23 * 2).
      rewrite <- !Z.mul_assoc. apply Z.mul_le_mono_nonneg_l; [lia|]. nia.
    + apply Z.mul_le_mono_nonneg_r; [|lia].
      pose proof (pow2_pos (E2 + 149) ltac:(lia)). lia.
Qed.

Lemma Zdigits2_shift m j :
  0 < m → 0 ≤ j → Zdigits2 (m * 2 ^ j) = Zdigits2 m + j.
Proof.
  intros Hm Hj. pose proof (Zdigits2_bounds m Hm) as Hd.
  pose proof (Zdigits2_pos m Hm) as Hdp.
  pose proof (pow2_pos j Hj) as Hp.
  apply Zdigits2_unique; [|nia].
  replace (Zdigits2 m + j - 1) with ((Zdigits2 m - 1) + j) by lia.
  rewrite !Z.pow_add_r by lia. nia.
Qed.

(** A mantissa padded with zeros rounds to the same float. *)
Lemma binary_round_aux_shift s m e j :
  roundable m e → 0 ≤ j →
  roundable (m * 2 ^ j) (e - j)
  ∧ binary_round_aux 24 128 s (m * 2 ^ j) (e - j) loc_Exact
    = binary_round_aux 24 128 s m e loc_Exact.
Proof.
  intros Hr Hj. pose proof (pow2_pos j Hj) as Hp.
  destruct Hr as [Hm He].
  assert (fexp32 (Zdigits2 (m * 2 ^ j) + (e - j)) = fexp32 (Zdigits2 m + e))
    as HE.
  { destruct (Z.eq_dec m 0) as [->|Hm0].
    - simpl in *. unfold fexp32 in *. lia.
    - rewrite Zdigits2_shift by lia. f_equal. lia. }
  assert (roundable (m * 2 ^ j) (e - j)) as Hr'.
  { split; [nia|]. rewrite HE. lia. }
  split; [exact Hr'|].
  rewrite (binary_round_aux_form s _ _ _ Hr').
  rewrite (binary_round_aux_form s m e _ (conj Hm He)).
  rewrite HE.
  assert (rounded (m * 2 ^ j) (e - j) loc_Exact = rounded m e loc_Exact) as ->;
    [|reflexivity].
  unfold rounded, shift_of. rewrite HE. cbn [shr_record_of_loc].
  replace (Z.to_nat (fexp32 (Zdigits2 m + e) - (e - j)))
    with (Z.to_nat (fexp32 (Zdigits2 m + e) - e) + Z.to_nat j)%nat by lia.
  rewrite shr_n_add. f_equal. f_equal.
  pose proof (shr_n_exact (Z.to_nat j) m Hm) as Hx.
  now rewrite Z2Nat.id in Hx by lia.
Qed.

(** A number of the format rounds to itself. *)
Lemma binary_round_aux_valid s m e :
  valid_binary 24 128 (S754_finite s m e) = true →
  roundable (Z.pos m) e
  ∧ binary_round_aux 24 128 s (Z.pos m) e loc_Exact = S754_finite s m e.
Proof.
  intros Hv. pose proof (proj1 (valid_finite s m e) Hv) as [He Hmax].
  destruct (valid_finite_bounds s m e Hv) as (_ & Hm & _).
  assert (roundable (Z.pos m) e) as Hr by (split; lia).
  split; [exact Hr|].
  rewrite (binary_round_aux_form s _ _ _ Hr). rewrite He.
  assert (rounded (Z.pos m) e loc_Exact = Z.pos m) as ->.
  { unfold rounded, shift_of. rewrite He, Z.sub_diag. reflexivity. }
  unfold carry. destruct (Z.eqb_spec (Z.pos m) (2 ^ 24)); [lia|].
  cbn [fst snd pack]. destruct (Z.leb_spec e 104); [reflexivity|lia].
Qed.
End RoundingOrder.

Section RoundedSums.
Lemma finite_number32_number f : finite_number32 f → number32 f.
Proof. intros [Hv Hf]. split; [assumption|]. now destruct f. Qed.

Lemma finite_number32_key f : finite_number32 f → - 2 ^ 277 < fkey f < 2 ^ 277.
Proof.
  intros [Hv Hf]. destruct f as [s|s| |s m e]; try discriminate; cbn [fkey].
  - lia.
  - pose proof (fkey_finite_bounds s m e Hv). destruct s; cbn [cond_Zopp]; lia.
Qed.

Lemma number32_finite f :
  number32 f → - 2 ^ 277 < fkey f < 2 ^ 277 → finite_number32 f.
Proof.
  intros [Hv Hn] Hk. split; [assumption|].
  destruct f as [s|s| |s m e]; try reflexivity; try congruence.
  destruct s; cbn [fkey cond_Zopp] in Hk; lia.
Qed.

Lemma iter_xO p d : Z.pos (Pos.iter xO p d) = Z.pos p * 2 ^ Z.pos d.
Proof.
  induction d as [|d IH] using Pos.peano_ind.
  - simpl. lia.
  - rewrite Pos.iter_succ, Pos2Z.inj_succ, Z.pow_succ_r by lia.
    rewrite Pos2Z.inj_xO, IH. lia.
Qed.

Lemma shl_align_spec p e e' :
  (shl_align p e e').2 = Z.min e e'
  ∧ Z.pos (shl_align p e e').1 = Z.pos p * 2 ^ (e - Z.min e e').
Proof.
  unfold shl_align. destruct (e' - e) as [|d|d] eqn:Hd; cbn [fst snd].
  - replace (Z.min e e') with e by lia. rewrite Z.sub_diag. simpl. lia.
  - replace (Z.min e e') with e by lia. rewrite Z.sub_diag. simpl. lia.
  - replace (Z.min e e') with e' by lia. split; [reflexivity|].
    rewrite iter_xO. f_equal. f_equal. lia.
Qed.

Lemma roundable_base X : 0 ≤ X → roundable X (-149).
Proof. intros HX. split; [assumption|]. unfold fexp32. lia. Qed.

(** [binary_round] as a rounding of the value in units of [2^-149]. *)
Lemma binary_round_base s p e :
  -149 ≤ e →
  binary_round 24 128 s p e
  = binary_round_aux 24 128 s (Z.pos p * 2 ^ (e + 149)) (-149) loc_Exact.
Proof.
  intros He. unfold binary_round. rewrite fexp_32.
  change (Z.pos (digits2_pos p)) with (Zdigits2 (Z.pos p)).
  set (F := fexp32 (Zdigits2 (Z.pos p) + e)).
  destruct (shl_align_spec p e F) as [He' Hp'].
  destruct (shl_align p e F) as [p' e']. cbn [fst snd] in *.
  assert (-149 ≤ F) as HF by (unfold F, fexp32; lia).
  assert (roundable (Z.pos p') e') as Hr.
  { split; [lia|]. rewrite Hp', He'.
    rewrite Zdigits2_shift by lia. fold F.
    replace (Zdigits2 (Z.pos p) + (e - Z.min e F) + Z.min e F)
      with (Zdigits2 (Z.pos p) + e) by lia.
    fold F. lia. }
  destruct (binary_round_aux_shift s (Z.pos p') e' (e' + 149) Hr ltac:(lia))
    as [_ Heq].
  rewrite <- Heq. f_equal; [|lia].
  rewrite Hp', He', <- Z.mul_assoc, <- Z.pow_add_r by lia. f_equal. f_equal. lia.
Qed.

Lemma binary_normalize_round32 M e sz :
  -149 ≤ e → M ≠ 0 →
  binary_normalize 24 128 M e sz = round32 (M * 2 ^ (e + 149)).
Proof.
  intros He HM. pose proof (pow2_pos (e + 149) ltac:(lia)) as Hp.
  unfold round32. destruct M as [|p|p]; [lia| |]; cbn [binary_normalize].
  - rewrite binary_round_base by assumption.
    replace (Z.pos p * 2 ^ (e + 149) <? 0) with false by (symmetry; lia).
    now rewrite Z.abs_eq by lia.
  - rewrite binary_round_base by assumption.
    replace (Z.neg p * 2 ^ (e + 149) <? 0) with true
      by (symmetry; apply Z.ltb_lt; nia).
    f_equal. nia.
Qed.

Lemma round32_0 : round32 0 = S754_zero false.
Proof. reflexivity. Qed.

Lemma round32_number X : number32 (round32 X).
Proof.
  unfold round32.
  apply (binary_round_aux_key), roundable_base. lia.
Qed.

Lemma round32_opp X : round32 (- X) = SFopp (round32 X) ∨ X = 0.
Proof.
  unfold round32. destruct (Z.eq_dec X 0) as [|HX]; [now right|left].
  rewrite Z.abs_opp.
  pose proof (roundable_base (Z.abs X) ltac:(lia)) as Hr.
  destruct (Z.ltb_spec X 0), (Z.ltb_spec (- X) 0); try lia.
  - rewrite (binary_round_aux_opp _ _ _ Hr).
    now destruct (binary_round_aux 24 128 false (Z.abs X) (-149) loc_Exact)
      as [[|]|[|]| |[|] ? ?].
  - now rewrite (binary_round_aux_opp _ _ _ Hr).
Qed.

Lemma round32_key_nonneg X : 0 ≤ X → 0 ≤ fkey (round32 X).
Proof.
  intros HX. unfold round32.
  replace (X <? 0) with false by (symmetry; lia).
  pose proof (roundable_base (Z.abs X) ltac:(lia)) as Hr.
  rewrite (proj2 (binary_round_aux_key false _ _ loc_Exact Hr)).
  destruct (rounded_bounds _ _ loc_Exact Hr) as (Hm & HE & _).
  cbv zeta in *. cbn [cond_Zopp].
  pose proof (pow2_pos (fexp32 (Zdigits2 (Z.abs X) + -149) + 149) ltac:(lia)).
  apply Z.min_glb; [nia|lia].
Qed.

Lemma round32_mono_nonneg X Y :
  0 ≤ X ≤ Y → fkey (round32 X) ≤ fkey (round32 Y).
Proof.
  intros HXY. unfold round32.
  replace (X <? 0) with false by (symmetry; lia).
  replace (Y <? 0) with false by (symmetry; lia).
  rewrite !Z.abs_eq by lia.
  apply binary_round_aux_mono; try (apply roundable_base; lia).
  rewrite !code_of_loc. lia.
Qed.

(** Rounding keeps the order. *)
Lemma round32_mono X Y : X ≤ Y → fkey (round32 X) ≤ fkey (round32 Y).
Proof.
  intros HXY.
  destruct (Z_le_gt_dec 0 X) as [HX|HX]; [apply round32_mono_nonneg; lia|].
  destruct (round32_opp (- X)) as [HoX|]; [|lia].
  rewrite Z.opp_involutive in HoX. rewrite HoX, fkey_opp.
  destruct (Z_le_gt_dec 0 Y) as [HY|HY].
  - pose proof (round32_key_nonneg (- X) ltac:(lia)).
    pose proof (round32_key_nonneg Y ltac:(lia)). lia.
  - destruct (round32_opp (- Y)) as [HoY|]; [|lia].
    rewrite Z.opp_involutive in HoY. rewrite HoY, fkey_opp.
    pose proof (round32_mono_nonneg (- Y) (- X) ltac:(lia)). lia.
Qed.

(** A finite number is the rounding of its own value. *)
Lemma round32_finite s m e :
  valid_binary 24 128 (S754_finite s m e) = true →
  round32 (fkey (S754_finite s m e)) = S754_finite s m e.
Proof.
  intros Hv. destruct (valid_finite_bounds s m e Hv) as (He & _).
  pose proof (pow2_pos (e + 149) ltac:(lia)) as Hp.
  destruct (binary_round_aux_valid s m e Hv) as [Hr Hid].
  destruct (binary_round_aux_shift s (Z.pos m) e (e + 149) Hr ltac:(lia))
    as [_ Hsh].
  replace (e - (e + 149)) with (-149) in Hsh by lia.
  unfold round32. cbn [fkey].
  destruct s; cbn [cond_Zopp].
  - replace (- (Z.pos m * 2 ^ (e + 149)) <? 0) with true
      by (symmetry; apply Z.ltb_lt; nia).
    rewrite Z.abs_opp, Z.abs_eq by nia. now rewrite Hsh.
  - replace (Z.pos m * 2 ^ (e + 149) <? 0) with false
      by (symmetry; apply Z.ltb_ge; nia).
    rewrite Z.abs_eq by nia. now rewrite Hsh.
Qed.

Lemma round32_fkey f :
  finite_number32 f → fkey (round32 (fkey f)) = fkey f.
Proof.
  intros [Hv Hf]. destruct f as [s|s| |s m e]; try discriminate.
  - reflexivity.
  - now rewrite round32_finite.
Qed.

Lemma fkey_aligned s m e ez :
  -149 ≤ ez → ez ≤ e →
  cond_Zopp s (Z.pos (shl_align m e ez).1) * 2 ^ (ez + 149)
  = fkey (S754_finite s m e).
Proof.
  intros Hez Hle. destruct (shl_align_spec m e ez) as [_ ->].
  replace (Z.min e ez) with ez by lia. cbn [fkey].
  replace (e + 149) with ((e - ez) + (ez + 149)) by lia.
  rewrite (Z.pow_add_r 2 (e - ez) (ez + 149)) by lia.
  destruct s; cbn [cond_Zopp]; lia.
Qed.

(** The sum and the difference of two finite numbers are the roundings
    of the exact sum and difference. *)
Lemma SFadd_round a b :
  finite_number32 a → finite_number32 b →
  number32 (SFadd 24 128 a b)
  ∧ fkey (SFadd 24 128 a b) = fkey (round32 (fkey a + fkey b)).
Proof.
  intros [Hva Hfa] [Hvb Hfb].
  destruct a as [sa|sa| |sa ma ea], b as [sb|sb| |sb mb eb];
    try discriminate; cbn [SFadd].
  - split; [|destruct sa, sb; reflexivity].
    destruct sa, sb; (split; [reflexivity|discriminate]).
  - split; [split; [assumption|discriminate]|].
    cbn [fkey]. rewrite Z.add_0_l.
    change (cond_Zopp sb (Z.pos mb * 2 ^ (eb + 149)))
      with (fkey (S754_finite sb mb eb)).
    now rewrite round32_finite.
  - split; [split; [assumption|discriminate]|].
    cbn [fkey]. rewrite Z.add_0_r.
    change (cond_Zopp sa (Z.pos ma * 2 ^ (ea + 149)))
      with (fkey (S754_finite sa ma ea)).
    now rewrite round32_finite.
  - destruct (valid_finite_bounds _ _ _ Hva) as (Hea & _).
    destruct (valid_finite_bounds _ _ _ Hvb) as (Heb & _).
    set (ez := Z.min ea eb).
    set (M := cond_Zopp sa (Z.pos (shl_align ma ea ez).1)
              + cond_Zopp sb (Z.pos (shl_align mb eb ez).1)).
    assert (M * 2 ^ (ez + 149)
            = fkey (S754_finite sa ma ea) + fkey (S754_finite sb mb eb)) as HM.
    { unfold M. rewrite Z.mul_add_distr_r.
      rewrite !fkey_aligned by (unfold ez; lia). reflexivity. }
    rewrite <- HM.
    destruct (Z.eq_dec M 0) as [->|HM0].
    { cbn [binary_normalize]. rewrite Z.mul_0_l.
      split; [split; [reflexivity|discriminate]|reflexivity]. }
    rewrite (binary_normalize_round32 M ez false) by (unfold ez; lia).
    split; [apply round32_number|reflexivity].
Qed.

Lemma SFsub_round a b :
  finite_number32 a → finite_number32 b →
  number32 (SFsub 24 128 a b)
  ∧ fkey (SFsub 24 128 a b) = fkey (round32 (fkey a - fkey b)).
Proof.
  intros [Hva Hfa] [Hvb Hfb].
  destruct a as [sa|sa| |sa ma ea], b as [sb|sb| |sb mb eb];
    try discriminate; cbn [SFsub].
  - split; [|destruct sa, sb; reflexivity].
    destruct sa, sb; (split; [reflexivity|discriminate]).
  - assert (valid_binary 24 128 (S754_finite (negb sb) mb eb) = true) as Hv'
      by exact Hvb.
    split; [split; [assumption|discriminate]|].
    replace (fkey (S754_zero sa) - fkey (S754_finite sb mb eb))
      with (fkey (S754_finite (negb sb) mb eb))
      by (cbn [fkey]; destruct sb; cbn [cond_Zopp negb]; lia).
    now rewrite round32_finite.
  - split; [split; [assumption|discriminate]|].
    cbn [fkey]. rewrite Z.sub_0_r.
    change (cond_Zopp sa (Z.pos ma * 2 ^ (ea + 149)))
      with (fkey (S754_finite sa ma ea)).
    now rewrite round32_finite.
  - destruct (valid_finite_bounds _ _ _ Hva) as (Hea & _).
    destruct (valid_finite_bounds _ _ _ Hvb) as (Heb & _).
    set (ez := Z.min ea eb).
    set (M := cond_Zopp sa (Z.pos (shl_align ma ea ez).1)
              - cond_Zopp sb (Z.pos (shl_align mb eb ez).1)).
    assert (M * 2 ^ (ez + 149)
            = fkey (S754_finite sa ma ea) - fkey (S754_finite sb mb eb)) as HM.
    { unfold M. rewrite Z.mul_sub_distr_r.
      rewrite !fkey_aligned by (unfold ez; lia). reflexivity. }
    rewrite <- HM.
    destruct (Z.eq_dec M 0) as [->|HM0].
    { cbn [binary_normalize]. rewrite Z.mul_0_l.
      split; [split; [reflexivity|discriminate]|reflexivity]. }
    rewrite (binary_normalize_round32 M ez false) by (unfold ez; lia).
    split; [apply round32_number|reflexivity].
Qed.
End RoundedSums.

Section RoundedProducts.
Lemma canonical_digits s m e :
  valid_binary 24 128 (S754_finite s m e) = true →
  let d := Zdigits2 (Z.pos m) in
  1 ≤ d ≤ 24 ∧ -149 ≤ e ≤ 104 ∧ (d = 24 ∨ e = -149)
  ∧ 2 ^ (d - 1) ≤ Z.pos m < 2 ^ d.
Proof.
  intros Hv d. pose proof (proj1 (valid_finite s m e) Hv) as [He Hmax].
  pose proof (Zdigits2_bounds (Z.pos m) ltac:(lia)) as Hd.
  pose proof (Zdigits2_pos (Z.pos m) ltac:(lia)) as Hdp.
  fold d in He, Hd, Hdp. unfold fexp32 in He. repeat split; lia.
Qed.

Lemma product_roundable sa ma ea sb mb eb :
  valid_binary 24 128 (S754_finite sa ma ea) = true →
  valid_binary 24 128 (S754_finite sb mb eb) = true →
  roundable (Z.pos (ma * mb)) (ea + eb).
Proof.
  intros Ha Hb.
  destruct (canonical_digits _ _ _ Ha) as (Hda & Hea & Hca & Hma).
  destruct (canonical_digits _ _ _ Hb) as (Hdb & Heb & Hcb & Hmb).
  cbv zeta in *.
  set (da := Zdigits2 (Z.pos ma)) in *. set (db := Zdigits2 (Z.pos mb)) in *.
  split; [lia|].
  assert (da + db - 1 ≤ Zdigits2 (Z.pos (ma * mb))) as HD.
  { replace (da + db - 1) with ((da + db - 2) + 1) by lia.
    apply Zdigits2_ge; [lia|].
    replace (da + db - 2) with ((da - 1) + (db - 1)) by lia.
    rewrite (Z.pow_add_r 2 (da - 1) (db - 1)), Pos2Z.inj_mul by lia.
    pose proof (pow2_pos (da - 1) ltac:(lia)).
    pose proof (pow2_pos (db - 1) ltac:(lia)).
    apply Z.mul_le_mono_nonneg; lia. }
  unfold fexp32. lia.
Qed.

(** A product of two finite numbers is a number. *)
Lemma SFmul_number a b :
  finite_number32 a → finite_number32 b → number32 (SFmul 24 128 a b).
Proof.
  intros [Hva Hfa] [Hvb Hfb].
  destruct a as [sa|sa| |sa ma ea], b as [sb|sb| |sb mb eb];
    try discriminate; cbn [SFmul];
    try (split; [reflexivity|discriminate]).
  apply binary_round_aux_key. now apply (product_roundable sa _ _ sb).
Qed.

Lemma SFmul_key_sign a b :
  finite_number32 a → finite_number32 b → 0 ≤ fkey a → 0 ≤ fkey b →
  0 ≤ fkey (SFmul 24 128 a b).
Proof.
  intros [Hva Hfa] [Hvb Hfb] Ha Hb.
  destruct a as [sa|sa| |sa ma ea], b as [sb|sb| |sb mb eb];
    try discriminate; cbn [SFmul]; try (cbn [fkey]; lia).
  pose proof (fkey_finite_bounds _ _ _ Hva).
  pose proof (fkey_finite_bounds _ _ _ Hvb).
  destruct sa; [cbn [fkey cond_Zopp] in Ha; lia|].
  destruct sb; [cbn [fkey cond_Zopp] in Hb; lia|].
  cbn [xorb].
  pose proof (product_roundable false ma ea false mb eb Hva Hvb) as Hr.
  rewrite (proj2 (binary_round_aux_key false _ _ loc_Exact Hr)).
  destruct (rounded_bounds _ _ loc_Exact Hr) as (Hm & HE & _).
  cbv zeta in *. cbn [cond_Zopp].
  pose proof (pow2_pos (fexp32 (Zdigits2 (Z.pos (ma * mb)) + (ea + eb)) + 149)
                ltac:(lia)).
  apply Z.min_glb; [nia|lia].
Qed.

(** Multiplying by a number between 0 and 1 does not increase a number
    that is not negative. *)
Lemma SFmul_fraction t x :
  finite_number32 t → finite_number32 x →
  0 ≤ fkey t ≤ 2 ^ 149 → 0 ≤ fkey x →
  finite_number32 (SFmul 24 128 t x)
  ∧ 0 ≤ fkey (SFmul 24 128 t x) ≤ fkey x.
Proof.
  intros Ht Hx Htk Hxk.
  pose proof (SFmul_number t x Ht Hx) as Hnum.
  pose proof (SFmul_key_sign t x Ht Hx ltac:(lia) Hxk) as Hsign.
  pose proof (finite_number32_key x Hx) as Hxb.
  assert (fkey (SFmul 24 128 t x) ≤ fkey x) as Hle.
  { destruct Ht as [Hvt Hft], Hx as [Hvx Hfx].
    destruct t as [st|st| |st mt et], x as [sx|sx| |sx mx ex];
      try discriminate; cbn [SFmul]; try (cbn [fkey]; lia).
    - cbn [fkey] in Hxk |- *. lia.
    - pose proof (fkey_finite_bounds _ _ _ Hvt) as Hbt.
      pose proof (fkey_finite_bounds _ _ _ Hvx) as Hbx.
      destruct st; [cbn [fkey cond_Zopp] in Htk; lia|].
      destruct sx; [cbn [fkey cond_Zopp] in Hxk; lia|].
      cbn [xorb]. cbn [fkey cond_Zopp] in Htk.
      destruct (valid_finite_bounds _ _ _ Hvt) as (Het & _).
      destruct (valid_finite_bounds _ _ _ Hvx) as (Hex & _).
      assert (et ≤ 0) as Het0.
      { destruct (Z_le_gt_dec et 0); [assumption|exfalso].
        pose proof (pow2_le 150 (et + 149) ltac:(lia) ltac:(lia)).
        change (2 ^ 150) with (2 * 2 ^ 149) in *. nia. }
      assert (Z.pos mt ≤ 2 ^ (- et)) as Hmt.
      { pose proof (pow2_pos (et + 149) ltac:(lia)) as Hp.
        apply (Z.mul_le_mono_pos_r _ _ (2 ^ (et + 149))); [assumption|].
        rewrite <- (Z.pow_add_r 2 (- et) (et + 149)) by lia.
        now replace (- et + (et + 149)) with 149 by lia. }
      destruct (binary_round_aux_valid false mx ex Hvx) as [Hrx Hidx].
      destruct (binary_round_aux_shift false (Z.pos mx) ex (- et) Hrx
                  ltac:(lia)) as [Hrs Hsh].
      replace (ex - - et) with (et + ex) in Hrs, Hsh by lia.
      rewrite Hidx in Hsh. rewrite <- Hsh.
      apply binary_round_aux_mono.
      + now apply (product_roundable false _ _ false).
      + assumption.
      + rewrite !code_of_loc, Pos2Z.inj_mul.
        pose proof (pow2_pos (- et) ltac:(lia)). nia. }
  split; [|lia].
  apply number32_finite; [assumption|lia].
Qed.
End RoundedProducts.

Section RoundedQuotients.
Lemma new_location_code m r :
  0 < m → 0 ≤ r < m →
  let c := code (shr_record_of_loc 0 (new_location m r)) in
  0 ≤ c ≤ 3 ∧ (r = 0 → c = 0).
Proof.
  intros Hm Hr. cbv zeta. rewrite code_of_loc.
  unfold new_location, new_location_even, new_location_odd.
  destruct (Z.even m), (Z.eqb_spec r 0); try lia;
    repeat match goal with
           | |- context [match ?c with Eq => _ | Lt => _ | Gt => _ end] =>
               destruct c
           end; lia.
Qed.

Lemma shifted_mantissa a z :
  0 ≤ z →
  match z with
  | 0 => a
  | Z.pos _ => Z.shiftl a z
  | Z.neg _ => 0
  end = a * 2 ^ z.
Proof.
  intros Hz. destruct z as [|p|p]; try lia.
  now rewrite Z.shiftl_mul_pow2 by lia.
Qed.

(** The quotient of two positive numbers of the format, the first not
    above the second, is rounded from a pair with enough digits that does
    not exceed 1. *)
Lemma SFdiv_core_le_one m1 e1 m2 e2 :
  valid_binary 24 128 (S754_finite false m1 e1) = true →
  valid_binary 24 128 (S754_finite false m2 e2) = true →
  Z.pos m1 * 2 ^ (e1 + 149) ≤ Z.pos m2 * 2 ^ (e2 + 149) →
  let '(q, e', l) := SFdiv_core_binary 24 128 (Z.pos m1) e1 (Z.pos m2) e2 in
  roundable q e' ∧ e' ≤ -24
  ∧ code (shr_record_of_loc q l) ≤ 4 * 2 ^ (- e').
Proof.
  intros H1 H2 Hle.
  destruct (canonical_digits _ _ _ H1) as (Hd1 & He1 & Hc1 & Hm1).
  destruct (canonical_digits _ _ _ H2) as (Hd2 & He2 & Hc2 & Hm2).
  cbv zeta in *. unfold SFdiv_core_binary. rewrite fexp_32.
  set (d1 := Zdigits2 (Z.pos m1)) in *. set (d2 := Zdigits2 (Z.pos m2)) in *.
  set (delta := d1 + e1 - (d2 + e2)).
  set (e' := Z.min (fexp32 delta) (e1 - e2)).
  set (s := e1 - e2 - e').
  assert (0 ≤ s) as Hs by (unfold s, e'; lia).
  set (m' := match s with
             | 0 => Z.pos m1
             | Z.pos _ => Z.shiftl (Z.pos m1) s
             | Z.neg _ => 0
             end).
  assert (m' = Z.pos m1 * 2 ^ s) as Hm' by now apply shifted_mantissa.
  clearbody m'.
  pose proof (Z.div_eucl_eq m' (Z.pos m2) ltac:(lia)) as Hdiv.
  pose proof (Z.mod_pos_bound m' (Z.pos m2) ltac:(lia)) as Hrem.
  unfold Z.modulo in Hrem.
  destruct (Z.div_eucl m' (Z.pos m2)) as [q r] eqn:Hqr.
  pose proof (pow2_pos s Hs) as Hps.
  (* the exponents *)
  assert (delta ≤ 0) as Hdelta.
  { unfold delta.
    destruct (Z_le_gt_dec (d1 + e1) (d2 + e2)); [lia|exfalso].
    assert (Z.pos m2 * 2 ^ (e2 + 149) < 2 ^ (d2 + e2 + 149)) as Hup.
    { replace (d2 + e2 + 149) with (d2 + (e2 + 149)) by lia.
      rewrite (Z.pow_add_r 2 d2 (e2 + 149)) by lia.
      apply Z.mul_lt_mono_pos_r; [apply pow2_pos|]; lia. }
    assert (2 ^ (d1 - 1 + e1 + 149) ≤ Z.pos m1 * 2 ^ (e1 + 149)) as Hlo.
    { replace (d1 - 1 + e1 + 149) with ((d1 - 1) + (e1 + 149)) by lia.
      rewrite (Z.pow_add_r 2 (d1 - 1) (e1 + 149)) by lia.
      apply Z.mul_le_mono_nonneg_r; [|lia].
      pose proof (pow2_pos (e1 + 149) ltac:(lia)). lia. }
    pose proof (pow2_le (d2 + e2 + 149) (d1 - 1 + e1 + 149) ltac:(lia)
                  ltac:(lia)). lia. }
  assert (e' ≤ -24) as He' by (unfold e', fexp32; lia).
  (* the quotient does not exceed 2^-e' *)
  assert (m' ≤ Z.pos m2 * 2 ^ (- e')) as Hbound.
  { pose proof (pow2_pos (e2 + 149) ltac:(lia)) as Hp2.
    apply (Z.mul_le_mono_pos_r _ _ (2 ^ (e2 + 149))); [assumption|].
    rewrite Hm', <- !Z.mul_assoc.
    rewrite <- (Z.pow_add_r 2 s (e2 + 149)) by lia.
    rewrite <- (Z.pow_add_r 2 (- e') (e2 + 149)) by lia.
    replace (s + (e2 + 149)) with ((e1 + 149) + (- e')) by (unfold s; lia).
    replace (- e' + (e2 + 149)) with ((e2 + 149) + (- e')) by lia.
    rewrite (Z.pow_add_r 2 (e1 + 149) (- e')) by lia.
    rewrite (Z.pow_add_r 2 (e2 + 149) (- e')) by lia.
    rewrite !Z.mul_assoc.
    apply Z.mul_le_mono_nonneg_r; [|assumption].
    pose proof (pow2_pos (- e') ltac:(lia)). lia. }
  assert (0 ≤ q) as Hq by nia.
  pose proof (pow2_pos (- e') ltac:(lia)) as Hpe.
  assert (q ≤ 2 ^ (- e') ∧ (q = 2 ^ (- e') → r = 0)) as [Hqle Hqeq] by nia.
  destruct (new_location_code (Z.pos m2) r ltac:(lia) Hrem) as [Hc Hc0].
  cbv zeta in *. rewrite code_of_loc in Hc, Hc0. rewrite Z.mul_0_r in Hc, Hc0.
  split; [|split; [assumption|]].
  - split; [assumption|].
    destruct (Z_le_gt_dec e' (-149)) as [|Hbig]; [unfold fexp32; lia|].
    assert (e' ≤ delta - 24) as Hed by (unfold e', fexp32 in *; lia).
    assert (2 ^ 23 ≤ q) as Hq23.
    { assert (Z.pos m2 * 2 ^ 23 ≤ m'); [|nia].
      rewrite Hm'.
      apply Z.le_trans with (2 ^ d2 * 2 ^ 23).
      { apply Z.mul_le_mono_nonneg_r; lia. }
      apply Z.le_trans with (2 ^ (d1 - 1) * 2 ^ s).
      - rewrite <- (Z.pow_add_r 2 d2 23), <- (Z.pow_add_r 2 (d1 - 1) s) by lia.
        apply pow2_le; unfold s, delta in *; lia.
      - apply Z.mul_le_mono_nonneg_r; lia. }
    pose proof (Zdigits2_ge q 23 ltac:(lia) Hq23). unfold fexp32. lia.
  - rewrite code_of_loc.
    destruct (Z.eq_dec q (2 ^ (- e'))) as [Heq|Hne].
    + specialize (Hqeq Heq). specialize (Hc0 Hqeq). lia.
    + lia.
Qed.

Lemma one32_key : fkey (S754_finite false 8388608 (-23)) = 2 ^ 149.
Proof. reflexivity. Qed.

Lemma SFdiv_positive_le_one m1 e1 m2 e2 :
  valid_binary 24 128 (S754_finite false m1 e1) = true →
  valid_binary 24 128 (S754_finite false m2 e2) = true →
  Z.pos m1 * 2 ^ (e1 + 149) ≤ Z.pos m2 * 2 ^ (e2 + 149) →
  let t := SFdiv 24 128 (S754_finite false m1 e1) (S754_finite false m2 e2) in
  number32 t ∧ 0 ≤ fkey t ≤ 2 ^ 149.
Proof.
  intros H1 H2 Hle. cbv zeta. cbn [SFdiv xorb].
  pose proof (SFdiv_core_le_one m1 e1 m2 e2 H1 H2 Hle) as Hcore.
  destruct (SFdiv_core_binary 24 128 (Z.pos m1) e1 (Z.pos m2) e2)
    as [[q e'] l].
  destruct Hcore as (Hr & He' & Hcode).
  split; [now apply binary_round_aux_key|].
  split.
  - rewrite (proj2 (binary_round_aux_key false _ _ l Hr)).
    destruct (rounded_bounds _ _ l Hr) as (Hm & HE & _).
    cbv zeta in *. cbn [cond_Zopp].
    pose proof (pow2_pos (fexp32 (Zdigits2 q + e') + 149) ltac:(lia)).
    apply Z.min_glb; [nia|lia].
  - assert (valid_binary 24 128 (S754_finite false 8388608 (-23)) = true)
      as Hone by reflexivity.
    destruct (binary_round_aux_valid false _ _ Hone) as [Hr1 Hid1].
    destruct (binary_round_aux_shift false (Z.pos 8388608) (-23) (-23 - e')
                Hr1 ltac:(lia)) as [Hrs Hsh].
    replace (-23 - (-23 - e')) with e' in Hrs, Hsh by lia.
    rewrite <- one32_key, <- Hid1, <- Hsh.
    apply binary_round_aux_mono; [assumption..|].
    rewrite (code_of_loc _ loc_Exact).
    change (Z.pos 8388608) with (2 ^ 23).
    rewrite <- (Z.pow_add_r 2 23 (-23 - e')) by lia.
    replace (23 + (-23 - e')) with (- e') by lia. lia.
Qed.
End RoundedQuotients.

Section Binary32Lerp.
Import Binary32.
Local Existing Instance Binary32.ops.

Lemma fkey_abs f : fkey (SFabs f) = Z.abs (fkey f).
Proof.
  destruct f as [s|s| |s m e]; cbn [SFabs fkey]; try reflexivity.
  - destruct s; reflexivity.
  - destruct s; cbn [cond_Zopp]; lia.
Qed.

Lemma number32_abs f : number32 f → number32 (SFabs f).
Proof. intros [Hv Hn]. split; [|now destruct f]. now destruct f. Qed.

Lemma number32_infinite f :
  number32 f → 2 ^ 277 ≤ Z.abs (fkey f) → ∃ s, f = S754_infinity s.
Proof.
  intros [Hv Hn] Hk. destruct f as [s|s| |s m e]; try congruence.
  - cbn [fkey] in Hk. lia.
  - now exists s.
  - pose proof (fkey_finite_bounds s m e Hv).
    destruct s; cbn [fkey cond_Zopp] in Hk; lia.
Qed.

(** A quotient of two numbers of one sign, the first not larger in
    magnitude, lies between 0 and 1. *)
Lemma SFdiv_unit n d :
  finite_number32 n → number32 d → fkey d ≠ 0 →
  0 ≤ fkey n ≤ fkey d ∨ fkey d ≤ fkey n ≤ 0 →
  finite_number32 (SFdiv 24 128 n d)
  ∧ 0 ≤ fkey (SFdiv 24 128 n d) ≤ 2 ^ 149.
Proof.
  intros [Hvn Hfn] [Hvd Hnd] Hd0 Hord.
  assert (finite_number32 (S754_zero false) ∧ finite_number32 (S754_zero true))
    as [Hz0 Hz1] by (repeat split).
  destruct n as [sn|sn| |sn mn en], d as [sd|sd| |sd md ed];
    try discriminate; try congruence; cbn [fkey] in Hd0; try lia.
  - cbn [SFdiv]. destruct (xorb sn sd); (split; [assumption|cbn [fkey]; lia]).
  - cbn [SFdiv]. destruct (xorb sn sd); (split; [assumption|cbn [fkey]; lia]).
  - cbn [SFdiv]. destruct (xorb sn sd); (split; [assumption|cbn [fkey]; lia]).
  - pose proof (fkey_finite_bounds _ _ _ Hvn) as Hbn.
    pose proof (fkey_finite_bounds _ _ _ Hvd) as Hbd.
    assert (sn = sd ∧ Z.pos mn * 2 ^ (en + 149) ≤ Z.pos md * 2 ^ (ed + 149))
      as [-> Hle].
    { cbn [fkey] in Hord. destruct sn, sd; cbn [cond_Zopp] in Hord;
        split; (reflexivity || lia). }
    assert (SFdiv 24 128 (S754_finite sd mn en) (S754_finite sd md ed)
            = SFdiv 24 128 (S754_finite false mn en) (S754_finite false md ed))
      as -> by (cbn [SFdiv]; now destruct sd).
    destruct (SFdiv_positive_le_one mn en md ed Hvn Hvd Hle) as [Hnum Hk].
    cbv zeta in Hnum, Hk. split; [|exact Hk].
    apply number32_finite; [assumption|]. lia.
Qed.

Lemma half32_unit :
  finite_number32 (lit32 1 2) ∧ 0 ≤ fkey (lit32 1 2) ≤ 2 ^ 149.
Proof. repeat split; vm_compute; congruence. Qed.

Lemma guard32_positive :
  number32 (lit32 1 10000000000) ∧ 0 < fkey (lit32 1 10000000000).
Proof. repeat split; vm_compute; congruence. Qed.

(** Between a corner inside and a corner outside, all three values
    finite: when [threshold - v0] does not overflow, the parameter of
    [lerp1d] is a number between 0 and 1; when it overflows, so does
    [v1 - v0], and the parameter is a NaN. *)
Lemma lerp1d_range32 (v0 v1 threshold : float32) :
  finite_number32 v0 → finite_number32 v1 → finite_number32 threshold →
  fle threshold v0 ≠ fle threshold v1 →
  let t := lerp1d v0 v1 threshold in
  if finite32 (fsub threshold v0)
  then finite_number32 t ∧ 0 ≤ fkey t ≤ 2 ^ 149
  else t = S754_nan.
Proof.
  intros H0 H1 HT Hcross. cbv zeta.
  cbn [fle fsub Binary32.ops] in *.
  rewrite !SFleb_key in Hcross by now apply finite_number32_number.
  destruct (SFsub_round threshold v0 HT H0) as [Hnn Hnk].
  destruct (SFsub_round v1 v0 H1 H0) as [Hdn Hdk].
  unfold lerp1d. cbn [fsub fabsf flt fdiv flit Binary32.ops].
  change (SFsub prec emax) with (SFsub 24 128).
  change (SFdiv prec emax) with (SFdiv 24 128).
  set (n := SFsub 24 128 threshold v0) in *.
  set (d := SFsub 24 128 v1 v0) in *.
  pose proof (round32_mono (fkey threshold - fkey v0) (fkey v1 - fkey v0)) as HmA.
  pose proof (round32_mono (fkey v1 - fkey v0) (fkey threshold - fkey v0)) as HmB.
  pose proof (round32_mono 0 (fkey threshold - fkey v0)) as Hm0A.
  pose proof (round32_mono (fkey threshold - fkey v0) 0) as Hm0B.
  change (fkey (round32 0)) with 0 in Hm0A, Hm0B.
  rewrite <- Hnk in HmA, HmB, Hm0A, Hm0B. rewrite <- Hdk in HmA, HmB.
  assert (0 ≤ fkey n ≤ fkey d ∨ fkey d ≤ fkey n ≤ 0) as Hord.
  { destruct (Z.leb_spec (fkey threshold) (fkey v0)),
             (Z.leb_spec (fkey threshold) (fkey v1)); try congruence; lia. }
  destruct guard32_positive as [Hgn Hgk].
  destruct (finite32 n) eqn:Hfin.
  - destruct (SFltb (SFabs d) (lit32 1 10000000000)) eqn:Hguard;
      [exact half32_unit|].
    rewrite SFltb_key in Hguard by (try apply number32_abs; assumption).
    rewrite fkey_abs in Hguard.
    apply SFdiv_unit; [|assumption| |assumption].
    + split; [apply Hnn|exact Hfin].
    + apply Z.ltb_ge in Hguard. lia.
  - assert (∃ s, n = S754_infinity s) as [sn Hn].
    { destruct Hnn as [_ Hnan]. destruct n as [?|s| |? ? ?];
        try discriminate; [now exists s|congruence]. }
    assert (∃ s, d = S754_infinity s) as [sd Hd].
    { apply number32_infinite; [assumption|].
      rewrite Hn in Hord. cbn [fkey] in Hord.
      destruct sn; cbn [cond_Zopp] in Hord; lia. }
    rewrite Hn, Hd. now destruct sn, sd.
Qed.

Lemma SFleb_refl x : number32 x → SFleb x x = true.
Proof. intros Hx. rewrite SFleb_key by assumption. apply Z.leb_refl. Qed.

Lemma SFadd_number a b :
  number32 a → number32 b → finite32 a = true ∨ finite32 b = true →
  number32 (SFadd 24 128 a b).
Proof.
  intros Ha Hb Hfin.
  destruct (finite32 a) eqn:Hfa, (finite32 b) eqn:Hfb.
  - apply SFadd_round; split; (assumption || apply Ha || apply Hb).
  - destruct Hb as [Hvb Hnb].
    destruct a as [?|?| |? ? ?], b as [?|?| |? ? ?]; try discriminate;
      try congruence; (split; [reflexivity|discriminate]).
  - destruct Ha as [Hva Hna].
    destruct a as [?|?| |? ? ?], b as [?|?| |? ? ?]; try discriminate;
      try congruence; (split; [reflexivity|discriminate]).
  - destruct Hfin; discriminate.
Qed.

(** Adding more to a number gives no less. *)
Lemma SFadd_step x w1 w2 :
  number32 x → finite_number32 w1 → finite_number32 w2 →
  fkey w1 ≤ fkey w2 →
  SFleb (SFadd 24 128 x w1) (SFadd 24 128 x w2) = true.
Proof.
  intros Hx H1 H2 Hle.
  destruct (finite32 x) eqn:Hfx.
  - assert (finite_number32 x) as Hx' by (split; [apply Hx|assumption]).
    destruct (SFadd_round x w1 Hx' H1) as [Hn1 Hk1].
    destruct (SFadd_round x w2 Hx' H2) as [Hn2 Hk2].
    rewrite SFleb_key, Hk1, Hk2 by assumption.
    apply Z.leb_le, round32_mono. lia.
  - assert (SFadd 24 128 x w1 = x ∧ SFadd 24 128 x w2 = x) as [-> ->].
    { destruct Hx as [_ Hnx], H1 as [_ Hf1], H2 as [_ Hf2].
      destruct x as [?|?| |? ? ?]; try discriminate; try congruence.
      destruct w1 as [?|?| |? ? ?], w2 as [?|?| |? ? ?]; try discriminate;
        split; reflexivity. }
    now apply SFleb_refl.
Qed.

Lemma SFadd_grow x w :
  number32 x → finite_number32 w → 0 ≤ fkey w →
  SFleb x (SFadd 24 128 x w) = true.
Proof.
  intros Hx Hw Hle.
  destruct (finite32 x) eqn:Hfx.
  - assert (finite_number32 x) as Hx' by (split; [apply Hx|assumption]).
    destruct (SFadd_round x w Hx' Hw) as [Hn Hk].
    rewrite SFleb_key, Hk by assumption.
    rewrite <- (round32_fkey x Hx') at 1.
    apply Z.leb_le, round32_mono. lia.
  - assert (SFadd 24 128 x w = x) as ->.
    { destruct Hx as [_ Hnx], Hw as [_ Hfw].
      destruct x as [?|?| |? ? ?]; try discriminate; try congruence.
      destruct w as [?|?| |? ? ?]; try discriminate; reflexivity. }
    now apply SFleb_refl.
Qed.

Lemma of_int32_finite c :
  0 ≤ c < 2 ^ 31 → finite_number32 (of_int32 c) ∧ 0 ≤ fkey (of_int32 c).
Proof.
  intros Hc. unfold of_int32. change (binary_normalize prec emax)
    with (binary_normalize 24 128).
  destruct (Z.eq_dec c 0) as [->|Hc0]; [repeat split; cbn; lia|].
  rewrite (binary_normalize_round32 c 0 false) by lia.
  pose proof (round32_key_nonneg (c * 2 ^ (0 + 149)) ltac:(lia)) as Hlo.
  pose proof (round32_mono (c * 2 ^ (0 + 149))
                (fkey (S754_finite false 8388608 8)) ltac:(cbn; lia)) as Hup.
  rewrite round32_finite in Hup by reflexivity.
  split; [|assumption].
  apply number32_finite; [apply round32_number|].
  cbn [fkey cond_Zopp] in Hup. lia.
Qed.

(** A grid line [origin + i * cell_size], as the code computes it. *)
Lemma grid_line32 (origin cell_size : float32) (i : Z) :
  finite_number32 origin → finite_number32 cell_size → 0 ≤ i < 2 ^ 31 →
  number32 (fadd origin (fmul (of_int i) cell_size)).
Proof.
  intros Ho Hc Hi. cbn [fadd fmul of_int Binary32.ops].
  destruct (of_int32_finite i Hi) as [Hof _].
  apply SFadd_number.
  - now apply finite_number32_number.
  - now apply SFmul_number.
  - left. apply Ho.
Qed.

(** A point at parameter [t] in [0, 1] from a grid line lies between
    that line and the next, as the code computes them. *)
Lemma offset_within32 (x0 t cell_size : float32) :
  number32 x0 → finite_number32 t → 0 ≤ fkey t ≤ 2 ^ 149 →
  finite_number32 cell_size → 0 ≤ fkey cell_size →
  fle x0 (fadd x0 (fmul t cell_size)) = true
  ∧ fle (fadd x0 (fmul t cell_size)) (fadd x0 cell_size) = true.
Proof.
  intros Hx Ht Htk Hc Hck. cbn [fle fadd fmul Binary32.ops].
  change (SFmul prec emax) with (SFmul 24 128).
  change (SFadd prec emax) with (SFadd 24 128).
  destruct (SFmul_fraction t cell_size Ht Hc Htk Hck) as [Hw Hwk].
  split.
  - apply SFadd_grow; (assumption || lia).
  - apply SFadd_step; (assumption || lia).
Qed.

Lemma side_within32 (x0 cell_size : float32) :
  number32 x0 → finite_number32 cell_size → 0 ≤ fkey cell_size →
  fle x0 x0 = true ∧ fle x0 (fadd x0 cell_size) = true
  ∧ fle (fadd x0 cell_size) (fadd x0 cell_size) = true.
Proof.
  intros Hx Hc Hck. cbn [fle fadd Binary32.ops].
  split; [now apply SFleb_refl|]. split; [now apply SFadd_grow|].
  apply SFleb_refl, SFadd_number.
  - assumption.
  - now apply finite_number32_number.
  - right. apply Hc.
Qed.
End Binary32Lerp.

Section Binary32Endpoints.
Import Binary32.
Local Existing Instance Binary32.ops.

Lemma read_elem_of {A} (g : list A) i v : read g i = Some v → v ∈ g.
Proof.
  unfold read. destruct (0 <=? i); [|discriminate].
  apply list_elem_of_lookup_2.
Qed.

Lemma edge_ends_finite (g : list float32) cols r c k e :
  (∀ v, v ∈ g → finite_number32 v) →
  has_corners g cols r c k →
  finite_number32 (edge_ends k e).1 ∧ finite_number32 (edge_ends k e).2.
Proof.
  intros Hg (Htl & Htr & Hbr & Hbl).
  apply read_elem_of, Hg in Htl, Htr, Hbr, Hbl.
  destruct e; cbn [edge_ends fst snd]; split; assumption.
Qed.

Lemma endpoint_bounded32_holds (g : list float32) cols
    (origin_x origin_y cell_size threshold : float32) r c k e :
  (∀ v, v ∈ g → finite_number32 v) →
  finite_number32 threshold →
  finite_number32 origin_x → finite_number32 origin_y →
  finite_number32 cell_size → fle (flit 0 1) cell_size = true →
  0 ≤ r < 2 ^ 31 → 0 ≤ c < 2 ^ 31 →
  has_corners g cols r c k →
  crossing threshold k e →
  endpoint_bounded32 origin_x origin_y cell_size threshold r c k e.
Proof.
  intros Hg Hth Hox Hoy Hcs Hpos Hr Hc Hk Hcross.
  destruct (edge_ends_finite g cols r c k e Hg Hk) as [H0 H1].
  assert (0 ≤ fkey cell_size) as Hck.
  { cbn [fle flit Binary32.ops] in Hpos.
    rewrite SFleb_key in Hpos
      by (try apply finite_number32_number; (assumption || now repeat split)).
    apply Z.leb_le in Hpos. exact Hpos. }
  assert (fle threshold (edge_ends k e).1 ≠ fle threshold (edge_ends k e).2)
    as Hcross'.
  { unfold crossing, inside in Hcross. intros Heq. apply Hcross.
    now rewrite Heq. }
  pose proof (lerp1d_range32 _ _ threshold H0 H1 Hth Hcross') as Hrange.
  cbv zeta in Hrange. fold (edge_t threshold k e) in Hrange.
  unfold endpoint_bounded32.
  destruct (finite32 (fsub threshold (edge_ends k e).1)); [|exact Hrange].
  destruct Hrange as [Ht Htk].
  split; [|split].
  - cbn [fle flit Binary32.ops].
    rewrite SFleb_key
      by (try apply finite_number32_number; (assumption || now repeat split)).
    apply Z.leb_le. change (fkey (lit32 0 1)) with 0. lia.
  - cbn [fle flit Binary32.ops].
    rewrite SFleb_key
      by (try apply finite_number32_number; (assumption || now repeat split)).
    apply Z.leb_le. change (fkey (lit32 1 1)) with (2 ^ 149). lia.
  - pose proof (grid_line32 origin_x cell_size c Hox Hcs Hc) as Hx0.
    pose proof (grid_line32 origin_y cell_size r Hoy Hcs Hr) as Hy0.
    destruct (offset_within32 _ _ cell_size Hx0 Ht Htk Hcs Hck) as [Hx1 Hx2].
    destruct (offset_within32 _ _ cell_size Hy0 Ht Htk Hcs Hck) as [Hy1 Hy2].
    destruct (side_within32 _ cell_size Hx0 Hcs Hck) as (Hxa & Hxb & Hxc).
    destruct (side_within32 _ cell_size Hy0 Hcs Hck) as (Hya & Hyb & Hyc).
    unfold on_computed_boundary, edge_xy.
    destruct e; cbn [fst snd]; repeat split; auto.
Qed.
End Binary32Endpoints.

Section ExactMarching.
Local Existing Instance Exact.ops.

(** C10 (amended). For every grid and threshold, in every arithmetic,
    every edge the case table selects, saddles included, has one corner
    classified inside and one outside.  In binary32, for finite grid
    values, threshold, origin and cell size, [cell_size >= 0] and sizes
    that are [int]s: on such an edge, running from the corner value [v0],
    the parameter of [lerp1d] lies in [0, 1] and the endpoint
    [marching_squares] stores lies on a side of its cell's square as
    [get_edge_point] computes it, its coordinates within [x0, x0 +
    cell_size] for [x0 = origin + c * cell_size] and likewise for rows,
    provided [threshold - v0] does not overflow; when it overflows, so
    does [v1 - v0], and the parameter is a NaN.  In exact arithmetic,
    with [cell_size >= 0], the parameter lies in [0, 1] and each endpoint
    on a side of its cell's square, its coordinates within
    [origin + c * cell_size, origin + (c+1) * cell_size] and likewise for
    rows. *)
Theorem endpoints_on_cell_boundary :
  (* one corner inside, one outside: in every arithmetic *)
  (∀ {F : Type} `{FloatOps F} cols rows origin_x origin_y cell_size threshold
     (m : memory F),
     2 ≤ cols → 2 ≤ rows →
     Z.of_nat (length (grid_values m)) = rows * cols →
     8 * (rows - 1) * (cols - 1) ≤ Z.of_nat (length (segments_out m)) →
     ∃ S : list ((F * F) * (F * F)),
       marching_squares cols rows origin_x origin_y cell_size threshold m
       = Some (Z.of_nat (length S),
               set_segments m
                 ((S ≫= segment_floats)
                  ++ drop (4 * length S) (segments_out m)))
       ∧ ∀ s, s ∈ S →
           ∃ r c e1 e2,
             0 ≤ r < rows - 1 ∧ 0 ≤ c < cols - 1 ∧
             let k := corners_of (grid_values m) cols r c in
             s = (edge_xy origin_x origin_y cell_size threshold r c k e1,
                  edge_xy origin_x origin_y cell_size threshold r c k e2)
             ∧ crossing threshold k e1 ∧ crossing threshold k e2)
  ∧
  (* the parameter and the endpoints: in binary32 *)
  (∀ cols rows (origin_x origin_y cell_size threshold : Binary32.float32)
     (m : memory Binary32.float32),
     2 ≤ cols < 2 ^ 31 → 2 ≤ rows < 2 ^ 31 →
     Z.of_nat (length (grid_values m)) = rows * cols →
     8 * (rows - 1) * (cols - 1) ≤ Z.of_nat (length (segments_out m)) →
     (∀ v, v ∈ grid_values m → finite_number32 v) →
     finite_number32 threshold →
     finite_number32 origin_x → finite_number32 origin_y →
     finite_number32 cell_size → fle (flit 0 1) cell_size = true →
     ∃ S : list ((Binary32.float32 * Binary32.float32)
                 * (Binary32.float32 * Binary32.float32)),
       marching_squares cols rows origin_x origin_y cell_size threshold m
       = Some (Z.of_nat (length S),
               set_segments m
                 ((S ≫= segment_floats)
                  ++ drop (4 * length S) (segments_out m)))
       ∧ ∀ s, s ∈ S →
           ∃ r c e1 e2,
             0 ≤ r < rows - 1 ∧ 0 ≤ c < cols - 1 ∧
             let k := corners_of (grid_values m) cols r c in
             s = (edge_xy origin_x origin_y cell_size threshold r c k e1,
                  edge_xy origin_x origin_y cell_size threshold r c k e2)
             ∧ crossing threshold k e1 ∧ crossing threshold k e2
             ∧ endpoint_bounded32 origin_x origin_y cell_size threshold
                 r c k e1
             ∧ endpoint_bounded32 origin_x origin_y cell_size threshold
                 r c k e2)
  ∧
  (* the parameter and the endpoints: in exact arithmetic *)
  (∀ cols rows (origin_x origin_y cell_size threshold : R) (m : memory R),
     2 ≤ cols → 2 ≤ rows →
     Z.of_nat (length (grid_values m)) = rows * cols →
     8 * (rows - 1) * (cols - 1) ≤ Z.of_nat (length (segments_out m)) →
     (0 <= cell_size)%R →
     ∃ S : list ((R * R) * (R * R)),
       marching_squares cols rows origin_x origin_y cell_size threshold m
       = Some (Z.of_nat (length S),
               set_segments m
                 ((S ≫= segment_floats)
                  ++ drop (4 * length S) (segments_out m)))
       ∧ ∀ s, s ∈ S →
           ∃ r c e1 e2,
             0 ≤ r < rows - 1 ∧ 0 ≤ c < cols - 1 ∧
             let k := corners_of (grid_values m) cols r c in
             s = (edge_xy origin_x origin_y cell_size threshold r c k e1,
                  edge_xy origin_x origin_y cell_size threshold r c k e2)
             ∧ crossing threshold k e1 ∧ crossing threshold k e2
             ∧ (0 <= edge_t threshold k e1 <= 1)%R
             ∧ (0 <= edge_t threshold k e2 <= 1)%R
             ∧ on_cell_boundary origin_x origin_y cell_size r c s.1
             ∧ on_cell_boundary origin_x origin_y cell_size r c s.2).
Proof.
  split; [|split].
  - intros F H cols rows ox oy cs th m Hcols Hrows Hg Hroom.
    destruct (marching_squares_segments cols rows ox oy cs th m)
      as (S & Hrun & Hin); [lia|lia|assumption..|].
    exists S. split; [exact Hrun|].
    intros s Hs. destruct (Hin s Hs) as (r & c & e1 & e2 & Hr & Hc & Hs').
    exists r, c, e1, e2. cbv zeta in Hs' |- *. tauto.
  - intros cols rows ox oy cs th m Hcols Hrows Hg Hroom
      Hfinite Hth Hox Hoy Hcs Hpos.
    destruct (marching_squares_segments cols rows ox oy cs th m)
      as (S & Hrun & Hin); [lia|lia|assumption..|].
    exists S. split; [exact Hrun|].
    intros s Hs. destruct (Hin s Hs) as (r & c & e1 & e2 & Hr & Hc & Hs').
    cbv zeta in Hs'. destruct Hs' as (Hk & -> & H1 & H2).
    exists r, c, e1, e2. cbv zeta.
    split; [exact Hr|]. split; [exact Hc|]. split; [reflexivity|].
    split; [exact H1|]. split; [exact H2|].
    split; eapply (endpoint_bounded32_holds (grid_values m) cols); eauto; lia.
  - intros cols rows ox oy cs th m Hcols Hrows Hg Hroom Hcs.
    destruct (marching_squares_segments cols rows ox oy cs th m)
      as (S & Hrun & Hin); [lia|lia|assumption..|].
    exists S. split; [exact Hrun|].
    intros s Hs. destruct (Hin s Hs) as (r & c & e1 & e2 & Hr & Hc & Hs').
    cbv zeta in Hs'. destruct Hs' as (_ & -> & H1 & H2).
    exists r, c, e1, e2. cbv zeta. simpl fst. simpl snd.
    destruct (edge_xy_on_boundary ox oy cs th r c _ e1 Hcs H1) as [Ht1 Hb1].
    destruct (edge_xy_on_boundary ox oy cs th r c _ e2 Hcs H2) as [Ht2 Hb2].
    split; [exact Hr|]. split; [exact Hc|]. split; [reflexivity|]. tauto.
Qed.
End ExactMarching.

Section Binary32Marching.
Import Binary32.
Local Existing Instance Binary32.ops.

(** C10 as stated fails in binary32, in two ways.  With corner values
    [-2^127] and [2^127] and threshold [2^127], all finite, the
    differences [threshold - v0] and [v1 - v0] overflow to infinity,
    [lerp1d] returns a NaN and so does the x coordinate of the second
    endpoint.  And with no overflow at all, for cells of size 0.1f the
    endpoint on the right side of cell (0, 6), at parameter 0.5, has the
    x coordinate [(0 + 6 * 0.1f) + 0.1f], which is greater than
    [0 + 7 * 0.1f]: the right side of the square as [get_edge_point]
    computes it is not the next grid line. *)
Lemma endpoint_off_cell_binary32 :
  (let lo := of_int32 (- 2 ^ 127) in
   let hi := of_int32 (2 ^ 127) in
   let k := Corners lo hi lo lo in
   valid_binary prec emax lo = true ∧ valid_binary prec emax hi = true
   ∧ cell_case hi k = 4
   ∧ cell_edges 4 false = [(Right, Top)]
   ∧ crossing hi k Top
   ∧ edge_t hi k Top = S754_nan
   ∧ flt (edge_t hi k Top) (of_int 0) = false
   ∧ fle (edge_t hi k Top) (of_int 1) = false
   ∧ fle (of_int 0) (edge_t hi k Top) = false
   ∧ marching_squares 2 2 (of_int 0) (of_int 0) (of_int 1) hi
       (Memory [lo; hi; lo; lo] [] (replicate 8 (of_int 0)))
     = Some (1, Memory [lo; hi; lo; lo] []
                  ([of_int 1; of_int 0; S754_nan; of_int 0]
                   ++ replicate 4 (of_int 0))))
  ∧
  (let cs := lit32 1 10 in
   let k := corners_of (grid_values ridge_memory) 8 0 6 in
   let x1 := fadd (fadd zero32 (fmul (of_int 6) cs)) cs in
   let next := fadd zero32 (fmul (of_int (6 + 1)) cs) in
   cell_case half32 k = 4
   ∧ edge_t half32 k Right = half32 ∧ edge_t half32 k Top = half32
   ∧ (edge_xy zero32 zero32 cs half32 0 6 k Right).1 = x1
   ∧ flt next x1 = true ∧ fle x1 next = false
   ∧ ∃ segs,
       marching_squares 8 2 zero32 zero32 cs half32 ridge_memory
       = Some (1, set_segments ridge_memory segs)
       ∧ segs !! 0%nat = Some x1).
Proof.
  split.
  - vm_compute. repeat split; discriminate.
  - vm_compute. repeat split. eexists. split; reflexivity.
Qed.
End Binary32Marching.

Section Diamond.
Context {F : Type} `{FloatOps F}.
Local Open Scope flt_scope.

Lemma diamond_sweep origin_x origin_y cell_size :
  half_way →
  sweep_segments single_peak 3 3 origin_x origin_y cell_size (flit 1 2)
  = diamond origin_x origin_y cell_size.
Proof.
  intros (H0 & H1 & H01 & H10).
  unfold sweep_segments, row_segments.
  change (seqZ 0 (3 - 1)) with [0; 1]%Z.
  cbn [mbind list_bind app].
  change (corners_of single_peak 3 0 0)
    with (Corners (flit 0 1) (flit 0 1) (flit 1 1) (flit 0 1)).
  change (corners_of single_peak 3 0 1)
    with (Corners (flit 0 1) (flit 0 1) (flit 0 1) (flit 1 1)).
  change (corners_of single_peak 3 1 0)
    with (Corners (flit 0 1) (flit 1 1) (flit 0 1) (flit 0 1)).
  change (corners_of single_peak 3 1 1)
    with (Corners (flit 1 1) (flit 0 1) (flit 0 1) (flit 0 1)).
  unfold cell_segments, cell_case, inside. simpl c_tl. simpl c_tr.
  simpl c_br. simpl c_bl. rewrite !H0, !H1.
  vm_compute case_index.
  change (cell_edges 2 _) with [(Bottom, Right)].
  change (cell_edges 1 _) with [(Left, Bottom)].
  change (cell_edges 4 _) with [(Right, Top)].
  change (cell_edges 8 _) with [(Top, Left)].
  unfold edge_xy, edge_t, edge_ends. simpl.
  rewrite !H01, !H10. reflexivity.
Qed.
End Diamond.

Section DiamondRun.
Context {F : Type} `{FloatOps F}.

Lemma single_peak_run origin_x origin_y cell_size edges (segs : list F) :
  half_way → (32 ≤ length segs)%nat →
  marching_squares 3 3 origin_x origin_y cell_size (flit 1 2)
    (Memory single_peak edges segs)
  = Some (4, Memory single_peak edges
               ((diamond origin_x origin_y cell_size ≫= segment_floats)
                ++ drop 16 segs)).
Proof.
  intros Hhalf Hlen.
  destruct (marching_squares_flat 3 3 origin_x origin_y cell_size (flit 1 2)
              (Memory single_peak edges segs)) as [Hrun _];
    [lia|lia|reflexivity|simpl; lia|].
  rewrite Hrun. simpl grid_values. rewrite diamond_sweep by assumption.
  reflexivity.
Qed.
End DiamondRun.

Section Instances.
Lemma half_way_binary32 : @half_way _ Binary32.ops.
Proof. vm_compute. auto. Qed.

Lemma half_way_exact : @half_way _ Exact.ops.
Proof.
  unfold half_way, lerp1d. simpl.
  repeat split.
  - apply Rleb_false. lra.
  - apply Rleb_true. lra.
  - replace (Exact.Rltb _ _) with false; [field|].
    symmetry. apply Rltb_false. rewrite Rabs_right; lra.
  - replace (Exact.Rltb _ _) with false; [field|].
    symmetry. apply Rltb_false. rewrite Rabs_left; lra.
Qed.

(** C2. For the 3x3 grid of zeros with 1.0 at its centre and threshold
    0.5, whatever the origin and the cell size, [marching_squares] returns
    4 and stores 4 segments, one per cell, each between the points at
    parameter 1/2 of the two edges of the cell that end at the centre grid
    point.  First in binary32, then in exact arithmetic, where these are
    the midpoints [(cx -+ half, cy)] and [(cx, cy -+ half)] of the four
    grid edges around the centre [(cx, cy)]: a diamond. *)
Theorem single_peak_diamond :
  (∀ (origin_x origin_y cell_size : Binary32.float32) edges segs,
     (32 ≤ length segs)%nat →
     marching_squares 3 3 origin_x origin_y cell_size
       (Binary32.lit32 1 2) (Memory single_peak edges segs)
     = Some (4, Memory single_peak edges
                  ((diamond origin_x origin_y cell_size ≫= segment_floats)
                   ++ drop 16 segs)))
  ∧
  (∀ (origin_x origin_y cell_size : R) edges segs,
     (32 ≤ length segs)%nat →
     let half := (cell_size / 2)%R in
     let cx := (origin_x + cell_size)%R in
     let cy := (origin_y + cell_size)%R in
     marching_squares 3 3 origin_x origin_y cell_size
       (1 / 2)%R (Memory single_peak edges segs)
     = Some (4, Memory single_peak edges
                  ([ (cx - half)%R; cy; cx; (cy - half)%R;
                     cx; (cy - half)%R; (cx + half)%R; cy;
                     cx; (cy + half)%R; (cx - half)%R; cy;
                     (cx + half)%R; cy; cx; (cy + half)%R ]
                   ++ drop 16 segs))).
Proof.
  split.
  - intros. apply (single_peak_run (H := Binary32.ops));
      [apply half_way_binary32|assumption].
  - intros ox oy cs edges segs Hlen half cx cy.
    pose proof (single_peak_run (H := Exact.ops) ox oy cs edges segs
                  half_way_exact Hlen) as Hrun.
    simpl in Hrun. rewrite Hrun. subst half cx cy. cbn [app].
    do 3 f_equal. repeat (apply f_equal2; [lra|]). reflexivity.
Qed.
End Instances.

Section Interpolation.
(** C3. The crossing point of an edge lies at parameter
    [t = (threshold - v0) / (v1 - v0)], with [v0] and [v1] the values at
    the two corners of the edge, and at [t = 0.5] when
    [|v1 - v0| < 1e-10]; the point is
    [(origin + index * cell_size) + offset * cell_size], the offset being
    0, [t] or 1, which in exact arithmetic is
    [origin + (index + offset) * cell_size]; both endpoints of every
    segment [marching_squares] stores are such points, of two edges of
    one cell.  For [v0 = 0], [v1 = 10] and [threshold = 3] the parameter
    is 3/10 in exact arithmetic and the float 0.3f in binary32. *)
Theorem crossing_point_interpolation :
  (* the parameter, in every arithmetic *)
  (∀ {F : Type} `{FloatOps F} (v0 v1 threshold : F),
     lerp1d v0 v1 threshold
     = if flt (fabsf (fsub v1 v0)) (flit 1 10000000000) then flit 1 2
       else fdiv (fsub threshold v0) (fsub v1 v0))
  ∧
  (* the point of each edge, in every arithmetic *)
  (∀ {F : Type} `{FloatOps F} cols origin_x origin_y cell_size threshold
     (m : memory F) r c (k : corners F) e,
     has_corners (grid_values m) cols r c k →
     let x0 := fadd origin_x (fmul (of_int c) cell_size) in
     let y0 := fadd origin_y (fmul (of_int r) cell_size) in
     let t v0 v1 := fmul (lerp1d v0 v1 threshold) cell_size in
     get_edge_point cols origin_x origin_y cell_size r c (edge_code e) threshold m
     = Some (match e with
             | Top => (fadd x0 (t (c_tl k) (c_tr k)), y0)
             | Right => (fadd x0 cell_size, fadd y0 (t (c_tr k) (c_br k)))
             | Bottom => (fadd x0 (t (c_bl k) (c_br k)), fadd y0 cell_size)
             | Left => (x0, fadd y0 (t (c_tl k) (c_bl k)))
             end, m))
  ∧
  (* the endpoints the sweep stores are these points, in every arithmetic *)
  (∀ {F : Type} `{FloatOps F} cols rows origin_x origin_y cell_size threshold
     (m : memory F),
     2 ≤ cols → 2 ≤ rows →
     Z.of_nat (length (grid_values m)) = rows * cols →
     8 * (rows - 1) * (cols - 1) ≤ Z.of_nat (length (segments_out m)) →
     ∃ S : list ((F * F) * (F * F)),
       marching_squares cols rows origin_x origin_y cell_size threshold m
       = Some (Z.of_nat (length S),
               set_segments m
                 ((S ≫= segment_floats)
                  ++ drop (4 * length S) (segments_out m)))
       ∧ ∀ s, s ∈ S →
           ∃ r c k e1 e2,
             0 ≤ r < rows - 1 ∧ 0 ≤ c < cols - 1
             ∧ has_corners (grid_values m) cols r c k
             ∧ get_edge_point cols origin_x origin_y cell_size
                 r c (edge_code e1) threshold m = Some (s.1, m)
             ∧ get_edge_point cols origin_x origin_y cell_size
                 r c (edge_code e2) threshold m = Some (s.2, m))
  ∧
  (* the same point in exact arithmetic: origin + (index + offset) * cell_size *)
  (∀ (origin_x origin_y cell_size threshold : R) r c (k : corners R) e,
     let t := edge_t threshold k e in
     edge_xy origin_x origin_y cell_size threshold r c k e
     = match e with
       | Top => (origin_x + (IZR c + t) * cell_size,
                 origin_y + (IZR r + 0) * cell_size)
       | Right => (origin_x + (IZR c + 1) * cell_size,
                   origin_y + (IZR r + t) * cell_size)
       | Bottom => (origin_x + (IZR c + t) * cell_size,
                    origin_y + (IZR r + 1) * cell_size)
       | Left => (origin_x + (IZR c + 0) * cell_size,
                  origin_y + (IZR r + t) * cell_size)
       end%R)
  ∧
  (* v0 = 0, v1 = 10, threshold = 3 *)
  lerp1d 0%R 10%R 3%R = (3 / 10)%R
  ∧
  lerp1d (Binary32.of_int32 0) (Binary32.of_int32 10) (Binary32.of_int32 3)
  = Binary32.lit32 3 10.
Proof.
  split; [reflexivity|]. split; [|split; [|split; [|split]]].
  - intros F H cols ox oy cs th m r c k e Hk x0 y0 t.
    rewrite (get_edge_point_run cols ox oy cs th m r c k e Hk).
    destruct e; reflexivity.
  - intros F H cols rows ox oy cs th m Hcols Hrows Hg Hroom.
    destruct (marching_squares_segments cols rows ox oy cs th m)
      as (S & Hrun & Hin); [lia|lia|assumption..|].
    exists S. split; [exact Hrun|].
    intros s Hs. destruct (Hin s Hs) as (r & c & e1 & e2 & Hr & Hc & Hs').
    cbv zeta in Hs'. destruct Hs' as (Hk & -> & _).
    exists r, c, (corners_of (grid_values m) cols r c), e1, e2.
    split; [exact Hr|]. split; [exact Hc|]. split; [exact Hk|].
    split; now apply get_edge_point_run.
  - intros ox oy cs th r c k e t. subst t.
    unfold edge_xy. generalize (edge_t th k e). intros t.
    destruct e; simpl; f_equal; lra.
  - unfold lerp1d. simpl. replace (Exact.Rltb _ _) with false; [field|].
    symmetry. apply Rltb_false. rewrite Rabs_right; lra.
  - vm_compute. reflexivity.
Qed.
End Interpolation.

(** ** Exact arithmetic: distance and bounding box *)

Tactic Notation "destruct_casts_eq" ident(r) ident(E) :=
  match goal with
  | |- (?o ≫= _) = Some _ → _ =>
      destruct o as [r|] eqn:E; simpl; [|discriminate]
  end.

Section ExactBridge.
Local Open Scope R_scope.
Implicit Types (e : bridge R).

Lemma sum_sq_nonneg a b : 0 <= a * a + b * b.
Proof.
  pose proof (Rle_0_sqr a). pose proof (Rle_0_sqr b). unfold Rsqr in *. lra.
Qed.

Lemma sq_lt_bound a b c : 0 < c → a * a + b * b < c * c → - c < a < c.
Proof.
  intros Hc Hsum. pose proof (Rle_0_sqr b) as Hb. unfold Rsqr in Hb.
  split.
  - destruct (Rlt_le_dec (- c) a) as [|Hle]; [assumption|].
    exfalso. assert (c * c <= a * a) by nra. lra.
  - destruct (Rlt_le_dec a c) as [|Hle]; [assumption|].
    exfalso. assert (c * c <= a * a) by nra. lra.
Qed.

Lemma Int_part_IZR (n : Z) : Int_part (IZR n) = n.
Proof. symmetry. apply Int_part_spec. lra. Qed.

Lemma to_intR_IZR (n z : Z) : Exact.to_intR (IZR n) = Some z → z = n.
Proof.
  unfold Exact.to_intR.
  destruct (Rle_dec 0 (IZR n)).
  - rewrite Int_part_IZR. destruct (_ && _); congruence.
  - rewrite <- opp_IZR, Int_part_IZR. destruct (_ && _); [|congruence].
    intros [= <-]. lia.
Qed.

Lemma floorR_le x : IZR (Int_part x) <= x.
Proof. apply base_Int_part. Qed.

Lemma ceilR_ge x : x <= IZR (- Int_part (- x)).
Proof. rewrite opp_IZR. pose proof (floorR_le (- x)). lra. Qed.

Lemma to_int_floor x z :
  to_int (floorf x) = Some z → IZR z <= x.
Proof.
  simpl. unfold Exact.floorR. intros Hz. apply to_intR_IZR in Hz as ->.
  apply floorR_le.
Qed.

Lemma to_int_ceil x z :
  to_int (ceilf x) = Some z → x <= IZR z.
Proof.
  simpl. unfold Exact.ceilR. intros Hz. apply to_intR_IZR in Hz as ->.
  apply ceilR_ge.
Qed.

(** The squared distance is that to a point [(nx, ny)] whose coordinates
    lie between those of the endpoints. *)
Lemma dist_to_segment_sq_near px py ax ay bx by_ :
  ∃ nx ny,
    dist_to_segment_sq px py ax ay bx by_
      = (px - nx) * (px - nx) + (py - ny) * (py - ny)
    ∧ Rmin ax bx <= nx <= Rmax ax bx
    ∧ Rmin ay by_ <= ny <= Rmax ay by_.
Proof.
  unfold dist_to_segment_sq. simpl.
  destruct (Exact.Rltb _ _) as [|].
  - exists ax, ay. split; [reflexivity|].
    unfold Rmin, Rmax. repeat destruct (Rle_dec _ _); lra.
  - set (t0 := ((px - ax) * (bx - ax) + (py - ay) * (by_ - ay)) /
               ((bx - ax) * (bx - ax) + (by_ - ay) * (by_ - ay))).
    destruct (Exact.Rltb t0 (0 / 1)) eqn:E0;
      [apply Rltb_true in E0|apply Rltb_false in E0];
      (destruct (Exact.Rltb (1 / 1) _) eqn:E1;
        [apply Rltb_true in E1|apply Rltb_false in E1]);
      match goal with
      | |- context [ax + ?t * (bx - ax)] =>
          exists (ax + t * (bx - ax)), (ay + t * (by_ - ay));
          split; [reflexivity|];
          unfold Rmin, Rmax; repeat destruct (Rle_dec _ _); nra
      end.
Qed.

Lemma dist_to_segment_sq_nonneg px py ax ay bx by_ :
  0 <= dist_to_segment_sq px py ax ay bx by_.
Proof.
  destruct (dist_to_segment_sq_near px py ax ay bx by_) as (nx & ny & Hd & _).
  rewrite Hd. apply sum_sq_nonneg.
Qed.

Variables (cols rows : Z) (origin_x origin_y cell_size baseSigma : R).
Hypothesis cell_size_pos : 0 < cell_size.
Hypothesis baseSigma_pos : 0 < baseSigma.

Lemma div_ge_mult (z : Z) a : IZR z <= a / cell_size → IZR z * cell_size <= a.
Proof.
  intros Hz. replace a with (a / cell_size * cell_size) by (field; lra).
  apply Rmult_le_compat_r; lra.
Qed.

Lemma div_le_mult (z : Z) a : a / cell_size <= IZR z → a <= IZR z * cell_size.
Proof.
  intros Hz. replace a with (a / cell_size * cell_size) at 1 by (field; lra).
  apply Rmult_le_compat_r; lra.
Qed.

Lemma bridge_sigma_pos e : 0 < bridge_sigma baseSigma e.
Proof.
  unfold bridge_sigma. simpl.
  apply Rlt_le_trans with baseSigma; [assumption|apply Rmax_l].
Qed.

Lemma bridge_cutoff_pos e : 0 < bridge_cutoff baseSigma e.
Proof.
  pose proof (bridge_sigma_pos e) as Hs. unfold bridge_cutoff.
  generalize dependent (bridge_sigma baseSigma e). intros s Hs. simpl. lra.
Qed.

(** In exact arithmetic the box holds every cell that passes the test. *)
Lemma hit_in_box e box r c :
  bridge_box cols rows origin_x origin_y cell_size baseSigma e = Some box →
  (0 ≤ r < rows)%Z → (0 ≤ c < cols)%Z →
  cell_hit origin_x origin_y cell_size baseSigma e r c = true →
  in_box box r c = true.
Proof.
  intros Hbox Hr Hc Hhit.
  pose proof (bridge_cutoff_pos e) as Hcut.
  unfold cell_hit, cell_dist_sq in Hhit. simpl in Hhit.
  apply Rltb_true in Hhit.
  destruct (dist_to_segment_sq_near
              (origin_x + IZR c * cell_size) (origin_y + IZR r * cell_size)
              (b_ax e) (b_ay e) (b_bx e) (b_by e))
    as (nx & ny & Hd & Hnx & Hny).
  simpl in Hd. rewrite Hd in Hhit. clear Hd.
  unfold bridge_cutoff_sq in Hhit.
  set (cut := bridge_cutoff baseSigma e) in *. simpl in Hhit.
  set (px := origin_x + IZR c * cell_size) in *.
  set (py := origin_y + IZR r * cell_size) in *.
  assert (- cut < px - nx < cut) as Hx by (eapply sq_lt_bound; eauto).
  assert (- cut < py - ny < cut) as Hy
    by (eapply sq_lt_bound; [eauto|rewrite Rplus_comm; eauto]).
  revert Hbox. unfold bridge_box. cbv zeta. fold cut.
  destruct_casts_eq r0 Er0. destruct_casts_eq r1 Er1.
  destruct_casts_eq c0 Ec0. destruct_casts_eq c1 Ec1.
  intros Hbox. simplify_eq.
  apply to_int_floor in Er0, Ec0. apply to_int_ceil in Er1, Ec1.
  simpl in Er0, Er1, Ec0, Ec1. fold cut in Er0, Er1, Ec0, Ec1.
  clear Hhit.
  apply div_ge_mult in Er0, Ec0. apply div_le_mult in Er1, Ec1.
  assert (r0 < r ∧ r < r1 ∧ c0 < c ∧ c < c1)%Z as (Hr0 & Hr1 & Hc0 & Hc1).
  { repeat split; apply lt_IZR;
      apply (Rmult_lt_reg_r cell_size); try assumption;
      subst px py; lra. }
  unfold in_box.
  destruct (Z.ltb_spec r0 0), (Z.gtb_spec r1 (rows - 1)),
           (Z.ltb_spec c0 0), (Z.gtb_spec c1 (cols - 1));
    cmp_cases.
Qed.
End ExactBridge.

Section ExactField.
Local Open Scope R_scope.
Implicit Types (e : bridge R) (m : memory R).
Variable expf : R → R.
Variables (cols rows : Z) (origin_x origin_y cell_size base_sigma : R).
Hypothesis cols_pos : (0 < cols)%Z.
Hypothesis cell_size_pos : 0 < cell_size.

Abbreviation baseSigma := (Rmax base_sigma (cell_size * (5 / 2))).

Lemma baseSigma_pos : 0 < baseSigma.
Proof.
  apply Rlt_le_trans with (cell_size * (5 / 2)); [lra|apply Rmax_r].
Qed.

Lemma box_covers_exact e :
  is_Some (bridge_box cols rows origin_x origin_y cell_size baseSigma e) →
  box_covers cols rows origin_x origin_y cell_size baseSigma e.
Proof.
  intros [box Hbox]. exists box. split; [exact Hbox|].
  intros r c Hr Hc Hhit.
  apply (hit_in_box cols rows origin_x origin_y cell_size baseSigma
           cell_size_pos baseSigma_pos e box r c Hbox Hr Hc Hhit).
Qed.
End ExactField.

Section ExactDistance.
Local Open Scope R_scope.

(** On an edge that is not degenerate, the value computed is the least
    squared distance from the point to the points of the segment. *)
Lemma dist_to_segment_sq_least px py ax ay bx by_ s :
  1 / 1000000000000 <= (bx - ax) * (bx - ax) + (by_ - ay) * (by_ - ay) →
  0 <= s <= 1 →
  dist_to_segment_sq px py ax ay bx by_
  <= (px - (ax + s * (bx - ax))) * (px - (ax + s * (bx - ax)))
     + (py - (ay + s * (by_ - ay))) * (py - (ay + s * (by_ - ay))).
Proof.
  intros Hlen Hs. unfold dist_to_segment_sq. simpl.
  set (dx := bx - ax) in *. set (dy := by_ - ay) in *.
  set (L := dx * dx + dy * dy) in *.
  replace (Exact.Rltb L (1 / 1000000000000)) with false
    by (symmetry; apply Rltb_false; lra).
  set (N := (px - ax) * dx + (py - ay) * dy).
  set (t0 := N / L).
  assert (t0 * L = N) as Ht0 by (unfold t0; field; lra).
  assert (∀ t, (px - (ax + s * dx)) * (px - (ax + s * dx))
               + (py - (ay + s * dy)) * (py - (ay + s * dy))
               - ((px - (ax + t * dx)) * (px - (ax + t * dx))
                  + (py - (ay + t * dy)) * (py - (ay + t * dy)))
               = L * (s - t) * (s + t - 2 * t0)) as Hdiff.
  { intros t. unfold L. replace (2 * t0) with (2 * (N / L)) by reflexivity.
    unfold N, L. field. fold L. lra. }
  assert (0 < L) as HL by lra.
  destruct (Exact.Rltb t0 (0 / 1)) eqn:E0;
    [apply Rltb_true in E0|apply Rltb_false in E0];
    (destruct (Exact.Rltb (1 / 1) _) eqn:E1;
      [apply Rltb_true in E1|apply Rltb_false in E1]);
    match goal with
    | |- context [ax + ?t * dx] =>
        specialize (Hdiff t);
        assert (0 <= L * (s - t) * (s + t - 2 * t0));
        [|lra]
    end.
  - lra.
  - replace (L * (s - 0 / 1) * (s + 0 / 1 - 2 * t0))
      with (L * (s * (s - 2 * t0))) by (field).
    apply Rmult_le_pos; [lra|]. apply Rmult_le_pos; lra.
  - replace (L * (s - 1 / 1) * (s + 1 / 1 - 2 * t0))
      with (L * ((1 - s) * (2 * t0 - s - 1))) by (field).
    apply Rmult_le_pos; [lra|]. apply Rmult_le_pos; lra.
  - replace (L * (s - t0) * (s + t0 - 2 * t0))
      with (L * ((s - t0) * (s - t0))) by (field).
    apply Rmult_le_pos; [lra|]. apply Rle_0_sqr.
Qed.

(** The value computed is the squared distance to a point of the segment. *)
Lemma dist_to_segment_sq_attained px py ax ay bx by_ :
  ∃ s, 0 <= s <= 1 ∧
    dist_to_segment_sq px py ax ay bx by_
    = (px - (ax + s * (bx - ax))) * (px - (ax + s * (bx - ax)))
      + (py - (ay + s * (by_ - ay))) * (py - (ay + s * (by_ - ay))).
Proof.
  unfold dist_to_segment_sq. simpl.
  destruct (Exact.Rltb _ _) as [|].
  - exists 0. split; [lra|]. f_equal; f_equal; lra.
  - set (t0 := ((px - ax) * (bx - ax) + (py - ay) * (by_ - ay)) /
               ((bx - ax) * (bx - ax) + (by_ - ay) * (by_ - ay))).
    destruct (Exact.Rltb t0 (0 / 1)) eqn:E0;
      [apply Rltb_true in E0|apply Rltb_false in E0];
      (destruct (Exact.Rltb (1 / 1) _) eqn:E1;
        [apply Rltb_true in E1|apply Rltb_false in E1]);
      match goal with
      | |- context [ax + ?t * (bx - ax)] =>
          exists t; split; [lra|reflexivity]
      end.
Qed.

(** A sample point at the first endpoint is at computed distance 0. *)
Lemma dist_to_segment_sq_first ax ay bx by_ :
  dist_to_segment_sq ax ay ax ay bx by_ = 0.
Proof.
  pose proof (dist_to_segment_sq_nonneg ax ay ax ay bx by_) as Hge.
  unfold dist_to_segment_sq in *. simpl in *.
  destruct (Exact.Rltb _ _) as [|] eqn:Elen; [lra|].
  apply Rltb_false in Elen.
  pose proof (dist_to_segment_sq_least ax ay ax ay bx by_ 0) as Hle.
  unfold dist_to_segment_sq in Hle. simpl in Hle.
  replace (Exact.Rltb _ (1 / 1000000000000)) with false in Hle
    by (symmetry; apply Rltb_false; lra).
  specialize (Hle ltac:(lra) ltac:(lra)).
  lra.
Qed.
End ExactDistance.

(** ** Properties of the field accumulator *)

Section EdgeBuffers.
Context {F : Type} `{FloatOps F}.

Lemma bridges_at_one (e : bridge F) : bridges_at (bridge_floats e) [e].
Proof.
  intros i e' Hi. destruct i as [|i]; [|discriminate].
  injection Hi as <-. now destruct e.
Qed.

Lemma bridges_at_two (e1 e2 : bridge F) :
  bridges_at (bridge_floats e1 ++ bridge_floats e2) [e1; e2].
Proof.
  intros i e' Hi. destruct i as [|[|i]]; [| |discriminate];
    injection Hi as <-; now destruct e1, e2.
Qed.

(** A call with a single edge: what every cell of the grid holds after it. *)
Lemma single_bridge_cells (expf : F → F) cols rows
    origin_x origin_y cell_size base_sigma (g segs : list F) (e : bridge F) :
  let baseSigma := fmaxf base_sigma (fmul cell_size (flit 5 2)) in
  1 ≤ cols →
  Z.of_nat (length g) = rows * cols →
  is_Some (bridge_box cols rows origin_x origin_y cell_size baseSigma e) →
  ∃ g',
    add_bridge_field expf cols rows origin_x origin_y cell_size 1 base_sigma
      (Memory g (bridge_floats e) segs)
    = Some (tt, Memory g' (bridge_floats e) segs)
    ∧ ∀ r c, 0 ≤ r < rows → 0 ≤ c < cols →
        ∃ v, read g (r * cols + c) = Some v
          ∧ read g' (r * cols + c)
            = Some (if bridge_touches cols rows origin_x origin_y cell_size
                         baseSigma e r c
                    then fadd v (cell_gain expf origin_x origin_y cell_size
                                   baseSigma e r c)
                    else v).
Proof.
  intros baseSigma Hcols Hlen Hbox.
  pose proof (add_bridge_field_run expf cols rows origin_x origin_y cell_size
                base_sigma (Memory g (bridge_floats e) segs) [e]) as Hrun.
  simpl in Hrun. fold baseSigma in Hrun.
  eexists. split.
  { apply Hrun; [lia|assumption|apply bridges_at_one|].
    intros e' He'. apply list_elem_of_singleton in He' as ->. exact Hbox. }
  intros r c Hr Hc.
  destruct (read_Some g (r * cols + c) ltac:(nia)) as [v Hv].
  exists v. split; [exact Hv|].
  revert Hv. unfold read.
  replace (0 <=? r * cols + c) with true by (symmetry; apply Z.leb_le; nia).
  intros Hv. unfold bridge_update. rewrite grid_update_lookup, Hv. simpl.
  rewrite Z2Nat.id by nia.
  now rewrite cell_index_div, cell_index_mod by lia.
Qed.
End EdgeBuffers.

Section FieldProperties.
Local Open Scope R_scope.


(** C4 (amended). For a call with a single bridge edge, with
    [bridgeSigma = max (max base_sigma (2.5 * cell_size))
    (0.12 * edgeLength)] and the bounding-box casts defined.  In every
    arithmetic, a cell whose sample point fails the cutoff test
    [dSq < (3 * bridgeSigma)^2] keeps its value.  In exact arithmetic
    with [cell_size > 0], a cell whose sample point is farther than
    [3 * bridgeSigma] from every point of the edge keeps its value, and a
    cell whose sample point lies on the edge has exactly 1 added to its
    value, provided the edge is not degenerate (squared length at least
    1e-12) or the sample point is its first endpoint:
    [dist_to_segment_sq] measures a degenerate edge from its first
    endpoint. *)
Theorem bridge_cutoff_containment_exact :
  (* outside the cutoff: in every arithmetic *)
  (∀ {F : Type} `{FloatOps F} (expf : F → F) cols rows
     (origin_x origin_y cell_size base_sigma : F) (g segs : list F)
     (e : bridge F),
     let edx := fsub (b_bx e) (b_ax e) in
     let edy := fsub (b_by e) (b_ay e) in
     let edgeLength := sqrtf (fadd (fmul edx edx) (fmul edy edy)) in
     let baseSigma := fmaxf base_sigma (fmul cell_size (flit 5 2)) in
     let bridgeSigma := fmaxf baseSigma (fmul edgeLength (flit 12 100)) in
     let cutoff := fmul (flit 3 1) bridgeSigma in
     let dSq (r c : Z) :=
       dist_to_segment_sq
         (fadd origin_x (fmul (of_int c) cell_size))
         (fadd origin_y (fmul (of_int r) cell_size))
         (b_ax e) (b_ay e) (b_bx e) (b_by e) in
     (1 ≤ cols)%Z →
     Z.of_nat (length g) = (rows * cols)%Z →
     is_Some (bridge_box cols rows origin_x origin_y cell_size baseSigma e) →
     ∃ g',
       add_bridge_field expf cols rows origin_x origin_y cell_size 1
         base_sigma (Memory g (bridge_floats e) segs)
       = Some (tt, Memory g' (bridge_floats e) segs)
       ∧ ∀ r c, (0 ≤ r < rows)%Z → (0 ≤ c < cols)%Z →
           ∃ v, read g (r * cols + c) = Some v
             ∧ (flt (dSq r c) (fmul cutoff cutoff) = false →
                read g' (r * cols + c) = Some v))
  ∧
  (* on the edge, and far from it: in exact arithmetic *)
  (∀ cols rows (origin_x origin_y cell_size base_sigma : R)
     (g segs : list R) (e : bridge R),
     let lengthSq :=
       (b_bx e - b_ax e) * (b_bx e - b_ax e)
       + (b_by e - b_ay e) * (b_by e - b_ay e) in
     let bridgeSigma :=
       Rmax (Rmax base_sigma (cell_size * (5 / 2)))
            (sqrt lengthSq * (12 / 100)) in
     let sample (r c : Z) : R * R :=
       (origin_x + IZR c * cell_size, origin_y + IZR r * cell_size) in
     let on_edge (s : R) : R * R :=
       (b_ax e + s * (b_bx e - b_ax e), b_ay e + s * (b_by e - b_ay e)) in
     let dist (p q : R * R) :=
       sqrt ((p.1 - q.1) * (p.1 - q.1) + (p.2 - q.2) * (p.2 - q.2)) in
     (1 ≤ cols)%Z →
     Z.of_nat (length g) = (rows * cols)%Z →
     0 < cell_size →
     is_Some (bridge_box cols rows origin_x origin_y cell_size
                (Rmax base_sigma (cell_size * (5 / 2))) e) →
     ∃ g',
       add_bridge_field exp cols rows origin_x origin_y cell_size 1
         base_sigma (Memory g (bridge_floats e) segs)
       = Some (tt, Memory g' (bridge_floats e) segs)
       ∧ ∀ r c, (0 ≤ r < rows)%Z → (0 ≤ c < cols)%Z →
           ∃ v, read g (r * cols + c) = Some v
             ∧ ((∀ s, 0 <= s <= 1 →
                   3 * bridgeSigma < dist (sample r c) (on_edge s)) →
                read g' (r * cols + c) = Some v)
             ∧ (∀ s, 0 <= s <= 1 → sample r c = on_edge s →
                1 / 1000000000000 <= lengthSq ∨ s = 0 →
                read g' (r * cols + c) = Some (v + 1))).
Proof.
  split.
  - intros F H expf cols rows origin_x origin_y cell_size base_sigma g segs e
      edx edy edgeLength baseSigma bridgeSigma cutoff dSq Hcols Hlen Hbox.
    destruct (single_bridge_cells expf cols rows origin_x origin_y cell_size
                base_sigma g segs e Hcols Hlen Hbox) as (g' & Hrun & Hcells).
    exists g'. split; [exact Hrun|].
    intros r c Hr Hc. destruct (Hcells r c Hr Hc) as (v & Hv & Hv').
    exists v. split; [exact Hv|]. intros Hmiss. rewrite Hv'.
    change (fmaxf base_sigma (fmul cell_size (flit 5 2))) with baseSigma.
    unfold bridge_touches. destruct Hbox as [box ->].
    change (cell_hit origin_x origin_y cell_size baseSigma e r c)
      with (flt (dSq r c) (fmul cutoff cutoff)).
    now rewrite Hmiss, andb_false_r.
  - intros cols rows origin_x origin_y cell_size base_sigma g segs e
      lengthSq bridgeSigma sample on_edge dist Hcols Hlen Hcs Hbox.
    set (baseSigma := Rmax base_sigma (cell_size * (5 / 2))) in *.
    pose proof (baseSigma_pos cell_size base_sigma Hcs) as HbS.
    fold baseSigma in HbS.
    destruct (single_bridge_cells exp cols rows origin_x origin_y cell_size
                base_sigma g segs e Hcols Hlen Hbox) as (g' & Hrun & Hcells).
    exists g'. split; [exact Hrun|].
    intros r c Hr Hc. destruct (Hcells r c Hr Hc) as (v & Hv & Hread).
    exists v. split; [exact Hv|].
    change (fmaxf base_sigma (fmul cell_size (flit 5 2))) with baseSigma
      in Hread.
    rewrite Hread. clear Hread Hrun Hcells.
    pose proof (bridge_sigma_pos baseSigma HbS e) as Hsig.
    change (bridge_sigma baseSigma e) with bridgeSigma in Hsig.
    set (dSq := dist_to_segment_sq (sample r c).1 (sample r c).2
                  (b_ax e) (b_ay e) (b_bx e) (b_by e)).
    assert (cell_hit origin_x origin_y cell_size baseSigma e r c
            = Exact.Rltb dSq (3 * bridgeSigma * (3 * bridgeSigma))) as Hhit.
    { unfold cell_hit, cell_dist_sq, bridge_cutoff_sq, bridge_cutoff.
      change (bridge_sigma baseSigma e) with bridgeSigma.
      simpl. f_equal. lra. }
    assert (dSq = 0 →
            Some (if bridge_touches cols rows origin_x origin_y cell_size
                       baseSigma e r c
                  then v + cell_gain exp origin_x origin_y cell_size
                             baseSigma e r c
                  else v) = Some (v + 1)) as Hzero.
    { intros Hsq.
      assert (cell_hit origin_x origin_y cell_size baseSigma e r c = true)
        as Hin.
      { rewrite Hhit. apply Rltb_true. rewrite Hsq. nra. }
      destruct Hbox as [box Hbox].
      unfold bridge_touches. rewrite Hbox, Hin.
      rewrite (hit_in_box cols rows origin_x origin_y cell_size baseSigma
                 Hcs HbS e box r c Hbox) by (lia || done).
      simpl. do 2 f_equal.
      unfold cell_gain, cell_dist_sq. fold (sample r c).1.
      change (dist_to_segment_sq _ _ _ _ _ _) with dSq.
      rewrite Hsq. simpl. replace (- 0 * _) with 0 by lra. apply exp_0. }
    split.
    + intros Hfar.
      assert (cell_hit origin_x origin_y cell_size baseSigma e r c = false)
        as Hmiss.
      { rewrite Hhit. apply Rltb_false.
        destruct (dist_to_segment_sq_attained (sample r c).1 (sample r c).2
                    (b_ax e) (b_ay e) (b_bx e) (b_by e)) as (s & Hs & Hd).
        fold dSq in Hd. specialize (Hfar s Hs). unfold dist in Hfar.
        simpl in Hfar, Hd. rewrite <- Hd in Hfar.
        assert (0 <= dSq) as Hge by apply dist_to_segment_sq_nonneg.
        rewrite <- (sqrt_sqrt dSq Hge).
        apply Rmult_le_compat; lra. }
      unfold bridge_touches. destruct Hbox as [box ->].
      now rewrite Hmiss, andb_false_r.
    + intros s Hs Hon Hcase. apply Hzero.
      assert (0 <= dSq) as Hge by apply dist_to_segment_sq_nonneg.
      injection Hon as Hx Hy.
      destruct Hcase as [Hlong | ->].
      * pose proof (dist_to_segment_sq_least (sample r c).1 (sample r c).2
                      (b_ax e) (b_ay e) (b_bx e) (b_by e) s Hlong Hs) as Hle.
        fold dSq in Hle. simpl in Hle. rewrite <- Hx, <- Hy in Hle.
        lra.
      * unfold dSq. simpl. rewrite Hx, Hy.
        replace (b_ax e + 0 * (b_bx e - b_ax e)) with (b_ax e) by lra.
        replace (b_ay e + 0 * (b_by e - b_ay e)) with (b_ay e) by lra.
        apply dist_to_segment_sq_first.
Qed.
End FieldProperties.

Section Additivity.
Context {F : Type} `{FloatOps F}.
Variable expf : F → F.
Variables (cols rows : Z) (origin_x origin_y cell_size base_sigma : F).

Abbreviation baseSigma := (fmaxf base_sigma (fmul cell_size (flit 5 2))).
Abbreviation touches :=
  (bridge_touches cols rows origin_x origin_y cell_size baseSigma).
Abbreviation gain :=
  (cell_gain expf origin_x origin_y cell_size baseSigma).
Abbreviation add_edge :=
  (bridge_update expf cols rows origin_x origin_y cell_size baseSigma).

Lemma bridge_update_comm (e1 e2 : bridge F) g :
  (∀ r c, touches e1 r c && touches e2 r c = false) →
  add_edge e2 (add_edge e1 g) = add_edge e1 (add_edge e2 g).
Proof.
  intros Hdisj. apply list_eq. intros i. unfold bridge_update.
  rewrite !grid_update_lookup.
  specialize (Hdisj (Z.of_nat i / cols) (Z.of_nat i mod cols)).
  destruct (g !! i) as [v|]; [simpl|reflexivity].
  destruct (touches e1 _ _), (touches e2 _ _); (reflexivity || discriminate).
Qed.

(** C6. For every starting grid and two bridge edges that add to disjoint
    sets of cells, one call with both edges ends with the grid obtained
    by adding to the starting grid, cell by cell, what each edge adds when
    it is accumulated alone: the order of the two edges does not matter,
    and each cell holds its starting value plus the contribution of the
    one edge that reaches it, if any.  In every arithmetic. *)
Theorem disjoint_bridges_add_independently (g segs : list F)
    (e1 e2 : bridge F) :
  let run (es : list (bridge F)) :=
    add_bridge_field expf cols rows origin_x origin_y cell_size
      (Z.of_nat (length es)) base_sigma
      (Memory g (es ≫= bridge_floats) segs) in
  1 ≤ cols →
  Z.of_nat (length g) = rows * cols →
  is_Some (bridge_box cols rows origin_x origin_y cell_size baseSigma e1) →
  is_Some (bridge_box cols rows origin_x origin_y cell_size baseSigma e2) →
  (∀ r c, touches e1 r c && touches e2 r c = false) →
  run [e1] = Some (tt, Memory (add_edge e1 g) ([e1] ≫= bridge_floats) segs)
  ∧ run [e2] = Some (tt, Memory (add_edge e2 g) ([e2] ≫= bridge_floats) segs)
  ∧ run [e1; e2]
    = Some (tt, Memory (add_edge e2 (add_edge e1 g))
                  ([e1; e2] ≫= bridge_floats) segs)
  ∧ add_edge e2 (add_edge e1 g) = add_edge e1 (add_edge e2 g)
  ∧ ∀ (i : nat) v, g !! i = Some v →
      let r := Z.of_nat i / cols in
      let c := Z.of_nat i mod cols in
      add_edge e1 g !! i
        = Some (if touches e1 r c then fadd v (gain e1 r c) else v)
      ∧ add_edge e2 g !! i
        = Some (if touches e2 r c then fadd v (gain e2 r c) else v)
      ∧ add_edge e2 (add_edge e1 g) !! i
        = Some (if touches e1 r c then fadd v (gain e1 r c)
                else if touches e2 r c then fadd v (gain e2 r c)
                else v).
Proof.
  intros run Hcols Hlen Hb1 Hb2 Hdisj. subst run. cbv beta.
  split; [|split; [|split; [|split; [|intros i v Hv r c; subst r c;
                                       split; [|split]]]]].
  - rewrite (add_bridge_field_run expf cols rows origin_x origin_y cell_size
               base_sigma _ [e1]); [reflexivity|lia|assumption| |].
    + apply bridges_at_one.
    + intros e He. apply list_elem_of_singleton in He as ->. exact Hb1.
  - rewrite (add_bridge_field_run expf cols rows origin_x origin_y cell_size
               base_sigma _ [e2]); [reflexivity|lia|assumption| |].
    + apply bridges_at_one.
    + intros e He. apply list_elem_of_singleton in He as ->. exact Hb2.
  - rewrite (add_bridge_field_run expf cols rows origin_x origin_y cell_size
               base_sigma _ [e1; e2]); [reflexivity|lia|assumption| |].
    + apply bridges_at_two.
    + intros e He. apply elem_of_cons in He as [->|He]; [exact Hb1|].
      apply list_elem_of_singleton in He as ->. exact Hb2.
  - now apply bridge_update_comm.
  - unfold bridge_update. now rewrite grid_update_lookup, Hv.
  - unfold bridge_update. now rewrite grid_update_lookup, Hv.
  - unfold bridge_update. rewrite !grid_update_lookup, Hv. simpl.
    specialize (Hdisj (Z.of_nat i / cols) (Z.of_nat i mod cols)).
    destruct (touches e1 _ _), (touches e2 _ _);
      (reflexivity || discriminate).
Qed.
End Additivity.

Section Binary32Bridge.
Import Binary32.


(** C4 as stated fails in binary32.  On [short_bridge], a degenerate
    edge, the sample point of cell (0, 1) is the second endpoint of the
    edge, at distance 0 from it, and what is added to the cell is
    [expf(-0.08f)], the distance being measured from the first endpoint.
    On [far_bridge] the sample point computed for cell (0, 1) is on the
    edge, and the cell is left as it was whatever [expf] returns: the
    bounding box ends at column 0. *)
Lemma distance_zero_not_one_binary32 :
  (* a degenerate edge: the sample point of cell (0, 1) is its second
     endpoint, what is added is expf(-0.08f) *)
  (flt (fmul tiny_cell tiny_cell) (flit 1 1000000000000) = true
   ∧ fadd (of_int32 0) (fmul (of_int 1) tiny_cell) = b_bx short_bridge
   ∧ fadd (of_int32 0) (fmul (of_int 0) tiny_cell) = b_by short_bridge
   ∧ (∀ expf, ∃ g',
        add_bridge_field expf 2 2 (of_int32 0) (of_int32 0) tiny_cell 1
          (of_int32 0) short_memory
        = Some (tt, Memory g' (bridge_floats short_bridge) [])
        ∧ read g' (0 * 2 + 1)
          = Some (fadd (of_int32 0) (expf (lit32 (-8) 100))))
   ∧ ¬ ∃ expf g',
       expf (lit32 (-8) 100) ≠ lit32 1 1
       ∧ add_bridge_field expf 2 2 (of_int32 0) (of_int32 0) tiny_cell 1
           (of_int32 0) short_memory
         = Some (tt, Memory g' (bridge_floats short_bridge) [])
       ∧ read g' (0 * 2 + 1) = Some (fadd (of_int32 0) (lit32 1 1)))
  ∧
  (* a far origin: the sample point computed for cell (0, 1) is on the
     edge, the cell is not visited *)
  (cell_dist_sq far_origin (of_int32 0) (lit32 1 2) far_bridge 0 1
     = S754_zero false
   ∧ ¬ ∃ expf g',
       add_bridge_field expf 2 2 far_origin (of_int32 0) (lit32 1 2) 1
         (lit32 1 10) far_memory
       = Some (tt, Memory g' (bridge_floats far_bridge) [])
       ∧ read g' (0 * 2 + 1) = Some (fadd (of_int32 0) (lit32 1 1))).
Proof.
  split.
  - split; [reflexivity|]. split; [reflexivity|]. split; [reflexivity|].
    split.
    + intros expf. eexists. split; [vm_compute; reflexivity|].
      vm_compute. reflexivity.
    + intros (expf & g' & Hne & Hrun & Hg). vm_compute in Hrun.
      injection Hrun as <-. vm_compute in Hg, Hne.
      destruct (expf _) as [[|]|[|]| |s m e]; try discriminate.
      apply Hne. injection Hg as -> -> ->. reflexivity.
  - split; [reflexivity|].
    intros (expf & g' & Hrun & Hg). vm_compute in Hrun.
    injection Hrun as <-. vm_compute in Hg. discriminate.
Qed.
End Binary32Bridge.

(** ** The theorems at concrete inputs *)

Section MarchingWitnesses.
Import Binary32.

Lemma saddle_pairing_by_center_witness :
  ∃ S, march_cell 2 zero32 zero32 one32 half32 0 0 0 saddle_memory
       = Some (0 + 2, set_segments saddle_memory
                        (put_segments (segments_out saddle_memory) 0 S)).
Proof.
  pose (k := Corners zero32 one32 zero32 one32).
  assert (has_corners (grid_values saddle_memory) 2 0 0 k) as Hk
    by (repeat split; reflexivity).
  assert ((0 + 2) * 4 ≤ Z.of_nat (length (segments_out saddle_memory)))
    as Hlen by (simpl; lia).
  destruct (saddle_pairing_by_center 2 zero32 zero32 one32 half32
              saddle_memory 0 0 k 0 Hk (Z.le_refl 0) Hlen) as [H5 _].
  destruct (H5 eq_refl) as [_ Hrun].
  eexists. exact Hrun.
Defined.

Lemma case_index_and_segment_count_witness :
  ∃ S, march_cell 2 zero32 zero32 one32 half32 0 0 0 saddle_memory
       = Some (0 + Z.of_nat (length S),
               set_segments saddle_memory
                 (put_segments (segments_out saddle_memory) 0 S))
       ∧ length S = 2%nat.
Proof.
  pose (k := Corners zero32 one32 zero32 one32).
  assert (has_corners (grid_values saddle_memory) 2 0 0 k) as Hk
    by (repeat split; reflexivity).
  assert ((0 + 2) * 4 ≤ Z.of_nat (length (segments_out saddle_memory)))
    as Hlen by (simpl; lia).
  destruct (case_index_and_segment_count 2 zero32 zero32 one32 half32
              saddle_memory 0 0 k 0 Hk (Z.le_refl 0) Hlen)
    as [_ (S & Hrun & _ & Hsaddle & _)].
  exists S. split; [exact Hrun|]. apply Hsaddle. left. reflexivity.
Defined.

Lemma marching_squares_output_bound_witness :
  ∃ S : list ((float32 * float32) * (float32 * float32)),
    marching_squares 2 2 zero32 zero32 one32 half32 saddle_memory
    = Some (Z.of_nat (length S),
            set_segments saddle_memory
              ((S ≫= segment_floats)
               ++ drop (4 * length S) (segments_out saddle_memory)))
    ∧ Z.of_nat (length S) ≤ 2 * (2 - 1) * (2 - 1)
    ∧ Z.of_nat (length (S ≫= segment_floats)) ≤ 8 * (2 - 1) * (2 - 1).
Proof.
  apply (marching_squares_output_bound 2 2 zero32 zero32 one32 half32
           saddle_memory); simpl; lia.
Defined.

Lemma buffers_left_unchanged_witness :
  ∃ n m',
    marching_squares 2 2 zero32 zero32 one32 half32 saddle_memory
      = Some (n, m')
    ∧ grid_values m' = grid_values saddle_memory.
Proof.
  destruct (marching_squares 2 2 zero32 zero32 one32 half32 saddle_memory)
    as [[n m']|] eqn:Hrun; [|vm_compute in Hrun; discriminate].
  exists n, m'. split; [reflexivity|].
  exact (proj1 (proj1 buffers_left_unchanged 2 2 zero32 zero32 one32 half32
                  saddle_memory n m' Hrun)).
Defined.

Lemma single_peak_diamond_witness :
  marching_squares 3 3 zero32 zero32 one32 (lit32 1 2)
    (Memory single_peak [] (replicate 32 zero32))
  = Some (4, Memory single_peak []
               ((diamond zero32 zero32 one32 ≫= segment_floats)
                ++ drop 16 (replicate 32 zero32))).
Proof.
  apply (proj1 single_peak_diamond zero32 zero32 one32 [] (replicate 32 zero32)).
  simpl. lia.
Defined.

Lemma crossing_point_interpolation_witness :
  get_edge_point 2 zero32 zero32 one32 0 0 (edge_code Top) half32 saddle_memory
  = Some ((fadd (fadd zero32 (fmul (of_int 0) one32))
             (fmul (lerp1d zero32 one32 half32) one32),
           fadd zero32 (fmul (of_int 0) one32)), saddle_memory).
Proof.
  apply (proj1 (proj2 crossing_point_interpolation) _ _ 2 zero32 zero32 one32
           half32 saddle_memory 0 0 (Corners zero32 one32 zero32 one32) Top).
  repeat split; reflexivity.
Defined.
End MarchingWitnesses.

Section AdditivityWitness.
Import Binary32.

Lemma left_right_boxes :
  bridge_box 40 1 zero32 zero32 one32
    (fmaxf one32 (fmul one32 (flit 5 2))) left_bridge = Some (0, 0, 0, 13)
  ∧ bridge_box 40 1 zero32 zero32 one32
      (fmaxf one32 (fmul one32 (flit 5 2))) right_bridge = Some (0, 0, 22, 38).
Proof. split; reflexivity. Qed.

Lemma left_right_disjoint r c :
  bridge_touches 40 1 zero32 zero32 one32
    (fmaxf one32 (fmul one32 (flit 5 2))) left_bridge r c
  && bridge_touches 40 1 zero32 zero32 one32
       (fmaxf one32 (fmul one32 (flit 5 2))) right_bridge r c = false.
Proof.
  unfold bridge_touches.
  destruct left_right_boxes as [-> ->]. unfold in_box.
  destruct (Z.leb_spec c 13), (Z.leb_spec 22 c); try lia;
    rewrite ?andb_false_r, ?andb_false_l; try reflexivity.
  all: rewrite ?andb_true_r; destruct (_ && _); simpl;
    rewrite ?andb_false_r; reflexivity.
Qed.

Lemma disjoint_bridges_add_independently_witness :
  add_bridge_field (λ x, x) 40 1 zero32 zero32 one32 2 one32
    (Memory (replicate 40 zero32)
            (bridge_floats left_bridge ++ bridge_floats right_bridge) [])
  = Some (tt, Memory
      (bridge_update (λ x, x) 40 1 zero32 zero32 one32
         (fmaxf one32 (fmul one32 (flit 5 2))) right_bridge
         (bridge_update (λ x, x) 40 1 zero32 zero32 one32
            (fmaxf one32 (fmul one32 (flit 5 2))) left_bridge
            (replicate 40 zero32)))
      (bridge_floats left_bridge ++ bridge_floats right_bridge) []).
Proof.
  refine (proj1 (proj2 (proj2
    (disjoint_bridges_add_independently (λ x, x) 40 1 zero32 zero32 one32
       one32 (replicate 40 zero32) [] left_bridge right_bridge
       _ _ _ _ _)))).
  - lia.
  - reflexivity.
  - rewrite (proj1 left_right_boxes). eexists. reflexivity.
  - rewrite (proj2 left_right_boxes). eexists. reflexivity.
  - exact left_right_disjoint.
Defined.
End AdditivityWitness.

Section ExactWitnesses.
Local Open Scope R_scope.

Lemma endpoints_on_cell_boundary_witness :
  (∃ S : list ((Binary32.float32 * Binary32.float32)
               * (Binary32.float32 * Binary32.float32)),
     length S = 2%nat
     ∧ marching_squares 2 2 zero32 zero32 one32 half32 saddle_memory
       = Some (Z.of_nat (length S),
               set_segments saddle_memory
                 ((S ≫= segment_floats)
                  ++ drop (4 * length S) (segments_out saddle_memory)))
     ∧ ∀ s, s ∈ S →
         ∃ r c e1 e2,
           (0 ≤ r < 2 - 1)%Z ∧ (0 ≤ c < 2 - 1)%Z ∧
           let k := corners_of (grid_values saddle_memory) 2 r c in
           s = (edge_xy zero32 zero32 one32 half32 r c k e1,
                edge_xy zero32 zero32 one32 half32 r c k e2)
           ∧ crossing half32 k e1 ∧ crossing half32 k e2)
  ∧
  (∃ S : list ((Binary32.float32 * Binary32.float32)
               * (Binary32.float32 * Binary32.float32)),
     length S = 2%nat
     ∧ marching_squares 2 2 zero32 zero32 one32 half32 saddle_memory
       = Some (Z.of_nat (length S),
               set_segments saddle_memory
                 ((S ≫= segment_floats)
                  ++ drop (4 * length S) (segments_out saddle_memory)))
     ∧ ∀ s, s ∈ S →
         ∃ r c e1 e2,
           (0 ≤ r < 2 - 1)%Z ∧ (0 ≤ c < 2 - 1)%Z ∧
           let k := corners_of (grid_values saddle_memory) 2 r c in
           s = (edge_xy zero32 zero32 one32 half32 r c k e1,
                edge_xy zero32 zero32 one32 half32 r c k e2)
           ∧ crossing half32 k e1 ∧ crossing half32 k e2
           ∧ endpoint_bounded32 zero32 zero32 one32 half32 r c k e1
           ∧ endpoint_bounded32 zero32 zero32 one32 half32 r c k e2)
  ∧
  (∃ S : list ((R * R) * (R * R)),
     length S = 4%nat
     ∧ marching_squares 3 3 0 0 1 (1 / 2) peak_memory
       = Some (Z.of_nat (length S),
               set_segments peak_memory
                 ((S ≫= segment_floats)
                  ++ drop (4 * length S) (segments_out peak_memory)))
     ∧ ∀ s, s ∈ S →
         ∃ r c e1 e2,
           (0 ≤ r < 3 - 1)%Z ∧ (0 ≤ c < 3 - 1)%Z ∧
           let k := corners_of (grid_values peak_memory) 3 r c in
           s = (edge_xy 0 0 1 (1 / 2) r c k e1,
                edge_xy 0 0 1 (1 / 2) r c k e2)
           ∧ crossing (1 / 2) k e1 ∧ crossing (1 / 2) k e2
           ∧ 0 <= edge_t (1 / 2) k e1 <= 1
           ∧ 0 <= edge_t (1 / 2) k e2 <= 1
           ∧ on_cell_boundary 0 0 1 r c s.1
           ∧ on_cell_boundary 0 0 1 r c s.2).
Proof.
  assert (∀ (S : list ((Binary32.float32 * Binary32.float32)
                       * (Binary32.float32 * Binary32.float32))) segs,
            marching_squares 2 2 zero32 zero32 one32 half32 saddle_memory
            = Some (Z.of_nat (length S), segs) → length S = 2%nat)
    as Htwo.
  { intros S segs Hrun.
    destruct (marching_squares 2 2 zero32 zero32 one32 half32 saddle_memory)
      as [[n m']|] eqn:Hn; [|discriminate].
    vm_compute in Hn. injection Hn as <- _. injection Hrun as Hlen _. lia. }
  split; [|split].
  - destruct (proj1 endpoints_on_cell_boundary _ Binary32.ops
                2%Z 2%Z zero32 zero32 one32 half32 saddle_memory)
      as (S & Hrun & Hin).
    + lia.
    + lia.
    + reflexivity.
    + simpl. lia.
    + exists S. split; [exact (Htwo _ _ Hrun)|]. split; assumption.
  - destruct (proj1 (proj2 endpoints_on_cell_boundary)
                2%Z 2%Z zero32 zero32 one32 half32 saddle_memory)
      as (S & Hrun & Hin).
    + lia.
    + lia.
    + reflexivity.
    + simpl. lia.
    + intros v Hv. simpl in Hv.
      repeat (apply elem_of_cons in Hv as [->|Hv]; [split; reflexivity|]).
      now apply elem_of_nil in Hv.
    + split; reflexivity.
    + split; reflexivity.
    + split; reflexivity.
    + split; reflexivity.
    + reflexivity.
    + exists S. split; [exact (Htwo _ _ Hrun)|]. split; assumption.
  - destruct (proj2 (proj2 endpoints_on_cell_boundary)
                3%Z 3%Z 0 0 1 (1 / 2) peak_memory)
      as (S & Hrun & Hin).
    + lia.
    + lia.
    + reflexivity.
    + simpl. lia.
    + lra.
    + exists S. split; [|split; assumption].
      pose proof (single_peak_run (H := Exact.ops) 0 0 1 [] (replicate 32 0)
                    half_way_exact ltac:(simpl; lia)) as Hfour.
      change (marching_squares 3 3 0 0 1 (1 / 2) peak_memory = Some
                (4%Z, Memory single_peak []
                   ((diamond 0 0 1 ≫= segment_floats)
                    ++ drop 16 (replicate 32 0)))) in Hfour.
      rewrite Hrun in Hfour. injection Hfour as Hlen _. lia.
Defined.

Lemma to_intR_IZR_defined (n : Z) :
  (- 2 ^ 31 ≤ n < 2 ^ 31)%Z → Exact.to_intR (IZR n) = Some n.
Proof.
  intros Hn. unfold Exact.to_intR.
  assert ((if Rle_dec 0 (IZR n) then Int_part (IZR n)
           else (- Int_part (- IZR n))%Z) = n) as ->.
  { destruct (Rle_dec 0 (IZR n)); [apply Int_part_IZR|].
    rewrite <- opp_IZR, Int_part_IZR. lia. }
  replace ((- 2 ^ 31 <=? n)%Z && (n <? 2 ^ 31)%Z) with true; [reflexivity|].
  symmetry. apply andb_true_iff. split; [apply Z.leb_le|apply Z.ltb_lt]; lia.
Qed.

(** The casts of the bounding box are defined for quotients in the range
    of [int]. *)
Lemma to_int_floor_defined x :
  IZR (- 2 ^ 31) <= x < IZR (2 ^ 31) →
  to_int (floorf x) = Some (Int_part x).
Proof.
  intros Hx. simpl. unfold Exact.floorR. apply to_intR_IZR_defined.
  destruct (base_Int_part x) as [Hle Hgt]. split.
  - assert (IZR (- 2 ^ 31 - 1) < IZR (Int_part x)) as Hlt
      by (rewrite minus_IZR; lra).
    apply lt_IZR in Hlt. lia.
  - apply lt_IZR. lra.
Qed.

Lemma to_int_ceil_defined x :
  IZR (- 2 ^ 31) <= x <= IZR (2 ^ 31 - 1) →
  to_int (ceilf x) = Some (- Int_part (- x))%Z.
Proof.
  intros Hx. simpl. unfold Exact.ceilR. apply to_intR_IZR_defined.
  destruct (base_Int_part (- x)) as [Hle Hgt].
  rewrite minus_IZR in Hx. split.
  - assert (IZR (Int_part (- x)) < IZR (2 ^ 31 + 1)) as Hlt
      by (rewrite plus_IZR; rewrite opp_IZR in Hx; lra).
    apply lt_IZR in Hlt. lia.
  - assert (IZR (- 2 ^ 31) < IZR (Int_part (- x))) as Hlt
      by (rewrite opp_IZR; lra).
    apply lt_IZR in Hlt. lia.
Qed.

Lemma point_bridge_box_defined :
  is_Some (bridge_box 2 2 0 0 1 (Rmax 1 (1 * (5 / 2))) point_bridge).
Proof.
  unfold bridge_box, bridge_cutoff, bridge_sigma, bridge_length, point_bridge.
  cbv [b_ax b_ay b_bx b_by]. cbv zeta.
  change (fminf 0 0) with (Rmin 0 0). change (fmaxf 0 0) with (Rmax 0 0).
  assert (sqrtf (fadd (fmul (fsub 0 0) (fsub 0 0)) (fmul (fsub 0 0) (fsub 0 0)))
          = 0) as ->.
  { simpl. replace ((0 - 0) * (0 - 0) + (0 - 0) * (0 - 0)) with 0 by lra.
    apply sqrt_0. }
  assert (fmaxf (Rmax 1 (1 * (5 / 2))) (fmul 0 (flit 12 100)) = 5 / 2) as ->.
  { simpl. unfold Rmax. repeat destruct (Rle_dec _ _); lra. }
  rewrite Rmin_left, Rmax_left by lra.
  rewrite !to_int_floor_defined, !to_int_ceil_defined;
    try (cbv [fadd fsub fmul fdiv flit Exact.ops];
         change (- 2 ^ 31)%Z with (-2147483648)%Z;
         change (2 ^ 31 - 1)%Z with 2147483647%Z;
         change (2 ^ 31)%Z with 2147483648%Z; lra).
  simpl. eexists. reflexivity.
Qed.



Lemma bridge_cutoff_containment_exact_witness :
  (∃ g',
     add_bridge_field (λ x, x) 2 2 zero32 zero32 one32 1 one32 unit_memory
     = Some (tt, Memory g' (bridge_floats unit_bridge) []))
  ∧
  (∃ g',
     add_bridge_field exp 2 2 0 0 1 1 1
       (Memory [0; 0; 0; 0] (bridge_floats point_bridge) [])
     = Some (tt, Memory g' (bridge_floats point_bridge) [])
     ∧ read g' (0 * 2 + 0) = Some (0 + 1)).
Proof.
  split.
  - destruct (proj1 bridge_cutoff_containment_exact _ Binary32.ops
                (λ x, x) 2%Z 2%Z zero32 zero32 one32 one32
                (replicate 4 zero32) [] unit_bridge)
      as (g' & Hrun & _).
    + lia.
    + reflexivity.
    + exists (0, 1, 0, 1)%Z. reflexivity.
    + exists g'. exact Hrun.
  - destruct (proj2 bridge_cutoff_containment_exact
                2%Z 2%Z 0 0 1 1 [0; 0; 0; 0] [] point_bridge)
      as (g' & Hrun & Hcells).
    + lia.
    + reflexivity.
    + lra.
    + exact point_bridge_box_defined.
    + exists g'. split; [exact Hrun|].
      destruct (Hcells 0%Z 0%Z) as (v & Hv & _ & Hon); [lia|lia|].
      injection Hv as <-.
      apply (Hon 0); [lra| |right; reflexivity].
      unfold point_bridge. simpl. f_equal; lra.
Defined.
End ExactWitnesses.

(** * Further properties *)

Section SweepEdgeCases.
Context {F : Type} `{FloatOps F}.
Implicit Types (m : memory F) (k : corners F).

(** A cell whose case index is 0 or 15 is skipped: nothing is stored. *)
Lemma march_cell_skip cols origin_x origin_y cell_size threshold m r c k n :
  has_corners (grid_values m) cols r c k →
  cell_case threshold k = 0 ∨ cell_case threshold k = 15 →
  march_cell cols origin_x origin_y cell_size threshold r c n m = Some (n, m).
Proof.
  intros (Htl & Htr & Hbr & Hbl) Hcase. unfold march_cell.
  rewrite (run_bind _ _ _ _ _ (run_load_grid _ _ _ Htl)).
  rewrite (run_bind _ _ _ _ _ (run_load_grid _ _ _ Htr)).
  rewrite (run_bind _ _ _ _ _ (run_load_grid _ _ _ Hbr)).
  rewrite (run_bind _ _ _ _ _ (run_load_grid _ _ _ Hbl)).
  fold (cell_case threshold k).
  destruct Hcase as [-> | ->]; reflexivity.
Qed.

Lemma uniform_cell_case (g : list F) cols rows threshold r c b :
  Z.of_nat (length g) = rows * cols →
  0 ≤ r < rows - 1 → 0 ≤ c < cols - 1 →
  (∀ v, v ∈ g → fle threshold v = b) →
  let k := corners_of g cols r c in
  cell_case threshold k = 0 ∨ cell_case threshold k = 15.
Proof.
  intros Hlen Hr Hc Hall k.
  pose proof (has_corners_of cols rows g r c Hlen Hr Hc)
    as (Htl & Htr & Hbr & Hbl).
  fold k in Htl, Htr, Hbr, Hbl.
  assert (∀ i v, read g i = Some v → fle threshold v = b) as Hread.
  { intros i v Hi. apply Hall. unfold read in Hi.
    destruct (0 <=? i); [|discriminate].
    eapply list_elem_of_lookup_2. exact Hi. }
  unfold cell_case, inside.
  rewrite (Hread _ _ Htl), (Hread _ _ Htr), (Hread _ _ Hbr), (Hread _ _ Hbl).
  destruct b; [right|left]; reflexivity.
Qed.

(** One row of the sweep over a grid whose values are all on the same
    side of the threshold: no cell stores anything. *)
Lemma march_row_uniform cols rows origin_x origin_y cell_size threshold
    m b r n :
  1 ≤ cols →
  Z.of_nat (length (grid_values m)) = rows * cols →
  (∀ v, v ∈ grid_values m → fle threshold v = b) →
  0 ≤ r < rows - 1 →
  for_range 0 (cols - 1)
    (march_cell cols origin_x origin_y cell_size threshold r) n m
  = Some (n, m).
Proof.
  intros Hcols Hlen Hall Hr.
  apply (for_range_run 0 (cols - 1) _ (λ _, n) (λ _, m)); [lia|].
  intros c Hc.
  apply (march_cell_skip _ _ _ _ _ _ _ _ (corners_of (grid_values m) cols r c)).
  - apply (has_corners_of cols rows); (assumption || lia).
  - eapply uniform_cell_case; eauto.
Qed.

(** X1. On a grid with at most one row or at most one column there is no
    cell: [marching_squares] returns 0 and reads and stores nothing,
    whatever the three buffers hold (even empty ones).  The sizes are
    [int]s other than [INT_MIN], for which the loop bounds [rows - 1] and
    [cols - 1] do not overflow. *)
Theorem marching_squares_thin_grid cols rows origin_x origin_y cell_size
    threshold m :
  - 2 ^ 31 < rows < 2 ^ 31 → - 2 ^ 31 < cols < 2 ^ 31 →
  rows ≤ 1 ∨ cols ≤ 1 →
  marching_squares cols rows origin_x origin_y cell_size threshold m
  = Some (0, m).
Proof.
  intros _ _ Hthin. unfold marching_squares.
  destruct (Z_le_gt_dec rows 1) as [Hrows|Hrows].
  { now rewrite for_range_nil by lia. }
  destruct Hthin as [Hr|Hcols]; [lia|].
  apply (for_range_run 0 (rows - 1) _ (λ _, 0) (λ _, m)); [lia|].
  intros r Hr. now rewrite for_range_nil by lia.
Qed.

(** X2. When every value of the grid is on the same side of the
    threshold (all [>= threshold], or none), [marching_squares] returns 0
    and leaves the memory as it was; it needs no room in [segments_out]. *)
Theorem marching_squares_no_crossing cols rows origin_x origin_y cell_size
    threshold m (b : bool) :
  1 ≤ cols →
  Z.of_nat (length (grid_values m)) = rows * cols →
  (∀ v, v ∈ grid_values m → fle threshold v = b) →
  marching_squares cols rows origin_x origin_y cell_size threshold m
  = Some (0, m).
Proof.
  intros Hcols Hlen Hall. unfold marching_squares.
  destruct (Z_le_gt_dec (rows - 1) 0) as [Hthin|Hrows].
  { now rewrite for_range_nil by lia. }
  apply (for_range_run 0 (rows - 1) _ (λ _, 0) (λ _, m)); [lia|].
  intros r Hr.
  now apply (march_row_uniform cols rows _ _ _ _ m b).
Qed.

Lemma bind_length_sum {A B} (f : A → list B) (l : list A) :
  Z.of_nat (length (l ≫= f))
  = foldr Z.add 0 ((λ x, Z.of_nat (length (f x))) <$> l).
Proof.
  induction l as [|x l IH]; [reflexivity|].
  rewrite bind_cons, length_app, Nat2Z.inj_add, IH. reflexivity.
Qed.

(** X3. The count [marching_squares] returns is the sum, over the cells
    of the sweep, of [NUM_PAIRS] at the cell's case index. *)
Theorem marching_squares_count cols rows origin_x origin_y cell_size
    threshold m :
  2 ≤ cols → 2 ≤ rows →
  Z.of_nat (length (grid_values m)) = rows * cols →
  8 * (rows - 1) * (cols - 1) ≤ Z.of_nat (length (segments_out m)) →
  let pairs_of (r c : Z) :=
    table_get NUM_PAIRS
      (cell_case threshold (corners_of (grid_values m) cols r c)) 0 in
  let row_total (r : Z) := foldr Z.add 0 (pairs_of r <$> seqZ 0 (cols - 1)) in
  ∃ m',
    marching_squares cols rows origin_x origin_y cell_size threshold m
    = Some (foldr Z.add 0 (row_total <$> seqZ 0 (rows - 1)), m').
Proof.
  intros Hcols Hrows Hg Hroom pairs_of row_total.
  destruct (marching_squares_flat cols rows origin_x origin_y cell_size
              threshold m) as [Hrun _]; [lia|lia|assumption..|].
  eexists. rewrite Hrun. do 2 f_equal.
  unfold sweep_segments. rewrite bind_length_sum. f_equal.
  apply list_fmap_ext. intros _ r _.
  unfold row_segments. rewrite bind_length_sum. unfold row_total. f_equal.
  apply list_fmap_ext. intros _ c _.
  apply cell_segments_length.
Qed.

(** X4. Running [marching_squares] again on the memory it left returns
    the same count and leaves that memory as it is: the sweep reads the
    grid only and rewrites the same floats. *)
Theorem marching_squares_rerun cols rows origin_x origin_y cell_size
    threshold m n m' :
  2 ≤ cols → 2 ≤ rows →
  Z.of_nat (length (grid_values m)) = rows * cols →
  8 * (rows - 1) * (cols - 1) ≤ Z.of_nat (length (segments_out m)) →
  marching_squares cols rows origin_x origin_y cell_size threshold m
  = Some (n, m') →
  marching_squares cols rows origin_x origin_y cell_size threshold m'
  = Some (n, m').
Proof.
  intros Hcols Hrows Hg Hroom Hrun.
  destruct (marching_squares_flat cols rows origin_x origin_y cell_size
              threshold m) as [Hrun1 Hcount]; [lia|lia|assumption..|].
  rewrite Hrun1 in Hrun. injection Hrun as <- <-.
  set (S := sweep_segments (grid_values m) cols rows origin_x origin_y
              cell_size threshold) in *.
  set (m1 := set_segments m _).
  assert (Z.of_nat (length (S ≫= segment_floats))
          ≤ Z.of_nat (length (segments_out m))) as Hfit
    by (rewrite segment_floats_length; lia).
  destruct (marching_squares_flat cols rows origin_x origin_y cell_size
              threshold m1) as [Hrun2 _]; [lia|lia|assumption| |].
  { unfold m1. simpl. rewrite length_app, length_drop,
      segment_floats_length. lia. }
  rewrite Hrun2. unfold m1 at 1 2 4. simpl grid_values. fold S.
  do 2 f_equal. unfold m1, set_segments. simpl. do 2 f_equal.
  rewrite drop_app_length'; [reflexivity|].
  now rewrite segment_floats_length.
Qed.
End SweepEdgeCases.

Section TightRoom.
Context {F : Type} `{FloatOps F}.
Implicit Types (m : memory F) (g segs : list F) (k : corners F).
Variables (cols rows : Z) (origin_x origin_y cell_size threshold : F).

Lemma bind_seqZ_prefix_length {B} (f : Z → list B) (i n : Z) :
  0 ≤ i ≤ n →
  Z.of_nat (length (seqZ 0 i ≫= f)) ≤ Z.of_nat (length (seqZ 0 n ≫= f)).
Proof.
  intros Hi. replace n with (i + (n - i)) by lia.
  rewrite seqZ_app by lia. rewrite bind_app, length_app. lia.
Qed.

(** One cell, with room for the segments it stores and no more. *)
Lemma march_cell_tight m r c k n :
  has_corners (grid_values m) cols r c k →
  let S := cell_segments origin_x origin_y cell_size threshold r c k in
  0 ≤ n →
  (n + Z.of_nat (length S)) * 4 ≤ Z.of_nat (length (segments_out m)) →
  march_cell cols origin_x origin_y cell_size threshold r c n m
  = Some (n + Z.of_nat (length S),
          set_segments m (put_segments (segments_out m) n S)).
Proof.
  intros Hk S Hn Hlen. pose proof Hk as (Htl & Htr & Hbr & Hbl).
  unfold march_cell.
  rewrite (run_bind _ _ _ _ _ (run_load_grid _ _ _ Htl)).
  rewrite (run_bind _ _ _ _ _ (run_load_grid _ _ _ Htr)).
  rewrite (run_bind _ _ _ _ _ (run_load_grid _ _ _ Hbr)).
  rewrite (run_bind _ _ _ _ _ (run_load_grid _ _ _ Hbl)).
  fold (cell_case threshold k).
  pose proof (cell_case_range threshold k) as Hz.
  pose proof (cell_edges_length _ (fle threshold (cell_center k)) Hz) as HL.
  subst S. unfold cell_segments in *. rewrite length_map in *.
  destruct ((cell_case threshold k =? 0) || (cell_case threshold k =? 15)) eqn:E.
  - assert (table_get NUM_PAIRS (cell_case threshold k) 0 = 0) as H0.
    { apply orb_true_iff in E as [E|E]; apply Z.eqb_eq in E; now rewrite E. }
    rewrite H0 in HL. destruct (cell_edges _ _); [|simpl in HL; lia].
    simpl. rewrite Z.add_0_r. now destruct m.
  - erewrite run_bind; [|apply saddle_pairs_run; eauto].
    rewrite HL.
    eapply emit_pairs_run; eauto using cell_edges_codes; lia.
Qed.

Lemma march_row_tight m r S0 :
  Z.of_nat (length (grid_values m)) = rows * cols →
  1 ≤ cols → 0 ≤ r < rows - 1 →
  let T := row_segments (grid_values m) cols origin_x origin_y cell_size
             threshold r in
  4 * Z.of_nat (length (S0 ++ T)) ≤ Z.of_nat (length (segments_out m)) →
  for_range 0 (cols - 1)
    (march_cell cols origin_x origin_y cell_size threshold r)
    (Z.of_nat (length S0))
    (set_segments m (put_segments (segments_out m) 0 S0))
  = Some (Z.of_nat (length (S0 ++ T)),
          set_segments m (put_segments (segments_out m) 0 (S0 ++ T))).
Proof.
  intros Hg Hcols Hr T Hroom.
  set (f := λ c, cell_segments origin_x origin_y cell_size threshold r c
                   (corners_of (grid_values m) cols r c)).
  pose (pre := λ c : Z, S0 ++ (seqZ 0 c ≫= f)).
  replace S0 with (pre 0) at 1 2 by (unfold pre; simpl; apply app_nil_r).
  change (S0 ++ T) with (pre (cols - 1)) in *.
  apply (for_range_run 0 (cols - 1) _
           (λ c, Z.of_nat (length (pre c)))
           (λ c, set_segments m (put_segments (segments_out m) 0 (pre c))));
    [lia|].
  intros c Hc.
  assert (pre (c + 1) = pre c ++ f c) as Hnext.
  { unfold pre. rewrite bind_seqZ_snoc by lia. apply app_assoc. }
  assert (Z.of_nat (length (pre (c + 1)))
          ≤ Z.of_nat (length (pre (cols - 1)))) as Hfit.
  { unfold pre. rewrite !length_app.
    pose proof (bind_seqZ_prefix_length f (c + 1) (cols - 1) ltac:(lia)).
    lia. }
  rewrite Hnext in Hfit |- *. clear Hnext.
  generalize dependent (pre c). intros P Hfit.
  rewrite length_app in Hfit.
  rewrite (march_cell_tight _ r c (corners_of (grid_values m) cols r c)).
  - fold (f c). rewrite put_segments_app, length_app, Nat2Z.inj_add.
    reflexivity.
  - simpl. apply (has_corners_of cols rows); [done|lia|lia].
  - lia.
  - fold (f c). simpl. rewrite put_segments_length. lia.
Qed.

Lemma marching_squares_tight m :
  Z.of_nat (length (grid_values m)) = rows * cols →
  1 ≤ cols → 1 ≤ rows →
  let S := sweep_segments (grid_values m) cols rows
             origin_x origin_y cell_size threshold in
  4 * Z.of_nat (length S) ≤ Z.of_nat (length (segments_out m)) →
  marching_squares cols rows origin_x origin_y cell_size threshold m
  = Some (Z.of_nat (length S),
          set_segments m
            ((S ≫= segment_floats) ++ drop (4 * length S) (segments_out m))).
Proof.
  intros Hg Hcols Hrows S Hroom. unfold marching_squares.
  pose (pre := λ r : Z, seqZ 0 r ≫=
    row_segments (grid_values m) cols origin_x origin_y cell_size threshold).
  transitivity
    (Some (Z.of_nat (length (pre (rows - 1))),
           set_segments m (put_segments (segments_out m) 0 (pre (rows - 1))))).
  - change 0 with (Z.of_nat (length (pre 0))) at 2.
    replace m with (set_segments m (put_segments (segments_out m) 0 (pre 0)))
      at 1 by now destruct m.
    apply (for_range_run 0 (rows - 1) _
             (λ r, Z.of_nat (length (pre r)))
             (λ r, set_segments m (put_segments (segments_out m) 0 (pre r))));
      [lia|].
    intros r Hr.
    assert (pre (r + 1)
            = pre r ++ row_segments (grid_values m) cols origin_x origin_y
                         cell_size threshold r) as Hnext
      by (unfold pre; now rewrite (bind_seqZ_snoc _ r) by lia).
    rewrite march_row_tight; try done.
    + now rewrite Hnext.
    + cbv zeta. rewrite <- Hnext.
      assert (Z.of_nat (length (pre (r + 1))) ≤ Z.of_nat (length S)) as Hfit
        by (apply bind_seqZ_prefix_length; lia).
      lia.
  - change (pre (rows - 1)) with S.
    rewrite put_segments_flat by lia.
    replace (Z.to_nat ((0 + Z.of_nat (length S)) * 4)) with (4 * length S)%nat
      by lia.
    reflexivity.
Qed.
End TightRoom.

Section RoomNeeded.
Context {F : Type} `{FloatOps F}.
Implicit Types (m : memory F).

(** A property of the index, the accumulator and the memory that every
    turn of a loop keeps holds when the loop returns. *)
Lemma for_loop_keeps {A} (J : Z → A → memory F → Prop)
    (body : Z → A → M F A) n :
  ∀ lo a m a' m',
    (∀ i a m a' m', lo ≤ i < lo + Z.of_nat n →
       J i a m → body i a m = Some (a', m') → J (i + 1) a' m') →
    J lo a m → for_loop n lo body a m = Some (a', m') →
    J (lo + Z.of_nat n) a' m'.
Proof.
  induction n as [|n IH]; intros lo a m a' m' Hbody HJ Hrun.
  - injection Hrun as <- <-. now rewrite Z.add_0_r.
  - simpl in Hrun. apply run_bind_inv in Hrun as (a1 & m1 & H1 & H2).
    replace (lo + Z.of_nat (S n)) with (lo + 1 + Z.of_nat n) by lia.
    eapply IH; [| |exact H2].
    + intros i b mb b' mb' Hi. apply Hbody. lia.
    + eapply Hbody; eauto. lia.
Qed.

Lemma load_grid_inv i m v m' :
  load_grid i m = Some (v, m') → m' = m ∧ read (grid_values m) i = Some v.
Proof.
  unfold load_grid, lift. destruct (read _ _); [|discriminate].
  now intros [= <- <-].
Qed.

Lemma get_edge_point_same cols ox oy cs r c e th m p m' :
  get_edge_point cols ox oy cs r c e th m = Some (p, m') → m' = m.
Proof.
  unfold get_edge_point. intros Hrun.
  apply run_bind_inv in Hrun as (? & m1 & H1 & Hrun).
  apply load_grid_inv in H1 as [-> _].
  apply run_bind_inv in Hrun as (? & m2 & H2 & Hrun).
  apply load_grid_inv in H2 as [-> _].
  apply run_bind_inv in Hrun as (? & m3 & H3 & Hrun).
  apply load_grid_inv in H3 as [-> _].
  apply run_bind_inv in Hrun as (? & m4 & H4 & Hrun).
  apply load_grid_inv in H4 as [-> _].
  destruct e as [|[[|[]|]|[]|]|]; try discriminate; now injection Hrun.
Qed.

Lemma saddle_pairs_same cols r c z th pairs m q m' :
  saddle_pairs cols r c z th pairs m = Some (q, m') → m' = m.
Proof.
  unfold saddle_pairs. intros Hrun.
  destruct ((z =? 5) || (z =? 10)); [|now injection Hrun].
  apply run_bind_inv in Hrun as (? & m1 & H1 & Hrun).
  apply load_grid_inv in H1 as [-> _].
  apply run_bind_inv in Hrun as (? & m2 & H2 & Hrun).
  apply load_grid_inv in H2 as [-> _].
  apply run_bind_inv in Hrun as (? & m3 & H3 & Hrun).
  apply load_grid_inv in H3 as [-> _].
  apply run_bind_inv in Hrun as (? & m4 & H4 & Hrun).
  apply load_grid_inv in H4 as [-> _].
  destruct (z =? 5), (fle th _); now injection Hrun.
Qed.

Lemma store_seg_inv i (v : F) m u m' :
  store_seg i v m = Some (u, m') →
  0 ≤ i < Z.of_nat (length (segments_out m))
  ∧ length (segments_out m') = length (segments_out m)
  ∧ grid_values m' = grid_values m.
Proof.
  unfold store_seg, write.
  destruct (Z.leb_spec 0 i), (Z.ltb_spec i (Z.of_nat (length (segments_out m))));
    simpl; try discriminate.
  intros [= _ <-]. simpl. rewrite length_insert. auto with lia.
Qed.

(** A segment stored: the count grows by one and still fits. *)
Lemma emit_pair_fits room g cols ox oy cs th r c pairs p n m n' m' :
  fits room g n m →
  emit_pair cols ox oy cs th r c pairs p n m = Some (n', m') →
  n' = n + 1 ∧ fits room g n' m'.
Proof.
  intros (Hn & _ & Hlen & Hg) Hrun. unfold emit_pair in Hrun.
  apply run_bind_inv in Hrun as ([x0 y0] & m1 & H1 & Hrun).
  apply get_edge_point_same in H1 as ->.
  apply run_bind_inv in Hrun as ([x1 y1] & m2 & H2 & Hrun).
  apply get_edge_point_same in H2 as ->.
  apply run_bind_inv in Hrun as (? & m3 & H3 & Hrun).
  apply store_seg_inv in H3 as (_ & L3 & G3).
  apply run_bind_inv in Hrun as (? & m4 & H4 & Hrun).
  apply store_seg_inv in H4 as (_ & L4 & G4).
  apply run_bind_inv in Hrun as (? & m5 & H5 & Hrun).
  apply store_seg_inv in H5 as (_ & L5 & G5).
  apply run_bind_inv in Hrun as (? & m6 & H6 & Hrun).
  apply store_seg_inv in H6 as (I6 & L6 & G6).
  injection Hrun as <- <-. unfold fits.
  repeat split; (lia || congruence).
Qed.

Lemma march_cell_fits room cols ox oy cs th r c (k : corners F) n m n' m' :
  has_corners (grid_values m) cols r c k →
  fits room (grid_values m) n m →
  march_cell cols ox oy cs th r c n m = Some (n', m') →
  n' = n + Z.of_nat (length (cell_segments ox oy cs th r c k))
  ∧ fits room (grid_values m) n' m'.
Proof.
  intros (Ktl & Ktr & Kbr & Kbl) Hfit Hrun. unfold march_cell in Hrun.
  apply run_bind_inv in Hrun as (tl & m1 & H1 & Hrun).
  apply load_grid_inv in H1 as [-> Rtl].
  apply run_bind_inv in Hrun as (tr & m2 & H2 & Hrun).
  apply load_grid_inv in H2 as [-> Rtr].
  apply run_bind_inv in Hrun as (br & m3 & H3 & Hrun).
  apply load_grid_inv in H3 as [-> Rbr].
  apply run_bind_inv in Hrun as (bl & m4 & H4 & Hrun).
  apply load_grid_inv in H4 as [-> Rbl].
  assert (tl = c_tl k) as -> by congruence.
  assert (tr = c_tr k) as -> by congruence.
  assert (br = c_br k) as -> by congruence.
  assert (bl = c_bl k) as -> by congruence.
  cbv zeta in Hrun. fold (cell_case th k) in Hrun.
  rewrite cell_segments_length.
  pose proof (cell_case_range th k) as Hz.
  pose proof (num_pairs_range _ Hz) as Hnp.
  destruct ((cell_case th k =? 0) || (cell_case th k =? 15)) eqn:E.
  - injection Hrun as <- <-.
    assert (table_get NUM_PAIRS (cell_case th k) 0 = 0) as ->.
    { apply orb_true_iff in E as [E|E]; apply Z.eqb_eq in E; now rewrite E. }
    split; [lia|exact Hfit].
  - apply run_bind_inv in Hrun as (q & m5 & H5 & Hrun).
    apply saddle_pairs_same in H5 as ->.
    unfold emit_pairs, for_range in Hrun.
    eapply (for_loop_keeps
              (λ p a m1, a = n + p ∧ fits room (grid_values m) a m1))
      in Hrun.
    + destruct Hrun as [-> Hfit']. split; [lia|exact Hfit'].
    + intros p a m1 a' m1' _ [-> Hf] Hstep.
      destruct (emit_pair_fits _ _ _ _ _ _ _ _ _ _ _ _ _ _ _ Hf Hstep)
        as [-> Hf'].
      split; [lia|exact Hf'].
    + split; [lia|exact Hfit].
Qed.

(** When the sweep returns, it returns the number of segments of
    [sweep_segments], and the output buffer holds four floats for each. *)
Lemma marching_squares_fits cols rows ox oy cs th m n m' :
  Z.of_nat (length (grid_values m)) = rows * cols →
  1 ≤ cols → 1 ≤ rows →
  marching_squares cols rows ox oy cs th m = Some (n, m') →
  n = Z.of_nat (length (sweep_segments (grid_values m) cols rows ox oy cs th))
  ∧ 4 * n ≤ Z.of_nat (length (segments_out m)).
Proof.
  intros Hg Hcols Hrows Hrun. unfold marching_squares, for_range in Hrun.
  unfold sweep_segments.
  set (g := grid_values m) in *.
  set (room := length (segments_out m)).
  set (row := row_segments g cols ox oy cs th).
  eapply (for_loop_keeps
            (λ r a m1, a = Z.of_nat (length (seqZ 0 r ≫= row))
                       ∧ fits room g a m1)) in Hrun.
  - destruct Hrun as [-> (_ & Hroom & _)].
    replace (0 + Z.of_nat (Z.to_nat (rows - 1 - 0))) with (rows - 1) in *
      by lia.
    split; [reflexivity|exact Hroom].
  - intros r a m1 a' m1' Hr [-> Hfit] Hrow.
    rewrite bind_seqZ_snoc by lia. rewrite length_app, Nat2Z.inj_add.
    generalize dependent (Z.of_nat (length (seqZ 0 r ≫= row))).
    intros n0 Hfit Hrow. unfold for_range in Hrow.
    set (f := λ c, cell_segments ox oy cs th r c (corners_of g cols r c)).
    eapply (for_loop_keeps
              (λ c a m2, a = n0 + Z.of_nat (length (seqZ 0 c ≫= f))
                         ∧ fits room g a m2)) in Hrow.
    + replace (0 + Z.of_nat (Z.to_nat (cols - 1 - 0))) with (cols - 1) in Hrow
        by lia.
      exact Hrow.
    + intros c a m2 a2 m2' Hc [-> Hf] Hcell.
      rewrite bind_seqZ_snoc by lia. rewrite length_app, Nat2Z.inj_add.
      pose proof Hf as (_ & _ & _ & Hgrid).
      rewrite <- Hgrid in Hf.
      eapply (march_cell_fits room cols ox oy cs th r c
                (corners_of g cols r c)) in Hcell; [| |exact Hf].
      * destruct Hcell as [-> Hf']. rewrite Hgrid in Hf'.
        split; [unfold f; lia|exact Hf'].
      * rewrite Hgrid. apply (has_corners_of cols rows); (assumption || lia).
    + split; [simpl; lia|exact Hfit].
  - split; [reflexivity|]. repeat split; simpl; lia.
Qed.
End RoomNeeded.

Section RoomProperties.
Context {F : Type} `{FloatOps F}.

(** X5. [segments_out] needs exactly four floats for each segment the
    sweep produces: with that much room [marching_squares] returns their
    number and stores them at the front of the buffer, and with less room
    a store falls outside the buffer (the run is undefined). *)
Theorem marching_squares_exact_room cols rows origin_x origin_y cell_size
    threshold (m : memory F) :
  2 ≤ cols → 2 ≤ rows →
  Z.of_nat (length (grid_values m)) = rows * cols →
  let S := sweep_segments (grid_values m) cols rows
             origin_x origin_y cell_size threshold in
  (4 * Z.of_nat (length S) ≤ Z.of_nat (length (segments_out m)) →
   marching_squares cols rows origin_x origin_y cell_size threshold m
   = Some (Z.of_nat (length S),
           set_segments m
             ((S ≫= segment_floats)
              ++ drop (4 * length S) (segments_out m))))
  ∧ (Z.of_nat (length (segments_out m)) < 4 * Z.of_nat (length S) →
     marching_squares cols rows origin_x origin_y cell_size threshold m
     = None).
Proof.
  intros Hcols Hrows Hg S. split.
  - intros Hroom. apply marching_squares_tight; (assumption || lia).
  - intros Hshort.
    destruct (marching_squares cols rows origin_x origin_y cell_size
                threshold m) as [[n m']|] eqn:Hrun; [exfalso|reflexivity].
    destruct (marching_squares_fits cols rows _ _ _ _ _ _ _ Hg
                ltac:(lia) ltac:(lia) Hrun) as [-> Hfit].
    fold S in Hfit. lia.
Qed.
End RoomProperties.

Section Tables.
Context {F : Type} `{FloatOps F}.

Lemma resolved_pairs_valid z b p :
  0 ≤ z ≤ 15 → 0 ≤ p < table_get NUM_PAIRS z 0 →
  let e := pair_at (resolved_pairs z b) p in
  0 ≤ e.1 ≤ 3 ∧ 0 ≤ e.2 ≤ 3 ∧ e.1 ≠ e.2.
Proof.
  intros Hz Hp. case_split z; destruct b;
    set (np := table_get NUM_PAIRS _ 0) in Hp; vm_compute in np; subst np;
    first [ exfalso; lia
          | (assert (p = 0) as -> by lia)
          | (assert (p = 0 ∨ p = 1) as [-> | ->] by lia) ];
    vm_compute; repeat split; discriminate.
Qed.

(** X6. For every case index, the pairs the loop over [p < numPairs]
    reads, after the saddle disambiguation, name edges in 0..3, two
    different edges each; the entries of [EDGE_TABLE] from [numPairs] on
    are the padding (-1, -1), so the padding never reaches
    [get_edge_point]; and the two segments of a saddle use four different
    edges. *)
Theorem edge_pairs_valid cols threshold (m : memory F) r c (k : corners F)
    (caseIndex : Z) :
  has_corners (grid_values m) cols r c k →
  0 ≤ caseIndex ≤ 15 →
  let table := table_get EDGE_TABLE caseIndex ((-1, -1), (-1, -1)) in
  let numPairs := table_get NUM_PAIRS caseIndex 0 in
  ∃ pairs,
    saddle_pairs cols r c caseIndex threshold table m = Some (pairs, m)
    ∧ (∀ p, 0 ≤ p < numPairs →
         0 ≤ (pair_at pairs p).1 ≤ 3 ∧ 0 ≤ (pair_at pairs p).2 ≤ 3
         ∧ (pair_at pairs p).1 ≠ (pair_at pairs p).2)
    ∧ (∀ p, numPairs ≤ p < 2 → pair_at table p = (-1, -1))
    ∧ (numPairs = 2 →
       (pair_at pairs 0).1 ≠ (pair_at pairs 1).1
       ∧ (pair_at pairs 0).1 ≠ (pair_at pairs 1).2
       ∧ (pair_at pairs 0).2 ≠ (pair_at pairs 1).1
       ∧ (pair_at pairs 0).2 ≠ (pair_at pairs 1).2).
Proof.
  intros Hk Hz table numPairs.
  exists (resolved_pairs caseIndex (fle threshold (cell_center k))).
  split; [now apply saddle_pairs_run|].
  generalize (fle threshold (cell_center k)) as b. intros b.
  split; [|split].
  - intros p Hp. now apply resolved_pairs_valid.
  - subst table numPairs. intros p Hp. case_split caseIndex;
      set (np := table_get NUM_PAIRS _ 0) in Hp; vm_compute in np; subst np;
      first [ exfalso; lia
            | (assert (p = 1) as -> by lia)
            | (assert (p = 0 ∨ p = 1) as [-> | ->] by lia) ];
      reflexivity.
  - subst numPairs. intros Hnp. case_split caseIndex;
      try (vm_compute in Hnp; discriminate);
      destruct b; vm_compute; repeat split; discriminate.
Qed.

(** X7. Every pair the loop reads is oriented the same way round the
    inside: going clockwise round the cell, the first edge of a pair
    starts at a corner inside and ends at a corner outside, and the second
    edge starts at a corner outside and ends at a corner inside.  So
    swapping inside and outside (case index [15 - z], the outcome of the
    centre test negated) selects the same segments with their two
    endpoints exchanged. *)
Theorem edge_pairs_oriented (z : Z) (b : bool) (e1 e2 : edge) :
  0 ≤ z ≤ 15 →
  ((e1, e2) ∈ cell_edges z b →
     Z.testbit z (edge_start e1) = true ∧ Z.testbit z (edge_end e1) = false
     ∧ Z.testbit z (edge_start e2) = false ∧ Z.testbit z (edge_end e2) = true)
  ∧ ((e1, e2) ∈ cell_edges z b ↔ (e2, e1) ∈ cell_edges (15 - z) (negb b)).
Proof.
  intros Hz. case_split z; destruct b; vm_compute cell_edges;
    rewrite ?elem_of_cons, ?elem_of_nil;
    destruct e1, e2; (split; [|split]); intros Hin;
    repeat match goal with
    | H : _ ∨ _ |- _ => destruct H
    | H : False |- _ => destruct H
    | H : (_, _) = (_, _) |- _ => try discriminate H; clear H
    end; auto.
Qed.
End Tables.

Section DistanceProperties.
Local Open Scope R_scope.

(** X8. In exact arithmetic, for an edge of squared length at least
    1e-12 [dist_to_segment_sq] is the least squared distance from the
    point to the points [a + s (b - a)], [0 <= s <= 1], of the segment,
    and it is attained; for a shorter edge it is the squared distance to
    the first endpoint. *)
Theorem dist_to_segment_sq_minimum (px py ax ay bx by_ : R) :
  let lenSq := (bx - ax) * (bx - ax) + (by_ - ay) * (by_ - ay) in
  let to_point (s : R) :=
    (px - (ax + s * (bx - ax))) * (px - (ax + s * (bx - ax)))
    + (py - (ay + s * (by_ - ay))) * (py - (ay + s * (by_ - ay))) in
  (lenSq < 1 / 1000000000000 →
   dist_to_segment_sq px py ax ay bx by_
   = (px - ax) * (px - ax) + (py - ay) * (py - ay))
  ∧
  (1 / 1000000000000 <= lenSq →
   (∃ s, 0 <= s <= 1 ∧ dist_to_segment_sq px py ax ay bx by_ = to_point s)
   ∧ ∀ s, 0 <= s <= 1 → dist_to_segment_sq px py ax ay bx by_ <= to_point s).
Proof.
  intros lenSq to_point. split.
  - intros Hshort. unfold dist_to_segment_sq. simpl.
    replace (Exact.Rltb _ (1 / 1000000000000)) with true; [reflexivity|].
    symmetry. apply Rltb_true. exact Hshort.
  - intros Hlong. split.
    + apply dist_to_segment_sq_attained.
    + intros s Hs. now apply dist_to_segment_sq_least.
Qed.

(** Exchanging the endpoints of an edge that is not degenerate does not
    raise the value. *)
Lemma dist_to_segment_sq_swap_le (px py ax ay bx by_ : R) :
  1 / 1000000000000 <= (bx - ax) * (bx - ax) + (by_ - ay) * (by_ - ay) →
  dist_to_segment_sq px py ax ay bx by_
  <= dist_to_segment_sq px py bx by_ ax ay.
Proof.
  intros Hlong.
  destruct (dist_to_segment_sq_attained px py bx by_ ax ay)
    as (s & Hs & ->).
  pose proof (dist_to_segment_sq_least px py ax ay bx by_ (1 - s) Hlong
                ltac:(lra)) as Hle.
  eapply Rle_trans; [exact Hle|]. apply Req_le. ring.
Qed.

(** X9. In exact arithmetic, for an edge of squared length at least
    1e-12 [dist_to_segment_sq] does not depend on which endpoint comes
    first. *)
Theorem dist_to_segment_sq_symmetric (px py ax ay bx by_ : R) :
  1 / 1000000000000 <= (bx - ax) * (bx - ax) + (by_ - ay) * (by_ - ay) →
  dist_to_segment_sq px py ax ay bx by_
  = dist_to_segment_sq px py bx by_ ax ay.
Proof.
  intros Hlong.
  apply Rle_antisym; apply dist_to_segment_sq_swap_le; [exact Hlong|].
  replace ((ax - bx) * (ax - bx) + (ay - by_) * (ay - by_))
    with ((bx - ax) * (bx - ax) + (by_ - ay) * (by_ - ay)) by ring.
  exact Hlong.
Qed.

(** X10. In exact arithmetic, when [|v1 - v0| >= 1e-10] the linear
    interpolant between [v0] and [v1] takes the value [threshold] at the
    parameter [lerp1d] returns. *)
Theorem lerp1d_reaches_threshold (v0 v1 threshold : R) :
  1 / 10000000000 <= Rabs (v1 - v0) →
  v0 + lerp1d v0 v1 threshold * (v1 - v0) = threshold.
Proof.
  intros Hd. unfold lerp1d. simpl.
  replace (Exact.Rltb _ _) with false
    by (symmetry; apply Rltb_false; exact Hd).
  assert (v1 - v0 ≠ 0) as Hne.
  { intros Hz. rewrite Hz, Rabs_R0 in Hd. lra. }
  field. exact Hne.
Qed.

(** X11. In exact arithmetic, [lerp1d] of an edge taken from its other
    end is one minus [lerp1d]: both directions give the same point of the
    edge, the midpoint rule included. *)
Theorem lerp1d_reversed (v0 v1 threshold : R) :
  lerp1d v1 v0 threshold = 1 - lerp1d v0 v1 threshold.
Proof.
  unfold lerp1d. simpl.
  replace (Rabs (v0 - v1)) with (Rabs (v1 - v0))
    by (rewrite <- Rabs_Ropp; f_equal; ring).
  unfold Exact.Rltb.
  destruct (Rlt_dec (Rabs (v1 - v0)) (1 / 10000000000)) as [Hflat|Hd];
    [lra|].
  assert (v1 - v0 ≠ 0) as Hne.
  { intros Hz. apply Hd. rewrite Hz, Rabs_R0. lra. }
  field. split; lra.
Qed.
End DistanceProperties.

Section Binary32Edges.
Import Binary32.
Local Existing Instance Binary32.ops.

(** X12. In binary32, when the threshold is a NaN, or every grid value
    is, no corner counts as inside: [marching_squares] returns 0 and
    stores nothing. *)
Theorem marching_squares_nan_binary32 cols rows
    (origin_x origin_y cell_size threshold : float32) (m : memory float32) :
  1 ≤ cols →
  Z.of_nat (length (grid_values m)) = rows * cols →
  threshold = S754_nan ∨ (∀ v, v ∈ grid_values m → v = S754_nan) →
  marching_squares cols rows origin_x origin_y cell_size threshold m
  = Some (0, m).
Proof.
  intros Hcols Hlen Hnan.
  assert (∀ v, v ∈ grid_values m → fle threshold v = false) as Hout.
  { intros v Hv. destruct Hnan as [-> | Hall]; [reflexivity|].
    rewrite (Hall v Hv). now destruct threshold. }
  unfold marching_squares.
  destruct (Z_le_gt_dec (rows - 1) 0) as [Hthin|Hrows].
  { now rewrite for_range_nil by lia. }
  apply (for_range_run 0 (rows - 1) _ (λ _, 0) (λ _, m)); [lia|].
  intros r Hr.
  now apply (march_row_uniform cols rows _ _ _ _ m false).
Qed.

Lemma cast_of_quotient_by_zero (x cell_size : float32) (up : bool) :
  (∃ s, cell_size = S754_zero s) ∨ cell_size = S754_nan →
  to_int ((if up then ceilf else floorf) (fdiv x cell_size)) = None.
Proof.
  intros [[s ->] | ->]; destruct x, up; reflexivity.
Qed.

(** X13. In binary32, with [cell_size] a zero or a NaN and at least one
    edge to process, [add_bridge_field] is undefined: the quotient by
    [cell_size] is an infinity or a NaN, and its cast to [int] has no
    value (unless the read of the edge is already out of bounds). *)
Theorem add_bridge_field_zero_cell_size (expf : float32 → float32) cols rows
    (origin_x origin_y cell_size base_sigma : float32) num_mst_edges
    (m : memory float32) :
  (∃ s, cell_size = S754_zero s) ∨ cell_size = S754_nan →
  1 ≤ num_mst_edges →
  add_bridge_field expf cols rows origin_x origin_y cell_size
    num_mst_edges base_sigma m = None.
Proof.
  intros Hcs Hn. unfold add_bridge_field. cbv zeta.
  rewrite for_range_step by lia.
  unfold mbind, M_bind, bind at 1.
  assert (bridge_edge expf cols rows origin_x origin_y cell_size
            (fmaxf base_sigma (fmul cell_size (flit 5 2))) 0 m = None)
    as ->; [|reflexivity].
  unfold bridge_edge.
  unfold mbind, M_bind, bind, load_edge, lift.
  destruct (read (mst_edges m) (0 * 4 + 0)) as [ax|]; [|reflexivity].
  destruct (read (mst_edges m) (0 * 4 + 1)) as [ay|]; [|reflexivity].
  destruct (read (mst_edges m) (0 * 4 + 2)) as [bx|]; [|reflexivity].
  destruct (read (mst_edges m) (0 * 4 + 3)) as [by_|]; [|reflexivity].
  cbv zeta.
  now rewrite (cast_of_quotient_by_zero _ cell_size false Hcs).
Qed.

(** X14. In binary32, [lerp1d] between two equal finite values is 0.5f
    whatever the threshold: the guard catches the zero difference before
    the division; between two equal infinities the difference is a NaN,
    the guard does not catch it and the result is a NaN. *)
Theorem lerp1d_flat_binary32 (v threshold : float32) :
  (finite32 v = true → lerp1d v v threshold = lit32 1 2)
  ∧ (∀ s, v = S754_infinity s → lerp1d v v threshold = S754_nan).
Proof.
  split.
  - intros Hv. unfold lerp1d.
    assert (fsub v v = S754_zero false) as ->; [|reflexivity].
    destruct v as [[|]| | |s m e]; try discriminate; try reflexivity.
    simpl. unfold SFsub. rewrite Z.sub_diag. reflexivity.
  - intros s ->. destruct s, threshold as [[|]|[|]| |s' m e]; reflexivity.
Qed.
End Binary32Edges.

Section SharedEdges.
Context {F : Type} `{FloatOps F}.

Lemma corners_of_right (g : list F) cols r c :
  let k := corners_of g cols r c in
  let k' := corners_of g cols r (c + 1) in
  c_tl k' = c_tr k ∧ c_bl k' = c_br k.
Proof.
  unfold corners_of. simpl.
  replace (r * cols + (c + 1)) with (r * cols + c + 1) by lia.
  replace ((r + 1) * cols + (c + 1)) with ((r + 1) * cols + c + 1) by lia.
  split; reflexivity.
Qed.

Lemma corners_of_below (g : list F) cols r c :
  let k := corners_of g cols r c in
  let k' := corners_of g cols (r + 1) c in
  c_tl k' = c_bl k ∧ c_tr k' = c_br k.
Proof. unfold corners_of. simpl. split; reflexivity. Qed.
End SharedEdges.

Section Watertight.
Local Open Scope R_scope.

(** X15. The edge shared by two neighbouring cells gets its crossing
    point from either cell: the right edge of cell [(r, c)] and the left
    edge of cell [(r, c+1)], the bottom edge of [(r, c)] and the top edge
    of [(r+1, c)].  The interpolated coordinate is the same in every
    arithmetic, the whole point is the same in exact arithmetic, and in
    binary32 the other coordinate can differ ([x0 + cell_size] against
    [origin_x + (c+1) * cell_size]). *)
Theorem shared_edge_points_agree :
  (* the interpolated coordinate: in every arithmetic *)
  (∀ {F : Type} `{FloatOps F} cols rows origin_x origin_y cell_size threshold
     (m : memory F) r c,
     Z.of_nat (length (grid_values m)) = (rows * cols)%Z →
     (0 ≤ r < rows - 1)%Z → (0 ≤ c < cols - 1)%Z →
     (c + 1 < cols - 1 →
      ∃ p q,
        get_edge_point cols origin_x origin_y cell_size r c 1 threshold m
        = Some (p, m)
        ∧ get_edge_point cols origin_x origin_y cell_size r (c + 1) 3
            threshold m = Some (q, m)
        ∧ p.2 = q.2)%Z
     ∧
     (r + 1 < rows - 1 →
      ∃ p q,
        get_edge_point cols origin_x origin_y cell_size r c 2 threshold m
        = Some (p, m)
        ∧ get_edge_point cols origin_x origin_y cell_size (r + 1) c 0
            threshold m = Some (q, m)
        ∧ p.1 = q.1)%Z)
  ∧
  (* the whole point: in exact arithmetic *)
  (∀ cols rows (origin_x origin_y cell_size threshold : R) (m : memory R) r c,
     Z.of_nat (length (grid_values m)) = (rows * cols)%Z →
     (0 ≤ r < rows - 1)%Z → (0 ≤ c < cols - 1)%Z →
     (c + 1 < cols - 1 →
      get_edge_point cols origin_x origin_y cell_size r c 1 threshold m
      = get_edge_point cols origin_x origin_y cell_size r (c + 1) 3
          threshold m)%Z
     ∧
     (r + 1 < rows - 1 →
      get_edge_point cols origin_x origin_y cell_size r c 2 threshold m
      = get_edge_point cols origin_x origin_y cell_size (r + 1) c 0
          threshold m)%Z)
  ∧
  (* the fixed coordinate can differ in binary32: cells of size 0.1f,
     columns 6 and 7 *)
  (∃ p q,
     get_edge_point 9 zero32 zero32 tenth32 0 6 1 half32 strip_memory
     = Some (p, strip_memory)
     ∧ get_edge_point 9 zero32 zero32 tenth32 0 7 3 half32 strip_memory
       = Some (q, strip_memory)
     ∧ p.1 ≠ q.1 ∧ p.2 = q.2).
Proof.
  split; [|split].
  3:{ do 2 eexists. split; [vm_compute; reflexivity|].
      split; [vm_compute; reflexivity|]. split; [discriminate|reflexivity]. }
  - intros F H cols rows ox oy cs th m r c Hlen Hr Hc. split.
    + intros Hc'.
      pose proof (has_corners_of cols rows _ r c Hlen Hr Hc) as Hk.
      pose proof (has_corners_of cols rows _ r (c + 1) Hlen Hr
                    ltac:(lia)) as Hk'.
      do 2 eexists.
      split; [apply (get_edge_point_run cols ox oy cs th m r c _ Right Hk)|].
      split; [apply (get_edge_point_run cols ox oy cs th m r (c + 1) _ Left
                       Hk')|].
      destruct (corners_of_right (grid_values m) cols r c) as [Htl Hbl].
      cbv zeta in Htl, Hbl.
      unfold edge_xy, edge_t, edge_ends. cbn [fst snd]. now rewrite Htl, Hbl.
    + intros Hr'.
      pose proof (has_corners_of cols rows _ r c Hlen Hr Hc) as Hk.
      pose proof (has_corners_of cols rows _ (r + 1) c Hlen
                    ltac:(lia) Hc) as Hk'.
      do 2 eexists.
      split; [apply (get_edge_point_run cols ox oy cs th m r c _ Bottom Hk)|].
      split; [apply (get_edge_point_run cols ox oy cs th m (r + 1) c _ Top
                       Hk')|].
      destruct (corners_of_below (grid_values m) cols r c) as [Htl Htr].
      cbv zeta in Htl, Htr.
      unfold edge_xy, edge_t, edge_ends. cbn [fst snd]. now rewrite Htl, Htr.
  - intros cols rows ox oy cs th m r c Hlen Hr Hc. split.
    + intros Hc'.
      pose proof (has_corners_of cols rows _ r c Hlen Hr Hc) as Hk.
      pose proof (has_corners_of cols rows _ r (c + 1) Hlen Hr
                    ltac:(lia)) as Hk'.
      rewrite (get_edge_point_run cols ox oy cs th m r c _ Right Hk).
      rewrite (get_edge_point_run cols ox oy cs th m r (c + 1) _ Left Hk').
      destruct (corners_of_right (grid_values m) cols r c) as [Htl Hbl].
      cbv zeta in Htl, Hbl.
      unfold edge_xy, edge_t, edge_ends. cbn [fst snd]. rewrite Htl, Hbl.
      do 2 f_equal. cbn [fadd fmul of_int Exact.ops].
      f_equal. rewrite plus_IZR. lra.
    + intros Hr'.
      pose proof (has_corners_of cols rows _ r c Hlen Hr Hc) as Hk.
      pose proof (has_corners_of cols rows _ (r + 1) c Hlen
                    ltac:(lia) Hc) as Hk'.
      rewrite (get_edge_point_run cols ox oy cs th m r c _ Bottom Hk).
      rewrite (get_edge_point_run cols ox oy cs th m (r + 1) c _ Top Hk').
      destruct (corners_of_below (grid_values m) cols r c) as [Htl Htr].
      cbv zeta in Htl, Htr.
      unfold edge_xy, edge_t, edge_ends. cbn [fst snd]. rewrite Htl, Htr.
      do 2 f_equal. cbn [fadd fmul of_int Exact.ops].
      f_equal. rewrite plus_IZR. lra.
Qed.
End Watertight.

Section ListFacts.
Lemma fmap_bind_list {A B C} (f : B → C) (g : A → list B) (l : list A) :
  f <$> (l ≫= g) = l ≫= (λ x, f <$> g x).
Proof.
  induction l as [|x l IH]; [reflexivity|].
  now rewrite !bind_cons, fmap_app, IH.
Qed.

Lemma bind_seqZ_ext {B} (f g : Z → list B) (n : Z) :
  (∀ i, 0 ≤ i < n → f i = g i) → seqZ 0 n ≫= f = seqZ 0 n ≫= g.
Proof.
  intros Hfg. apply Forall_bind_ext, Forall_forall.
  intros i Hi. apply elem_of_seqZ in Hi. apply Hfg. lia.
Qed.
End ListFacts.

Section ExactInvariance.
Local Open Scope R_scope.
Local Existing Instance Exact.ops.

Lemma edge_xy_shift ox oy cs th dx dy r c k e :
  edge_xy (ox + dx) (oy + dy) cs th r c k e
  = ((edge_xy ox oy cs th r c k e).1 + dx,
     (edge_xy ox oy cs th r c k e).2 + dy).
Proof.
  unfold edge_xy. generalize (edge_t th k e). intros t.
  destruct e; cbn [fst snd fadd fmul of_int Exact.ops]; f_equal; lra.
Qed.

Lemma cell_segments_shift ox oy cs th dx dy r c k :
  cell_segments (ox + dx) (oy + dy) cs th r c k
  = shift_segment dx dy <$> cell_segments ox oy cs th r c k.
Proof.
  unfold cell_segments. rewrite <- list_fmap_compose.
  apply list_fmap_ext. intros _ [e1 e2] _. cbn [compose fst snd].
  unfold shift_segment. cbn [fst snd]. now rewrite !edge_xy_shift.
Qed.

Lemma sweep_segments_shift g cols rows ox oy cs th dx dy :
  sweep_segments g cols rows (ox + dx) (oy + dy) cs th
  = shift_segment dx dy <$> sweep_segments g cols rows ox oy cs th.
Proof.
  unfold sweep_segments, row_segments.
  rewrite fmap_bind_list. apply list_bind_ext; [|reflexivity]. intros r.
  rewrite fmap_bind_list. apply list_bind_ext; [|reflexivity]. intros c.
  apply cell_segments_shift.
Qed.

(** X16. In exact arithmetic, moving the origin by [(dx, dy)] moves
    every segment [marching_squares] stores by [(dx, dy)] and changes
    nothing else. *)
Theorem marching_squares_translation cols rows
    (origin_x origin_y cell_size threshold dx dy : R) (m : memory R) :
  (2 ≤ cols)%Z → (2 ≤ rows)%Z →
  Z.of_nat (length (grid_values m)) = (rows * cols)%Z →
  (8 * (rows - 1) * (cols - 1) ≤ Z.of_nat (length (segments_out m)))%Z →
  ∃ S : list ((R * R) * (R * R)),
    marching_squares cols rows origin_x origin_y cell_size threshold m
    = Some (Z.of_nat (length S),
            set_segments m
              ((S ≫= segment_floats) ++ drop (4 * length S) (segments_out m)))
    ∧ marching_squares cols rows (origin_x + dx) (origin_y + dy) cell_size
        threshold m
      = Some (Z.of_nat (length S),
              set_segments m
                (((shift_segment dx dy <$> S) ≫= segment_floats)
                 ++ drop (4 * length S) (segments_out m))).
Proof.
  intros Hcols Hrows Hg Hroom.
  destruct (marching_squares_flat cols rows origin_x origin_y cell_size
              threshold m) as [Hrun _]; [lia|lia|assumption..|].
  destruct (marching_squares_flat cols rows (origin_x + dx) (origin_y + dy)
              cell_size threshold m) as [Hrun' _]; [lia|lia|assumption..|].
  eexists. split; [exact Hrun|].
  rewrite Hrun'. change (fadd origin_x dx) with (origin_x + dx).
  change (fadd origin_y dy) with (origin_y + dy).
  rewrite sweep_segments_shift, length_fmap. reflexivity.
Qed.

Lemma inside_level (v threshold k : R) :
  inside (v + k) (threshold + k) = inside v threshold.
Proof.
  rewrite !inside_exact.
  destruct (Rle_dec (threshold + k) (v + k)), (Rle_dec threshold v);
    (reflexivity || lra).
Qed.

Lemma lerp1d_level (v0 v1 threshold k : R) :
  lerp1d (v0 + k) (v1 + k) (threshold + k) = lerp1d v0 v1 threshold.
Proof.
  unfold lerp1d. cbn [fsub fabsf flt fdiv flit Exact.ops].
  replace (v1 + k - (v0 + k)) with (v1 - v0) by ring.
  replace (threshold + k - (v0 + k)) with (threshold - v0) by ring.
  reflexivity.
Qed.

Lemma cell_segments_level ox oy cs th d r c k :
  cell_segments ox oy cs (th + d) r c (raise_corners d k)
  = cell_segments ox oy cs th r c k.
Proof.
  unfold cell_segments.
  assert (cell_case (th + d) (raise_corners d k) = cell_case th k) as ->.
  { unfold cell_case, raise_corners. cbn [c_tl c_tr c_br c_bl].
    now rewrite !inside_level. }
  assert (fle (th + d) (cell_center (raise_corners d k))
          = fle th (cell_center k)) as ->.
  { unfold cell_center, raise_corners.
    cbn [c_tl c_tr c_br c_bl fadd fdiv fle flit Exact.ops].
    unfold Exact.Rleb.
    destruct (Rle_dec _ _), (Rle_dec _ _); (reflexivity || lra). }
  apply list_fmap_ext. intros _ [e1 e2] _. cbn [fst snd].
  assert (∀ e, edge_xy ox oy cs (th + d) r c (raise_corners d k) e
               = edge_xy ox oy cs th r c k e) as Hxy.
  { intros e. unfold edge_xy.
    assert (edge_t (th + d) (raise_corners d k) e = edge_t th k e) as ->;
      [|reflexivity].
    unfold edge_t, edge_ends, raise_corners.
    destruct e; cbn [fst snd c_tl c_tr c_br c_bl]; apply lerp1d_level. }
  now rewrite !Hxy.
Qed.

Lemma corners_of_raise (g : list R) cols rows d r c :
  Z.of_nat (length g) = (rows * cols)%Z →
  (0 ≤ r < rows - 1)%Z → (0 ≤ c < cols - 1)%Z →
  corners_of ((λ v, v + d) <$> g) cols r c
  = raise_corners d (corners_of g cols r c).
Proof.
  intros Hlen Hr Hc. unfold corners_of, raise_corners.
  cbn [c_tl c_tr c_br c_bl].
  assert (∀ i, (0 ≤ i < rows * cols)%Z →
               default (flit 0 1) (read ((λ v, v + d) <$> g) i)
               = default (flit 0 1) (read g i) + d) as Hread.
  { intros i Hi. destruct (read_Some g i) as [v Hv]; [lia|].
    rewrite Hv. unfold read in *.
    destruct (0 <=? i)%Z; [|discriminate].
    now rewrite list_lookup_fmap, Hv. }
  rewrite !Hread by nia. reflexivity.
Qed.

(** X17. In exact arithmetic, adding the same [d] to every grid value
    and to the threshold leaves the count and the stored segments as they
    are. *)
Theorem marching_squares_level_shift cols rows
    (origin_x origin_y cell_size threshold d : R)
    (g edges segs : list R) :
  (2 ≤ cols)%Z → (2 ≤ rows)%Z →
  Z.of_nat (length g) = (rows * cols)%Z →
  (8 * (rows - 1) * (cols - 1) ≤ Z.of_nat (length segs))%Z →
  ∃ n segs',
    marching_squares cols rows origin_x origin_y cell_size threshold
      (Memory g edges segs)
    = Some (n, Memory g edges segs')
    ∧ marching_squares cols rows origin_x origin_y cell_size (threshold + d)
        (Memory ((λ v, v + d) <$> g) edges segs)
      = Some (n, Memory ((λ v, v + d) <$> g) edges segs').
Proof.
  intros Hcols Hrows Hg Hroom.
  destruct (marching_squares_flat cols rows origin_x origin_y cell_size
              threshold (Memory g edges segs)) as [Hrun _];
    [lia|lia|assumption..|].
  destruct (marching_squares_flat cols rows origin_x origin_y cell_size
              (threshold + d) (Memory ((λ v, v + d) <$> g) edges segs))
    as [Hrun' _]; [lia|lia| |assumption|].
  { simpl. now rewrite length_fmap. }
  do 2 eexists. split; [exact Hrun|].
  rewrite Hrun'. cbn [grid_values segments_out set_segments mst_edges].
  assert (sweep_segments ((λ v, v + d) <$> g) cols rows origin_x origin_y
            cell_size (threshold + d)
          = sweep_segments g cols rows origin_x origin_y cell_size threshold)
    as ->; [|reflexivity].
  unfold sweep_segments. apply bind_seqZ_ext. intros r Hr.
  unfold row_segments. apply bind_seqZ_ext. intros c Hc.
  rewrite (corners_of_raise g cols rows) by (assumption || lia).
  apply cell_segments_level.
Qed.
End ExactInvariance.

Section EdgeLists.
Context {F : Type} `{FloatOps F}.
Implicit Types (g : list F) (e : bridge F).

Lemma read_skip4 (a b c d : F) (l : list F) (j : Z) :
  0 ≤ j → read (a :: b :: c :: d :: l) (j + 4) = read l j.
Proof.
  intros Hj. unfold read.
  replace (0 <=? j + 4) with true by (symmetry; apply Z.leb_le; lia).
  replace (0 <=? j) with true by (symmetry; apply Z.leb_le; lia).
  replace (Z.to_nat (j + 4)) with (S (S (S (S (Z.to_nat j))))) by lia.
  reflexivity.
Qed.

(** The buffer made of the floats of [es] holds the edges [es]. *)
Lemma bridges_at_floats (es : list (bridge F)) :
  bridges_at (es ≫= bridge_floats) es.
Proof.
  induction es as [|e0 es IH]; intros i e Hi; [discriminate|].
  destruct i as [|i].
  - injection Hi as <-. now destruct e0.
  - simpl in Hi. specialize (IH i e Hi).
    rewrite bind_cons. destruct e0 as [ax ay bx by_]. unfold bridge_floats at 1.
    cbn [b_ax b_ay b_bx b_by app]. unfold bridge_at in *.
    replace (Z.of_nat (S i) * 4 + 0) with (Z.of_nat i * 4 + 0 + 4) by lia.
    replace (Z.of_nat (S i) * 4 + 1) with (Z.of_nat i * 4 + 1 + 4) by lia.
    replace (Z.of_nat (S i) * 4 + 2) with (Z.of_nat i * 4 + 2 + 4) by lia.
    replace (Z.of_nat (S i) * 4 + 3) with (Z.of_nat i * 4 + 3 + 4) by lia.
    rewrite !read_skip4 by lia. exact IH.
Qed.

Variable expf : F → F.
Variables (cols rows : Z) (origin_x origin_y cell_size baseSigma : F).

Abbreviation add_edges :=
  (foldl (λ g e, bridge_update expf cols rows origin_x origin_y cell_size
                   baseSigma e g)).

Lemma add_edges_length (es : list (bridge F)) g :
  length (add_edges g es) = length g.
Proof.
  revert g. induction es as [|e es IH]; intros g; [reflexivity|].
  simpl. rewrite IH. apply bridge_update_length.
Qed.

Lemma bridge_update_read e g r c v :
  0 < cols → 0 ≤ r → 0 ≤ c < cols →
  read g (r * cols + c) = Some v →
  read (bridge_update expf cols rows origin_x origin_y cell_size baseSigma e g)
    (r * cols + c)
  = Some (if bridge_touches cols rows origin_x origin_y cell_size baseSigma
               e r c
          then fadd v (cell_gain expf origin_x origin_y cell_size baseSigma
                         e r c)
          else v).
Proof.
  intros Hcols Hr Hc. unfold read.
  replace (0 <=? r * cols + c) with true by (symmetry; apply Z.leb_le; nia).
  intros Hv. unfold bridge_update. rewrite grid_update_lookup, Hv. simpl.
  rewrite Z2Nat.id by nia.
  now rewrite cell_index_div, cell_index_mod by lia.
Qed.

(** Cells that no edge of the list touches keep their value. *)
Lemma add_edges_untouched (es : list (bridge F)) g r c :
  0 < cols → 0 ≤ r → 0 ≤ c < cols →
  is_Some (read g (r * cols + c)) →
  (∀ e, e ∈ es →
     bridge_touches cols rows origin_x origin_y cell_size baseSigma e r c
     = false) →
  read (add_edges g es) (r * cols + c) = read g (r * cols + c).
Proof.
  intros Hcols Hr Hc. revert g.
  induction es as [|e es IH]; intros g [v Hv] Hun; [reflexivity|].
  simpl.
  pose proof (bridge_update_read e g r c v Hcols Hr Hc Hv) as Hstep.
  rewrite (Hun e) in Hstep by left.
  rewrite IH.
  - now rewrite Hstep, Hv.
  - rewrite Hstep. now eexists.
  - intros e' He'. apply Hun. now right.
Qed.
End EdgeLists.

Section FieldComposition.
Context {F : Type} `{FloatOps F}.

(** X18. A call of [add_bridge_field] with no edge leaves the grid as it
    is, and a call with the edges [es1 ++ es2] ends with the grid of a
    call with [es1] followed by a call with [es2], in every arithmetic. *)
Theorem add_bridge_field_app (expf : F → F) cols rows
    (origin_x origin_y cell_size base_sigma : F) (g segs : list F)
    (es1 es2 : list (bridge F)) :
  let run (es : list (bridge F)) (g0 : list F) :=
    add_bridge_field expf cols rows origin_x origin_y cell_size
      (Z.of_nat (length es)) base_sigma
      (Memory g0 (es ≫= bridge_floats) segs) in
  let done (es : list (bridge F)) (g0 : list F) :=
    Some (tt, Memory g0 (es ≫= bridge_floats) segs) in
  1 ≤ cols →
  Z.of_nat (length g) = rows * cols →
  (∀ e, e ∈ es1 ++ es2 →
     is_Some (bridge_box cols rows origin_x origin_y cell_size
                (fmaxf base_sigma (fmul cell_size (flit 5 2))) e)) →
  run [] g = done [] g
  ∧ ∃ g1 g2,
      run es1 g = done es1 g1
      ∧ run es2 g1 = done es2 g2
      ∧ run (es1 ++ es2) g = done (es1 ++ es2) g2.
Proof.
  intros run done Hcols Hlen Hbox. subst run done. cbv beta.
  pose proof (λ es g0, add_bridge_field_run expf cols rows origin_x origin_y
                cell_size base_sigma (Memory g0 (es ≫= bridge_floats) segs) es)
    as Hrun.
  cbn [grid_values mst_edges set_grid segments_out] in Hrun.
  split.
  { rewrite (Hrun [] g); [reflexivity|lia|assumption| |].
    - apply bridges_at_floats.
    - intros e He. apply elem_of_nil in He. contradiction. }
  eexists _, _. split; [|split].
  - apply Hrun; [lia|assumption|apply bridges_at_floats|].
    intros e He. apply Hbox, elem_of_app. now left.
  - apply Hrun; [lia| |apply bridges_at_floats|].
    + now rewrite add_edges_length.
    + intros e He. apply Hbox, elem_of_app. now right.
  - rewrite Hrun; [|lia|assumption|apply bridges_at_floats|assumption].
    now rewrite foldl_app.
Qed.

(** X19. With a grid of [rows * cols] floats, an edge buffer that holds
    the edges and bounding-box casts that are defined, no access of
    [add_bridge_field] is out of bounds: the run returns, the grid keeps
    its length, and a cell outside the bounding box of every edge keeps
    its value. *)
Theorem add_bridge_field_local (expf : F → F) cols rows
    (origin_x origin_y cell_size base_sigma : F) (m : memory F)
    (es : list (bridge F)) :
  let baseSigma := fmaxf base_sigma (fmul cell_size (flit 5 2)) in
  1 ≤ cols →
  Z.of_nat (length (grid_values m)) = rows * cols →
  bridges_at (mst_edges m) es →
  (∀ e, e ∈ es →
     is_Some (bridge_box cols rows origin_x origin_y cell_size baseSigma e)) →
  ∃ g',
    add_bridge_field expf cols rows origin_x origin_y cell_size
      (Z.of_nat (length es)) base_sigma m = Some (tt, set_grid m g')
    ∧ length g' = length (grid_values m)
    ∧ ∀ r c, 0 ≤ r < rows → 0 ≤ c < cols →
        (∀ e box, e ∈ es →
           bridge_box cols rows origin_x origin_y cell_size baseSigma e
           = Some box →
           in_box box r c = false) →
        read g' (r * cols + c) = read (grid_values m) (r * cols + c).
Proof.
  intros baseSigma Hcols Hlen Hes Hbox.
  eexists. split; [|split].
  - apply add_bridge_field_run; (lia || assumption).
  - apply add_edges_length.
  - intros r c Hr Hc Hout.
    apply add_edges_untouched; [lia|lia|lia| |].
    + destruct (read_Some (grid_values m) (r * cols + c)) as [v Hv]; [nia|].
      rewrite Hv. now eexists.
    + intros e He. unfold bridge_touches.
      destruct (Hbox e He) as [box Hb]. fold baseSigma. rewrite Hb.
      now rewrite (Hout e box He Hb).
Qed.
End FieldComposition.

Section ExactSum.
Local Open Scope R_scope.
Local Existing Instance Exact.ops.
Variable expf : R → R.
Variables (cols rows : Z) (origin_x origin_y cell_size baseSigma : R).

Lemma add_edges_sum (es : list (bridge R)) (g : list R) r c v :
  (0 < cols)%Z → (0 ≤ r < rows)%Z → (0 ≤ c < cols)%Z →
  (∀ e, e ∈ es →
     box_covers cols rows origin_x origin_y cell_size baseSigma e) →
  read g (r * cols + c) = Some v →
  read (foldl (λ g e, bridge_update expf cols rows origin_x origin_y
                        cell_size baseSigma e g) g es) (r * cols + c)
  = Some (v + total_contribution expf origin_x origin_y cell_size baseSigma
                es r c).
Proof.
  intros Hcols Hr Hc. revert g v.
  induction es as [|e es IH]; intros g v Hcover Hv.
  - simpl. rewrite Hv. f_equal. unfold total_contribution. simpl. lra.
  - simpl.
    pose proof (bridge_update_read expf cols rows origin_x origin_y cell_size
                  baseSigma e g r c v Hcols ltac:(lia) Hc Hv) as Hstep.
    assert (∀ e', e' ∈ es →
              box_covers cols rows origin_x origin_y cell_size baseSigma e')
      as Hcover' by (intros e' He'; apply Hcover; now right).
    rewrite (IH _ _ Hcover' Hstep).
    f_equal. unfold total_contribution. rewrite fmap_cons. cbn [foldr].
    unfold contribution at 2.
    destruct (Hcover e ltac:(left)) as (box & Hbox & Hin).
    unfold bridge_touches. rewrite Hbox.
    destruct (cell_hit origin_x origin_y cell_size baseSigma e r c) eqn:Hhit.
    + rewrite (Hin r c Hr Hc Hhit). cbn [andb fadd Exact.ops]. lra.
    + rewrite andb_false_r. lra.
Qed.
End ExactSum.

Section ExactGain.
Local Open Scope R_scope.
Local Existing Instance Exact.ops.

Lemma exp_nonpos_le_1 x : x <= 0 → exp x <= 1.
Proof.
  intros [Hlt | ->].
  - left. rewrite <- exp_0. now apply exp_increasing.
  - rewrite exp_0. lra.
Qed.

Lemma bridge_inv_pos baseSigma e :
  0 < baseSigma → 0 < bridge_inv baseSigma e.
Proof.
  intros HbS. pose proof (bridge_sigma_pos baseSigma HbS e) as Hs.
  unfold bridge_inv. generalize dependent (bridge_sigma baseSigma e).
  intros s Hs. cbn [fdiv fmul flit Exact.ops].
  apply Rdiv_lt_0_compat; [lra|].
  apply Rmult_lt_0_compat; [lra|exact Hs].
Qed.

(** The value added by an edge lies in (0, 1], and above exp(-9/2) at a
    sample point that passes the cutoff test. *)
Lemma cell_gain_bounds origin_x origin_y cell_size baseSigma e r c :
  0 < baseSigma →
  0 < cell_gain exp origin_x origin_y cell_size baseSigma e r c <= 1
  ∧ (cell_hit origin_x origin_y cell_size baseSigma e r c = true →
     exp (- (9 / 2))
     < cell_gain exp origin_x origin_y cell_size baseSigma e r c).
Proof.
  intros HbS.
  pose proof (bridge_sigma_pos baseSigma HbS e) as Hs.
  pose proof (dist_to_segment_sq_nonneg
                (origin_x + IZR c * cell_size) (origin_y + IZR r * cell_size)
                (b_ax e) (b_ay e) (b_bx e) (b_by e)) as Hd.
  unfold cell_gain, cell_hit, bridge_cutoff_sq, bridge_cutoff, bridge_inv,
    cell_dist_sq.
  cbn [fadd fmul fdiv fneg flt of_int flit Exact.ops] in *.
  set (d := dist_to_segment_sq _ _ _ _ _ _) in *.
  set (s := bridge_sigma baseSigma e) in *.
  assert (0 < 2 / 1 * s * s) as Hss by nra.
  assert (- d * (1 / 1 / (2 / 1 * s * s)) = - (d / (2 / 1 * s * s))) as ->
    by (field; lra).
  assert (0 <= d / (2 / 1 * s * s)) as Hq.
  { apply Rmult_le_pos; [exact Hd|]. left. now apply Rinv_0_lt_compat. }
  split.
  - split; [apply exp_pos|]. apply exp_nonpos_le_1. lra.
  - intros Hhit. apply Rltb_true in Hhit. apply exp_increasing.
    apply Ropp_lt_contravar.
    apply (Rmult_lt_reg_r (2 / 1 * s * s)); [exact Hss|].
    replace (d / (2 / 1 * s * s) * (2 / 1 * s * s)) with d by (field; lra).
    lra.
Qed.

Lemma total_contribution_bounds origin_x origin_y cell_size baseSigma
    (es : list (bridge R)) r c :
  0 < baseSigma →
  let total := total_contribution exp origin_x origin_y cell_size baseSigma
                 es r c in
  0 <= total <= IZR (Z.of_nat (length es))
  ∧ ((∃ e, e ∈ es
           ∧ cell_hit origin_x origin_y cell_size baseSigma e r c = true) →
     exp (- (9 / 2)) < total).
Proof.
  intros HbS. cbv zeta. unfold total_contribution.
  induction es as [|e es [IHb IHh]].
  - rewrite fmap_nil. cbn [foldr length]. change (IZR (Z.of_nat 0)) with 0.
    split; [lra|]. intros (e & He & _). apply elem_of_nil in He.
    contradiction.
  - rewrite fmap_cons. cbn [foldr length].
    rewrite Nat2Z.inj_succ, succ_IZR.
    set (rest := foldr Rplus 0 _) in *.
    destruct (cell_gain_bounds origin_x origin_y cell_size baseSigma e r c
                HbS) as [Hg Hgh].
    unfold contribution.
    destruct (cell_hit origin_x origin_y cell_size baseSigma e r c) eqn:Hhit.
    + specialize (Hgh eq_refl). split; [lra|]. intros _. lra.
    + split; [lra|]. intros (e' & He' & Hhit').
      apply elem_of_cons in He' as [-> | He'].
      * rewrite Hhit in Hhit'. discriminate.
      * assert (exp (- (9 / 2)) < rest) by (apply IHh; eauto). lra.
Qed.
End ExactGain.

Section ExactFieldProperties.
Local Open Scope R_scope.
Local Existing Instance Exact.ops.

(** X20. In exact arithmetic with [cell_size > 0], each cell ends with
    its starting value plus the sum, over the edges, of what the edge
    contributes: [expf (- dSq / (2 sigma^2))] when the sample point passes
    the cutoff test of the edge, nothing otherwise. *)
Theorem add_bridge_field_sum (expf : R → R) cols rows
    (origin_x origin_y cell_size base_sigma : R) (m : memory R)
    (es : list (bridge R)) :
  let baseSigma := Rmax base_sigma (cell_size * (5 / 2)) in
  (1 ≤ cols)%Z →
  Z.of_nat (length (grid_values m)) = (rows * cols)%Z →
  0 < cell_size →
  bridges_at (mst_edges m) es →
  (∀ e, e ∈ es →
     is_Some (bridge_box cols rows origin_x origin_y cell_size baseSigma e)) →
  ∃ g',
    add_bridge_field expf cols rows origin_x origin_y cell_size
      (Z.of_nat (length es)) base_sigma m = Some (tt, set_grid m g')
    ∧ ∀ r c, (0 ≤ r < rows)%Z → (0 ≤ c < cols)%Z →
        ∃ v, read (grid_values m) (r * cols + c) = Some v
          ∧ read g' (r * cols + c)
            = Some (v + total_contribution expf origin_x origin_y cell_size
                          baseSigma es r c).
Proof.
  intros baseSigma Hcols Hlen Hcs Hes Hbox.
  eexists. split.
  - apply add_bridge_field_run; (lia || assumption).
  - intros r c Hr Hc.
    destruct (read_Some (grid_values m) (r * cols + c)) as [v Hv]; [nia|].
    exists v. split; [exact Hv|].
    apply add_edges_sum; try (assumption || lia).
    intros e He. apply box_covers_exact; [assumption|]. now apply Hbox.
Qed.

(** X21. In exact arithmetic with [cell_size > 0] and the exponential
    for [expf], [add_bridge_field] never lowers a cell and raises it by at
    most 1 for each edge; a cell within the cutoff of some edge is raised
    by more than [exp (-9/2)]. *)
Theorem add_bridge_field_bounds cols rows
    (origin_x origin_y cell_size base_sigma : R) (m : memory R)
    (es : list (bridge R)) :
  let baseSigma := Rmax base_sigma (cell_size * (5 / 2)) in
  (1 ≤ cols)%Z →
  Z.of_nat (length (grid_values m)) = (rows * cols)%Z →
  0 < cell_size →
  bridges_at (mst_edges m) es →
  (∀ e, e ∈ es →
     is_Some (bridge_box cols rows origin_x origin_y cell_size baseSigma e)) →
  ∃ g',
    add_bridge_field exp cols rows origin_x origin_y cell_size
      (Z.of_nat (length es)) base_sigma m = Some (tt, set_grid m g')
    ∧ ∀ r c, (0 ≤ r < rows)%Z → (0 ≤ c < cols)%Z →
        ∃ v v', read (grid_values m) (r * cols + c) = Some v
          ∧ read g' (r * cols + c) = Some v'
          ∧ v <= v' <= v + IZR (Z.of_nat (length es))
          ∧ ((∃ e, e ∈ es
                   ∧ cell_hit origin_x origin_y cell_size baseSigma e r c
                     = true) →
             v + exp (- (9 / 2)) < v').
Proof.
  intros baseSigma Hcols Hlen Hcs Hes Hbox.
  pose proof (baseSigma_pos cell_size base_sigma Hcs) as HbS.
  fold baseSigma in HbS.
  eexists. split.
  - apply add_bridge_field_run; (lia || assumption).
  - intros r c Hr Hc.
    destruct (read_Some (grid_values m) (r * cols + c)) as [v Hv]; [nia|].
    exists v. eexists. split; [exact Hv|]. split.
    { eapply add_edges_sum; [lia|lia|lia| |exact Hv].
      intros e He. apply box_covers_exact; [assumption|]. now apply Hbox. }
    pose proof (total_contribution_bounds origin_x origin_y cell_size
                  baseSigma es r c HbS) as Hb.
    cbv zeta in Hb. destruct Hb as [Hb Hh].
    change (fmaxf base_sigma (fmul cell_size (flit 5 2))) with baseSigma.
    split; [lra|]. intros Hex. specialize (Hh Hex). lra.
Qed.

Lemma bridge_update_swap (expf : R → R) cols rows
    (origin_x origin_y cell_size baseSigma : R) (e1 e2 : bridge R)
    (g : list R) :
  bridge_update expf cols rows origin_x origin_y cell_size baseSigma e2
    (bridge_update expf cols rows origin_x origin_y cell_size baseSigma e1 g)
  = bridge_update expf cols rows origin_x origin_y cell_size baseSigma e1
      (bridge_update expf cols rows origin_x origin_y cell_size baseSigma e2 g).
Proof.
  apply list_eq. intros i. unfold bridge_update.
  rewrite !grid_update_lookup.
  destruct (g !! i) as [v|]; [simpl|reflexivity].
  destruct (bridge_touches _ _ _ _ _ _ e1 _ _),
           (bridge_touches _ _ _ _ _ _ e2 _ _); f_equal; lra.
Qed.

Lemma add_edges_permutation (expf : R → R) cols rows
    (origin_x origin_y cell_size baseSigma : R) (es es' : list (bridge R))
    (g : list R) :
  es ≡ₚ es' →
  foldl (λ g e, bridge_update expf cols rows origin_x origin_y cell_size
                  baseSigma e g) g es
  = foldl (λ g e, bridge_update expf cols rows origin_x origin_y cell_size
                    baseSigma e g) g es'.
Proof.
  intros Hperm. revert g.
  induction Hperm as [|e es es' _ IH|e1 e2 es|es1 es2 es3 _ IH1 _ IH2];
    intros g; simpl.
  - reflexivity.
  - apply IH.
  - now rewrite bridge_update_swap.
  - now rewrite IH1.
Qed.

(** X22. In exact arithmetic the grid [add_bridge_field] ends with does
    not depend on the order of the edges in the buffer. *)
Theorem add_bridge_field_permutation (expf : R → R) cols rows
    (origin_x origin_y cell_size base_sigma : R) (g segs : list R)
    (es es' : list (bridge R)) :
  (1 ≤ cols)%Z →
  Z.of_nat (length g) = (rows * cols)%Z →
  (∀ e, e ∈ es →
     is_Some (bridge_box cols rows origin_x origin_y cell_size
                (Rmax base_sigma (cell_size * (5 / 2))) e)) →
  es ≡ₚ es' →
  ∃ g',
    add_bridge_field expf cols rows origin_x origin_y cell_size
      (Z.of_nat (length es)) base_sigma
      (Memory g (es ≫= bridge_floats) segs)
    = Some (tt, Memory g' (es ≫= bridge_floats) segs)
    ∧ add_bridge_field expf cols rows origin_x origin_y cell_size
        (Z.of_nat (length es')) base_sigma
        (Memory g (es' ≫= bridge_floats) segs)
      = Some (tt, Memory g' (es' ≫= bridge_floats) segs).
Proof.
  intros Hcols Hlen Hbox Hperm.
  pose proof (λ es, add_bridge_field_run expf cols rows origin_x origin_y
                cell_size base_sigma (Memory g (es ≫= bridge_floats) segs) es)
    as Hrun.
  cbn [grid_values mst_edges set_grid segments_out] in Hrun.
  eexists. split.
  - apply Hrun; [lia|assumption|apply bridges_at_floats|assumption].
  - rewrite Hrun; [|lia|assumption|apply bridges_at_floats|].
    + unfold set_grid. cbn [grid_values mst_edges segments_out].
      now rewrite (add_edges_permutation expf cols rows origin_x origin_y
                     cell_size _ es es' g Hperm).
    + intros e He. apply Hbox. now rewrite Hperm.
Qed.
End ExactFieldProperties.

Section ExactMoves.
Local Open Scope R_scope.
Local Existing Instance Exact.ops.

Lemma Rmin_shift a b d : Rmin (a + d) (b + d) = Rmin a b + d.
Proof. unfold Rmin. repeat destruct (Rle_dec _ _); lra. Qed.

Lemma Rmax_shift a b d : Rmax (a + d) (b + d) = Rmax a b + d.
Proof. unfold Rmax. repeat destruct (Rle_dec _ _); lra. Qed.

Lemma dist_to_segment_sq_shift px py ax ay bx by_ dx dy :
  dist_to_segment_sq (px + dx) (py + dy) (ax + dx) (ay + dy)
    (bx + dx) (by_ + dy)
  = dist_to_segment_sq px py ax ay bx by_.
Proof.
  unfold dist_to_segment_sq.
  cbn [fadd fsub fmul fdiv flt flit Exact.ops].
  replace (bx + dx - (ax + dx)) with (bx - ax) by ring.
  replace (by_ + dy - (ay + dy)) with (by_ - ay) by ring.
  replace (px + dx - (ax + dx)) with (px - ax) by ring.
  replace (py + dy - (ay + dy)) with (py - ay) by ring.
  repeat match goal with
  | |- context [Exact.Rltb ?a ?b] => destruct (Exact.Rltb a b)
  end; ring.
Qed.

Section Moves.
Variable expf : R → R.
Variables (cols rows : Z) (origin_x origin_y cell_size baseSigma : R).
Variables (dx dy : R).

Lemma bridge_sigma_shift e :
  bridge_sigma baseSigma (shift_bridge dx dy e) = bridge_sigma baseSigma e.
Proof.
  unfold bridge_sigma, bridge_length, shift_bridge.
  cbn [b_ax b_ay b_bx b_by fsub Exact.ops].
  replace (b_bx e + dx - (b_ax e + dx)) with (b_bx e - b_ax e) by ring.
  replace (b_by e + dy - (b_ay e + dy)) with (b_by e - b_ay e) by ring.
  reflexivity.
Qed.

Lemma bridge_box_shift e :
  bridge_box cols rows (origin_x + dx) (origin_y + dy) cell_size baseSigma
    (shift_bridge dx dy e)
  = bridge_box cols rows origin_x origin_y cell_size baseSigma e.
Proof.
  unfold bridge_box, bridge_cutoff. rewrite bridge_sigma_shift.
  cbv zeta. unfold shift_bridge.
  cbn [b_ax b_ay b_bx b_by fadd fsub fmul fdiv fminf fmaxf Exact.ops].
  rewrite !Rmin_shift, !Rmax_shift.
  set (cut := flit 3 1 * bridge_sigma baseSigma e).
  replace (Rmin (b_ay e) (b_by e) + dy - cut - (origin_y + dy))
    with (Rmin (b_ay e) (b_by e) - cut - origin_y) by ring.
  replace (Rmax (b_ay e) (b_by e) + dy + cut - (origin_y + dy))
    with (Rmax (b_ay e) (b_by e) + cut - origin_y) by ring.
  replace (Rmin (b_ax e) (b_bx e) + dx - cut - (origin_x + dx))
    with (Rmin (b_ax e) (b_bx e) - cut - origin_x) by ring.
  replace (Rmax (b_ax e) (b_bx e) + dx + cut - (origin_x + dx))
    with (Rmax (b_ax e) (b_bx e) + cut - origin_x) by ring.
  reflexivity.
Qed.

Lemma cell_dist_sq_shift e r c :
  cell_dist_sq (origin_x + dx) (origin_y + dy) cell_size
    (shift_bridge dx dy e) r c
  = cell_dist_sq origin_x origin_y cell_size e r c.
Proof.
  unfold cell_dist_sq, shift_bridge.
  cbn [b_ax b_ay b_bx b_by fadd fmul of_int Exact.ops].
  replace (origin_x + dx + IZR c * cell_size)
    with (origin_x + IZR c * cell_size + dx) by ring.
  replace (origin_y + dy + IZR r * cell_size)
    with (origin_y + IZR r * cell_size + dy) by ring.
  apply dist_to_segment_sq_shift.
Qed.

Lemma bridge_update_shift e g :
  bridge_update expf cols rows (origin_x + dx) (origin_y + dy) cell_size
    baseSigma (shift_bridge dx dy e) g
  = bridge_update expf cols rows origin_x origin_y cell_size baseSigma e g.
Proof.
  unfold bridge_update, bridge_touches, cell_hit, cell_gain,
    bridge_cutoff_sq, bridge_cutoff, bridge_inv.
  rewrite bridge_box_shift, bridge_sigma_shift.
  apply list_eq. intros i. rewrite !grid_update_lookup.
  now rewrite !cell_dist_sq_shift.
Qed.

Lemma add_edges_shift (es : list (bridge R)) g :
  foldl (λ g e, bridge_update expf cols rows (origin_x + dx) (origin_y + dy)
                  cell_size baseSigma e g) g (shift_bridge dx dy <$> es)
  = foldl (λ g e, bridge_update expf cols rows origin_x origin_y cell_size
                    baseSigma e g) g es.
Proof.
  revert g. induction es as [|e es IH]; intros g; [reflexivity|].
  rewrite fmap_cons. cbn [foldl]. now rewrite bridge_update_shift, IH.
Qed.
End Moves.

(** X23. In exact arithmetic, moving the origin and both endpoints of
    every edge by the same vector leaves the grid [add_bridge_field] ends
    with as it is. *)
Theorem add_bridge_field_translation (expf : R → R) cols rows
    (origin_x origin_y cell_size base_sigma dx dy : R) (g segs : list R)
    (es : list (bridge R)) :
  (1 ≤ cols)%Z →
  Z.of_nat (length g) = (rows * cols)%Z →
  (∀ e, e ∈ es →
     is_Some (bridge_box cols rows origin_x origin_y cell_size
                (Rmax base_sigma (cell_size * (5 / 2))) e)) →
  ∃ g',
    add_bridge_field expf cols rows origin_x origin_y cell_size
      (Z.of_nat (length es)) base_sigma
      (Memory g (es ≫= bridge_floats) segs)
    = Some (tt, Memory g' (es ≫= bridge_floats) segs)
    ∧ add_bridge_field expf cols rows (origin_x + dx) (origin_y + dy)
        cell_size (Z.of_nat (length (shift_bridge dx dy <$> es))) base_sigma
        (Memory g ((shift_bridge dx dy <$> es) ≫= bridge_floats) segs)
      = Some (tt, Memory g' ((shift_bridge dx dy <$> es) ≫= bridge_floats)
                    segs).
Proof.
  intros Hcols Hlen Hbox.
  pose proof (λ ox oy es, add_bridge_field_run expf cols rows ox oy
                cell_size base_sigma (Memory g (es ≫= bridge_floats) segs) es)
    as Hrun.
  cbn [grid_values mst_edges set_grid segments_out] in Hrun.
  eexists. split.
  - apply Hrun; [lia|assumption|apply bridges_at_floats|assumption].
  - rewrite Hrun; [|lia|assumption|apply bridges_at_floats|].
    + unfold set_grid. cbn [grid_values mst_edges segments_out].
      now rewrite (add_edges_shift expf cols rows origin_x origin_y cell_size).
    + intros e He. apply list_elem_of_fmap in He as (e0 & -> & He0).
      rewrite (bridge_box_shift cols rows origin_x origin_y cell_size).
      now apply Hbox.
Qed.

Section Reversal.
Variable expf : R → R.
Variables (cols rows : Z) (origin_x origin_y cell_size baseSigma : R).

Lemma bridge_sigma_reverse e :
  bridge_sigma baseSigma (reverse_bridge e) = bridge_sigma baseSigma e.
Proof.
  unfold bridge_sigma, bridge_length, reverse_bridge.
  cbn [b_ax b_ay b_bx b_by fsub fadd fmul Exact.ops].
  replace ((b_ax e - b_bx e) * (b_ax e - b_bx e)
           + (b_ay e - b_by e) * (b_ay e - b_by e))
    with ((b_bx e - b_ax e) * (b_bx e - b_ax e)
          + (b_by e - b_ay e) * (b_by e - b_ay e)) by ring.
  reflexivity.
Qed.

Lemma bridge_box_reverse e :
  bridge_box cols rows origin_x origin_y cell_size baseSigma
    (reverse_bridge e)
  = bridge_box cols rows origin_x origin_y cell_size baseSigma e.
Proof.
  unfold bridge_box, bridge_cutoff. rewrite bridge_sigma_reverse.
  cbv zeta. unfold reverse_bridge.
  cbn [b_ax b_ay b_bx b_by fminf fmaxf Exact.ops].
  now rewrite (Rmin_comm (b_bx e)), (Rmax_comm (b_bx e)),
    (Rmin_comm (b_by e)), (Rmax_comm (b_by e)).
Qed.

Lemma bridge_update_reverse e g :
  long_bridge e →
  bridge_update expf cols rows origin_x origin_y cell_size baseSigma
    (reverse_bridge e) g
  = bridge_update expf cols rows origin_x origin_y cell_size baseSigma e g.
Proof.
  intros Hlong.
  unfold bridge_update, bridge_touches, cell_hit, cell_gain,
    bridge_cutoff_sq, bridge_cutoff, bridge_inv.
  rewrite bridge_box_reverse, bridge_sigma_reverse.
  assert (∀ r c, cell_dist_sq origin_x origin_y cell_size (reverse_bridge e)
                   r c
                 = cell_dist_sq origin_x origin_y cell_size e r c) as Hd.
  { intros r c. unfold cell_dist_sq, reverse_bridge.
    cbn [b_ax b_ay b_bx b_by].
    apply Rle_antisym; apply dist_to_segment_sq_swap_le; [|exact Hlong].
    unfold long_bridge in Hlong.
    replace ((b_ax e - b_bx e) * (b_ax e - b_bx e)
             + (b_ay e - b_by e) * (b_ay e - b_by e))
      with ((b_bx e - b_ax e) * (b_bx e - b_ax e)
            + (b_by e - b_ay e) * (b_by e - b_ay e)) by ring.
    exact Hlong. }
  apply list_eq. intros i. rewrite !grid_update_lookup.
  now rewrite !Hd.
Qed.

Lemma add_edges_reverse (es : list (bridge R)) g :
  (∀ e, e ∈ es → long_bridge e) →
  foldl (λ g e, bridge_update expf cols rows origin_x origin_y cell_size
                  baseSigma e g) g (reverse_bridge <$> es)
  = foldl (λ g e, bridge_update expf cols rows origin_x origin_y cell_size
                    baseSigma e g) g es.
Proof.
  revert g. induction es as [|e es IH]; intros g Hlong; [reflexivity|].
  rewrite fmap_cons. cbn [foldl].
  rewrite bridge_update_reverse by (apply Hlong; left).
  apply IH. intros e' He'. apply Hlong. now right.
Qed.
End Reversal.

(** X24. In exact arithmetic, exchanging the two endpoints of every
    edge leaves the grid [add_bridge_field] ends with as it is, provided
    each edge has squared length at least 1e-12 (a shorter edge is
    measured from its first endpoint). *)
Theorem add_bridge_field_edge_reversal (expf : R → R) cols rows
    (origin_x origin_y cell_size base_sigma : R) (g segs : list R)
    (es : list (bridge R)) :
  (1 ≤ cols)%Z →
  Z.of_nat (length g) = (rows * cols)%Z →
  (∀ e, e ∈ es →
     is_Some (bridge_box cols rows origin_x origin_y cell_size
                (Rmax base_sigma (cell_size * (5 / 2))) e)) →
  (∀ e, e ∈ es → long_bridge e) →
  ∃ g',
    add_bridge_field expf cols rows origin_x origin_y cell_size
      (Z.of_nat (length es)) base_sigma
      (Memory g (es ≫= bridge_floats) segs)
    = Some (tt, Memory g' (es ≫= bridge_floats) segs)
    ∧ add_bridge_field expf cols rows origin_x origin_y cell_size
        (Z.of_nat (length (reverse_bridge <$> es))) base_sigma
        (Memory g ((reverse_bridge <$> es) ≫= bridge_floats) segs)
      = Some (tt, Memory g' ((reverse_bridge <$> es) ≫= bridge_floats) segs).
Proof.
  intros Hcols Hlen Hbox Hlong.
  pose proof (λ es, add_bridge_field_run expf cols rows origin_x origin_y
                cell_size base_sigma (Memory g (es ≫= bridge_floats) segs) es)
    as Hrun.
  cbn [grid_values mst_edges set_grid segments_out] in Hrun.
  eexists. split.
  - apply Hrun; [lia|assumption|apply bridges_at_floats|assumption].
  - rewrite Hrun; [|lia|assumption|apply bridges_at_floats|].
    + unfold set_grid. cbn [grid_values mst_edges segments_out].
      now rewrite (add_edges_reverse expf cols rows origin_x origin_y
                     cell_size _ es g Hlong).
    + intros e He. apply list_elem_of_fmap in He as (e0 & -> & He0).
      rewrite bridge_box_reverse. now apply Hbox.
Qed.
End ExactMoves.

(** ** The further properties at concrete inputs *)

Section HelperPropertiesAtInputs.
Local Open Scope R_scope.

Lemma dist_to_segment_sq_minimum_witness :
  ∃ s, 0 <= s <= 1
       ∧ dist_to_segment_sq 0 1 0 0 1 0
         = (0 - (0 + s * (1 - 0))) * (0 - (0 + s * (1 - 0)))
           + (1 - (0 + s * (0 - 0))) * (1 - (0 + s * (0 - 0))).
Proof.
  refine (proj1 (proj2 (dist_to_segment_sq_minimum 0 1 0 0 1 0) _)). lra.
Defined.

Lemma dist_to_segment_sq_symmetric_witness :
  dist_to_segment_sq 0 1 0 0 1 0 = dist_to_segment_sq 0 1 1 0 0 0.
Proof. apply dist_to_segment_sq_symmetric. lra. Defined.

Lemma lerp1d_reaches_threshold_witness :
  0 + lerp1d 0 10 3 * (10 - 0) = 3.
Proof.
  apply lerp1d_reaches_threshold. rewrite Rabs_right; lra.
Defined.

Lemma lerp1d_flat_binary32_witness :
  lerp1d one32 one32 half32 = Binary32.lit32 1 2.
Proof.
  apply (proj1 (lerp1d_flat_binary32 one32 half32)). reflexivity.
Defined.
End HelperPropertiesAtInputs.

Section SweepPropertiesAtInputs.
Import Binary32.

Lemma edge_pairs_valid_witness :
  ∃ pairs,
    saddle_pairs 2 0 0 5 half32
      (table_get EDGE_TABLE 5 ((-1, -1), (-1, -1))) saddle_memory
    = Some (pairs, saddle_memory).
Proof.
  pose (k := Corners zero32 one32 zero32 one32).
  assert (has_corners (grid_values saddle_memory) 2 0 0 k) as Hk
    by (repeat split; reflexivity).
  destruct (edge_pairs_valid 2 half32 saddle_memory 0 0 k 5 Hk
              ltac:(lia)) as (pairs & Hrun & _).
  exists pairs. exact Hrun.
Defined.

Lemma edge_pairs_oriented_witness :
  (Left, Top) ∈ cell_edges 5 false
  ∧ Z.testbit 5 (edge_start Left) = true ∧ Z.testbit 5 (edge_end Left) = false
  ∧ Z.testbit 5 (edge_start Top) = false ∧ Z.testbit 5 (edge_end Top) = true
  ∧ (Top, Left) ∈ cell_edges (15 - 5) (negb false).
Proof.
  assert ((Left, Top) ∈ cell_edges 5 false) as Hin by (vm_compute; left).
  destruct (edge_pairs_oriented 5 false Left Top ltac:(lia)) as [Hside Hswap].
  split; [exact Hin|].
  destruct (Hside Hin) as (H1 & H2 & H3 & H4).
  repeat split; try assumption. now apply Hswap.
Defined.

Lemma marching_squares_thin_grid_witness :
  marching_squares 5 1 zero32 zero32 one32 half32 (Memory [] [] [])
  = Some (0, Memory [] [] []).
Proof. apply marching_squares_thin_grid; [lia|lia|left; lia]. Defined.

Lemma marching_squares_no_crossing_witness :
  marching_squares 2 2 zero32 zero32 one32 one32 unit_memory
  = Some (0, unit_memory).
Proof.
  apply (marching_squares_no_crossing 2 2 zero32 zero32 one32 one32
           unit_memory false).
  - lia.
  - reflexivity.
  - intros v Hv. apply elem_of_replicate in Hv as [-> _]. reflexivity.
Defined.

Lemma marching_squares_nan_binary32_witness :
  marching_squares 2 2 zero32 zero32 one32 S754_nan unit_memory
  = Some (0, unit_memory).
Proof.
  apply marching_squares_nan_binary32.
  - lia.
  - reflexivity.
  - left. reflexivity.
Defined.

Lemma marching_squares_count_witness :
  ∃ m',
    marching_squares 2 2 zero32 zero32 one32 half32 saddle_memory
    = Some (foldr Z.add 0
              ((λ r, foldr Z.add 0
                       ((λ c, table_get NUM_PAIRS
                                (cell_case half32
                                   (corners_of (grid_values saddle_memory)
                                      2 r c)) 0)
                        <$> seqZ 0 (2 - 1)))
               <$> seqZ 0 (2 - 1)), m').
Proof.
  apply (marching_squares_count 2 2 zero32 zero32 one32 half32 saddle_memory).
  - lia.
  - lia.
  - reflexivity.
  - simpl. lia.
Defined.

Lemma marching_squares_exact_room_witness :
  (let S := sweep_segments (grid_values saddle_memory) 2 2
              zero32 zero32 one32 half32 in
   marching_squares 2 2 zero32 zero32 one32 half32 saddle_memory
   = Some (Z.of_nat (length S),
           set_segments saddle_memory
             ((S ≫= segment_floats)
              ++ drop (4 * length S) (segments_out saddle_memory))))
  ∧ marching_squares 2 2 zero32 zero32 one32 half32
      (Memory [zero32; one32; one32; zero32] [] (replicate 4 zero32))
    = None.
Proof.
  split.
  - apply (proj1 (marching_squares_exact_room 2 2 zero32 zero32 one32 half32
                    saddle_memory ltac:(lia) ltac:(lia) eq_refl)).
    vm_compute. discriminate.
  - apply (proj2 (marching_squares_exact_room 2 2 zero32 zero32 one32 half32
                    (Memory [zero32; one32; one32; zero32] []
                       (replicate 4 zero32))
                    ltac:(lia) ltac:(lia) eq_refl)).
    vm_compute. reflexivity.
Defined.

Lemma marching_squares_rerun_witness :
  ∃ n m',
    marching_squares 2 2 zero32 zero32 one32 half32 saddle_memory
    = Some (n, m')
    ∧ marching_squares 2 2 zero32 zero32 one32 half32 m' = Some (n, m').
Proof.
  destruct (marching_squares 2 2 zero32 zero32 one32 half32 saddle_memory)
    as [[n m']|] eqn:Hrun; [|vm_compute in Hrun; discriminate].
  exists n, m'. split; [reflexivity|].
  apply (marching_squares_rerun 2 2 zero32 zero32 one32 half32 saddle_memory);
    [lia|lia|reflexivity|simpl; lia|exact Hrun].
Defined.

Lemma shared_edge_points_agree_witness :
  (∃ p q,
     get_edge_point 9 zero32 zero32 tenth32 0 6 1 half32 strip_memory
     = Some (p, strip_memory)
     ∧ get_edge_point 9 zero32 zero32 tenth32 0 (6 + 1) 3 half32 strip_memory
       = Some (q, strip_memory)
     ∧ p.2 = q.2)
  ∧ get_edge_point 3 0%R 0%R 1%R 0 0 1 (1 / 2)%R flat_strip
    = get_edge_point 3 0%R 0%R 1%R 0 (0 + 1) 3 (1 / 2)%R flat_strip.
Proof.
  split.
  - apply (proj1 (proj1 shared_edge_points_agree _ Binary32.ops 9 2
                    zero32 zero32 tenth32 half32 strip_memory 0 6
                    eq_refl ltac:(lia) ltac:(lia))).
    lia.
  - apply (proj1 (proj1 (proj2 shared_edge_points_agree) 3 2
                    0%R 0%R 1%R (1 / 2)%R flat_strip 0 0
                    eq_refl ltac:(lia) ltac:(lia))).
    lia.
Defined.
End SweepPropertiesAtInputs.

Section ExactSweepAtInputs.
Local Open Scope R_scope.

Lemma marching_squares_translation_witness :
  ∃ S : list ((R * R) * (R * R)),
    length S = 4%nat
    ∧ marching_squares 3 3 0 0 1 (1 / 2) peak_memory
      = Some (Z.of_nat (length S),
              set_segments peak_memory
                ((S ≫= segment_floats)
                 ++ drop (4 * length S) (segments_out peak_memory)))
    ∧ marching_squares 3 3 (0 + 1) (0 + 2) 1 (1 / 2) peak_memory
      = Some (Z.of_nat (length S),
              set_segments peak_memory
                (((shift_segment 1 2 <$> S) ≫= segment_floats)
                 ++ drop (4 * length S) (segments_out peak_memory))).
Proof.
  destruct (marching_squares_translation 3 3 0 0 1 (1 / 2) 1 2 peak_memory)
    as (S & Hrun & Hmoved).
  - lia.
  - lia.
  - reflexivity.
  - simpl. lia.
  - exists S. split; [|split; assumption].
    pose proof (single_peak_run (H := Exact.ops) 0 0 1 [] (replicate 32 0)
                  half_way_exact ltac:(simpl; lia)) as Hfour.
    change (marching_squares 3 3 0 0 1 (1 / 2) peak_memory = Some
              (4%Z, Memory single_peak []
                 ((diamond 0 0 1 ≫= segment_floats)
                  ++ drop 16 (replicate 32 0)))) in Hfour.
    rewrite Hrun in Hfour. injection Hfour as Hlen _. lia.
Defined.

Lemma marching_squares_level_shift_witness :
  ∃ n segs',
    n = 4%Z
    ∧ marching_squares 3 3 0 0 1 (1 / 2)
        (Memory single_peak [] (replicate 32 0))
      = Some (n, Memory single_peak [] segs')
    ∧ marching_squares 3 3 0 0 1 (1 / 2 + 1)
        (Memory ((λ v, v + 1) <$> single_peak) [] (replicate 32 0))
      = Some (n, Memory ((λ v, v + 1) <$> single_peak) [] segs').
Proof.
  destruct (marching_squares_level_shift 3 3 0 0 1 (1 / 2) 1 single_peak []
              (replicate 32 0)) as (n & segs' & Hrun & Hraised).
  - lia.
  - lia.
  - reflexivity.
  - simpl. lia.
  - exists n, segs'. split; [|split; assumption].
    pose proof (single_peak_run (H := Exact.ops) 0 0 1 [] (replicate 32 0)
                  half_way_exact ltac:(simpl; lia)) as Hfour.
    change (marching_squares 3 3 0 0 1 (1 / 2)
              (Memory single_peak [] (replicate 32 0)) = Some
              (4%Z, Memory single_peak []
                 ((diamond 0 0 1 ≫= segment_floats)
                  ++ drop 16 (replicate 32 0)))) in Hfour.
    rewrite Hrun in Hfour. now injection Hfour as Hn _.
Defined.
End ExactSweepAtInputs.

Section FieldPropertiesAtInputs.
Import Binary32.

Lemma add_bridge_field_zero_cell_size_witness :
  add_bridge_field (λ x, x) 2 2 zero32 zero32 zero32 1 one32 unit_memory
  = None.
Proof.
  apply add_bridge_field_zero_cell_size.
  - left. exists false. reflexivity.
  - lia.
Defined.

Lemma add_bridge_field_local_witness :
  ∃ g',
    add_bridge_field (λ x, x) 2 2 zero32 zero32 one32
      (Z.of_nat (length [unit_bridge])) one32 unit_memory
    = Some (tt, set_grid unit_memory g')
    ∧ length g' = length (grid_values unit_memory).
Proof.
  destruct (add_bridge_field_local (λ x, x) 2 2 zero32 zero32 one32 one32
              unit_memory [unit_bridge]) as (g' & Hrun & Hlen & _).
  - lia.
  - reflexivity.
  - apply bridges_at_one.
  - intros e He. apply list_elem_of_singleton in He. rewrite He.
    exists (0, 1, 0, 1). reflexivity.
  - exists g'. split; [exact Hrun|exact Hlen].
Defined.

Lemma add_bridge_field_app_witness :
  ∃ g1 g2,
    add_bridge_field (λ x, x) 40 1 zero32 zero32 one32
      (Z.of_nat (length [left_bridge])) one32
      (Memory (replicate 40 zero32) ([left_bridge] ≫= bridge_floats) [])
    = Some (tt, Memory g1 ([left_bridge] ≫= bridge_floats) [])
    ∧ add_bridge_field (λ x, x) 40 1 zero32 zero32 one32
        (Z.of_nat (length [right_bridge])) one32
        (Memory g1 ([right_bridge] ≫= bridge_floats) [])
      = Some (tt, Memory g2 ([right_bridge] ≫= bridge_floats) [])
    ∧ add_bridge_field (λ x, x) 40 1 zero32 zero32 one32
        (Z.of_nat (length ([left_bridge] ++ [right_bridge]))) one32
        (Memory (replicate 40 zero32)
           (([left_bridge] ++ [right_bridge]) ≫= bridge_floats) [])
      = Some (tt, Memory g2
                    (([left_bridge] ++ [right_bridge]) ≫= bridge_floats) []).
Proof.
  refine (proj2 (add_bridge_field_app (λ x, x) 40 1 zero32 zero32 one32
                   one32 (replicate 40 zero32) [] [left_bridge]
                   [right_bridge] _ _ _)).
  - lia.
  - reflexivity.
  - intros e He. apply elem_of_cons in He as [-> | He].
    + rewrite (proj1 left_right_boxes). now eexists.
    + apply list_elem_of_singleton in He. rewrite He.
      rewrite (proj2 left_right_boxes). now eexists.
Defined.
End FieldPropertiesAtInputs.

Section ExactFieldAtInputs.
Local Open Scope R_scope.

Lemma unit_edge_box_defined :
  is_Some (bridge_box 2 2 0 0 1 (Rmax 1 (1 * (5 / 2))) unit_edge).
Proof.
  unfold bridge_box, bridge_cutoff, bridge_sigma, bridge_length, unit_edge.
  cbv [b_ax b_ay b_bx b_by]. cbv zeta.
  change (fminf 0 0) with (Rmin 0 0). change (fmaxf 0 0) with (Rmax 0 0).
  change (fminf 0 1) with (Rmin 0 1). change (fmaxf 0 1) with (Rmax 0 1).
  assert (sqrtf (fadd (fmul (fsub 1 0) (fsub 1 0)) (fmul (fsub 0 0) (fsub 0 0)))
          = 1) as ->.
  { simpl. replace ((1 - 0) * (1 - 0) + (0 - 0) * (0 - 0)) with 1 by lra.
    apply sqrt_1. }
  assert (fmaxf (Rmax 1 (1 * (5 / 2))) (fmul 1 (flit 12 100)) = 5 / 2) as ->.
  { simpl. unfold Rmax. repeat destruct (Rle_dec _ _); lra. }
  rewrite (Rmin_left 0 0), (Rmax_left 0 0), (Rmin_left 0 1),
    (Rmax_right 0 1) by lra.
  rewrite !to_int_floor_defined, !to_int_ceil_defined;
    try (cbv [fadd fsub fmul fdiv flit Exact.ops];
         change (- 2 ^ 31)%Z with (-2147483648)%Z;
         change (2 ^ 31 - 1)%Z with 2147483647%Z;
         change (2 ^ 31)%Z with 2147483648%Z; lra).
  simpl. eexists. reflexivity.
Qed.

Lemma add_bridge_field_sum_witness :
  ∃ g',
    add_bridge_field exp 2 2 0 0 1 (Z.of_nat (length [point_bridge])) 1
      (Memory [0; 0; 0; 0] (bridge_floats point_bridge) [])
    = Some (tt, set_grid
                  (Memory [0; 0; 0; 0] (bridge_floats point_bridge) []) g').
Proof.
  destruct (add_bridge_field_sum exp 2 2 0 0 1 1
              (Memory [0; 0; 0; 0] (bridge_floats point_bridge) [])
              [point_bridge]) as (g' & Hrun & _).
  - lia.
  - reflexivity.
  - lra.
  - apply bridges_at_one.
  - intros e He. apply list_elem_of_singleton in He. rewrite He.
    exact point_bridge_box_defined.
  - exists g'. exact Hrun.
Defined.

Lemma add_bridge_field_bounds_witness :
  ∃ g',
    add_bridge_field exp 2 2 0 0 1 (Z.of_nat (length [point_bridge])) 1
      (Memory [0; 0; 0; 0] (bridge_floats point_bridge) [])
    = Some (tt, set_grid
                  (Memory [0; 0; 0; 0] (bridge_floats point_bridge) []) g').
Proof.
  destruct (add_bridge_field_bounds 2 2 0 0 1 1
              (Memory [0; 0; 0; 0] (bridge_floats point_bridge) [])
              [point_bridge]) as (g' & Hrun & _).
  - lia.
  - reflexivity.
  - lra.
  - apply bridges_at_one.
  - intros e He. apply list_elem_of_singleton in He. rewrite He.
    exact point_bridge_box_defined.
  - exists g'. exact Hrun.
Defined.

Lemma add_bridge_field_permutation_witness :
  ∃ g',
    add_bridge_field exp 2 2 0 0 1
      (Z.of_nat (length [point_bridge; unit_edge])) 1
      (Memory [0; 0; 0; 0] ([point_bridge; unit_edge] ≫= bridge_floats) [])
    = Some (tt, Memory g' ([point_bridge; unit_edge] ≫= bridge_floats) [])
    ∧ add_bridge_field exp 2 2 0 0 1
        (Z.of_nat (length [unit_edge; point_bridge])) 1
        (Memory [0; 0; 0; 0] ([unit_edge; point_bridge] ≫= bridge_floats) [])
      = Some (tt, Memory g' ([unit_edge; point_bridge] ≫= bridge_floats) []).
Proof.
  apply (add_bridge_field_permutation exp 2 2 0 0 1 1 [0; 0; 0; 0] []
           [point_bridge; unit_edge] [unit_edge; point_bridge]).
  - lia.
  - reflexivity.
  - intros e He. apply elem_of_cons in He as [-> | He].
    + exact point_bridge_box_defined.
    + apply list_elem_of_singleton in He. rewrite He.
      exact unit_edge_box_defined.
  - apply perm_swap.
Defined.

Lemma add_bridge_field_translation_witness :
  ∃ g',
    add_bridge_field exp 2 2 0 0 1 (Z.of_nat (length [unit_edge])) 1
      (Memory [0; 0; 0; 0] ([unit_edge] ≫= bridge_floats) [])
    = Some (tt, Memory g' ([unit_edge] ≫= bridge_floats) [])
    ∧ add_bridge_field exp 2 2 (0 + 3) (0 + 4) 1
        (Z.of_nat (length (shift_bridge 3 4 <$> [unit_edge]))) 1
        (Memory [0; 0; 0; 0]
           ((shift_bridge 3 4 <$> [unit_edge]) ≫= bridge_floats) [])
      = Some (tt, Memory g'
                    ((shift_bridge 3 4 <$> [unit_edge]) ≫= bridge_floats) []).
Proof.
  apply (add_bridge_field_translation exp 2 2 0 0 1 1 3 4 [0; 0; 0; 0] []
           [unit_edge]).
  - lia.
  - reflexivity.
  - intros e He. apply list_elem_of_singleton in He. rewrite He.
    exact unit_edge_box_defined.
Defined.

Lemma add_bridge_field_edge_reversal_witness :
  ∃ g',
    add_bridge_field exp 2 2 0 0 1 (Z.of_nat (length [unit_edge])) 1
      (Memory [0; 0; 0; 0] ([unit_edge] ≫= bridge_floats) [])
    = Some (tt, Memory g' ([unit_edge] ≫= bridge_floats) [])
    ∧ add_bridge_field exp 2 2 0 0 1
        (Z.of_nat (length (reverse_bridge <$> [unit_edge]))) 1
        (Memory [0; 0; 0; 0]
           ((reverse_bridge <$> [unit_edge]) ≫= bridge_floats) [])
      = Some (tt, Memory g'
                    ((reverse_bridge <$> [unit_edge]) ≫= bridge_floats) []).
Proof.
  apply (add_bridge_field_edge_reversal exp 2 2 0 0 1 1 [0; 0; 0; 0] []
           [unit_edge]).
  - lia.
  - reflexivity.
  - intros e He. apply list_elem_of_singleton in He. rewrite He.
    exact unit_edge_box_defined.
  - intros e He. apply list_elem_of_singleton in He. rewrite He.
    unfold long_bridge, unit_edge. simpl. lra.
Defined.
End ExactFieldAtInputs.
